(** * OSC: message codec, address-pattern engine and dispatch listener

    A shallow embedding of the Go packages [osc] (message.go) and
    [osc/server] (pattern.go, server.go), and the properties of the
    specification checked against it.

    Conventions of the embedding:
    - a Go [string] is a [string] (a sequence of bytes), a [[]byte] is a
      [list byte]; the conversions between the two are the ones of the
      standard library ([list_byte_of_string], [string_of_list_byte]);
    - Go [int] lengths and indices are [Z]; fixed-width integers are [Z]
      with the wrap-around of each conversion written out;
    - a Go function returning [(T, error)] returns a [result T]; a run-time
      panic (index out of range, nil dereference) is the third outcome
      [Panic];
    - [float64] arithmetic is IEEE-754 binary64 as specified by
      [SpecFloat] (precision 53, emax 1024), round to nearest even. *)

From Stdlib Require Import ZArith Lia Bool.
From Stdlib Require Import Strings.String Strings.Ascii Strings.Byte.
From Stdlib Require Import Floats.SpecFloat.
From stdpp Require Import base list.

Local Open Scope Z_scope.

(** ** Results, errors and panics *)

(** An [error] keeps the format string of the [fmt.Errorf]/[errors.New]
    call that built it (the interpolated operands are not kept), and the
    error it wraps with [%w], if any. *)
Inductive error : Type :=
| Errorf (format : string)
| Wrapf (format : string) (inner : error).

Inductive result (A : Type) : Type :=
| Ok (a : A)
| Err (e : error)
| Panic (reason : string).
Arguments Ok {A} a.
Arguments Err {A} e.
Arguments Panic {A} reason.

Definition rbind {A B} (r : result A) (k : A -> result B) : result B :=
  match r with
  | Ok a => k a
  | Err e => Err e
  | Panic p => Panic p
  end.

(** [wrap fmt r] is the idiom
    [if err != nil { return nil, fmt.Errorf("...: %w", err) }]. *)
Definition wrap {A} (format : string) (r : result A) : result A :=
  match r with
  | Err e => Err (Wrapf format e)
  | other => other
  end.

Definition is_Ok {A} (r : result A) : bool :=
  match r with Ok _ => true | _ => false end.

Definition is_Err {A} (r : result A) : bool :=
  match r with Err _ => true | _ => false end.

(** ** Bytes, slices and strings *)

Definition byte_val (b : byte) : Z := Z.of_N (Byte.to_N b).

(** Conversion of an integer to [byte], keeping the low 8 bits. *)
Definition byte_of_Z (z : Z) : byte :=
  match Byte.of_N (Z.to_N (z mod 256)) with
  | Some b => b
  | None => x00
  end.

(** [len] of a slice and of a string, as a Go [int]. *)
Definition len {A} (b : list A) : Z := Z.of_nat (length b).
Definition slen (s : string) : Z := Z.of_nat (String.length s).

(** [b[from:]] and [b[:to]]. Go panics when the bound is outside
    [0..len(b)]; every use below is guarded so that it is inside. *)
Definition slice_from {A} (b : list A) (from : Z) : list A := drop (Z.to_nat from) b.
Definition slice_to {A} (b : list A) (to : Z) : list A := take (Z.to_nat to) b.

(** [bytes.IndexByte(b, c)]: index of the first [c] in [b], or [-1]. *)
Fixpoint IndexByte (b : list byte) (c : byte) : Z :=
  match b with
  | [] => -1
  | x :: b' =>
      if Byte.eqb x c then 0
      else let r := IndexByte b' c in
           if r <? 0 then -1 else r + 1
  end.

(** *** UTF-8 decoding, as done by [for i := range s] over a string

    A [range] loop over a Go string does not visit every byte: it decodes
    one UTF-8 code point at a time and yields the index of its first byte.
    An invalid or truncated sequence yields U+FFFD with width 1.
    [DecodeRune] follows [utf8.DecodeRuneInString]. *)

Definition RuneError : Z := 65533.

Definition in_range (lo hi : Z) (b : byte) : bool :=
  (lo <=? byte_val b) && (byte_val b <=? hi).

(** Number of bytes announced by a lead byte together with the range
    accepted for the byte that follows it; [None] for a byte that cannot
    start a multi-byte sequence. *)
Definition lead_info (s0 : byte) : option (nat * (Z * Z)) :=
  let v := byte_val s0 in
  if (194 <=? v) && (v <=? 223) then Some (2%nat, (128, 191))
  else if v =? 224 then Some (3%nat, (160, 191))
  else if (225 <=? v) && (v <=? 236) then Some (3%nat, (128, 191))
  else if v =? 237 then Some (3%nat, (128, 159))
  else if (238 <=? v) && (v <=? 239) then Some (3%nat, (128, 191))
  else if v =? 240 then Some (4%nat, (144, 191))
  else if (241 <=? v) && (v <=? 243) then Some (4%nat, (128, 191))
  else if v =? 244 then Some (4%nat, (128, 143))
  else None.

Definition DecodeRune (s : list byte) : Z * nat :=
  match s with
  | [] => (RuneError, 0%nat)
  | s0 :: tl =>
      if byte_val s0 <? 128 then (byte_val s0, 1%nat)
      else
        match lead_info s0 with
        | None => (RuneError, 1%nat)
        | Some (sz, (lo, hi)) =>
            if (length s <? sz)%nat then (RuneError, 1%nat)
            else
              match tl with
              | s1 :: tl1 =>
                  if negb (in_range lo hi s1) then (RuneError, 1%nat)
                  else if (sz <=? 2)%nat then
                    (Z.lor (Z.shiftl (Z.land (byte_val s0) 31) 6)
                           (Z.land (byte_val s1) 63), 2%nat)
                  else
                    match tl1 with
                    | s2 :: tl2 =>
                        if negb (in_range 128 191 s2) then (RuneError, 1%nat)
                        else if (sz <=? 3)%nat then
                          (Z.lor (Z.lor (Z.shiftl (Z.land (byte_val s0) 15) 12)
                                        (Z.shiftl (Z.land (byte_val s1) 63) 6))
                                 (Z.land (byte_val s2) 63), 3%nat)
                        else
                          match tl2 with
                          | s3 :: _ =>
                              if negb (in_range 128 191 s3) then (RuneError, 1%nat)
                              else
                                (Z.lor (Z.lor (Z.lor
                                   (Z.shiftl (Z.land (byte_val s0) 7) 18)
                                   (Z.shiftl (Z.land (byte_val s1) 63) 12))
                                   (Z.shiftl (Z.land (byte_val s2) 63) 6))
                                   (Z.land (byte_val s3) 63), 4%nat)
                          | [] => (RuneError, 1%nat)
                          end
                    | [] => (RuneError, 1%nat)
                    end
              | [] => (RuneError, 1%nat)
              end
        end
  end.

(** The iterations of [for i, r := range s]: the pairs (index of the first
    byte of the code point, code point), in order. [fuel] bounds the number
    of iterations; [length s] is always enough since every iteration
    consumes at least one byte. *)
Fixpoint range_runes (fuel : nat) (i : Z) (s : list byte) : list (Z * Z) :=
  match fuel, s with
  | O, _ => []
  | _, [] => []
  | S fuel', s0 :: _ =>
      let '(r, w) := DecodeRune s in
      (i, r) :: range_runes fuel' (i + Z.of_nat w) (drop w s)
  end.

Definition range_string (s : string) : list (Z * Z) :=
  let b := list_byte_of_string s in
  range_runes (length b) 0 b.

(** [s[i]] for a string; Go panics out of range, every use below has
    [0 <= i < len(s)]. *)
Definition string_index (s : string) (i : Z) : byte :=
  nth (Z.to_nat i) (list_byte_of_string s) x00.

(** [utf8.AppendRune], used by the conversion [string([]rune)]. *)
Definition EncodeRune (r : Z) : list byte :=
  if (0 <=? r) && (r <=? 127) then [byte_of_Z r]
  else if (0 <=? r) && (r <=? 2047) then
    [byte_of_Z (Z.lor 192 (Z.shiftr r 6));
     byte_of_Z (Z.lor 128 (Z.land r 63))]
  else if (r <? 0) || (1114111 <? r) || ((55296 <=? r) && (r <=? 57343)) then
    [xef; xbf; xbd]
  else if r <=? 65535 then
    [byte_of_Z (Z.lor 224 (Z.shiftr r 12));
     byte_of_Z (Z.lor 128 (Z.land (Z.shiftr r 6) 63));
     byte_of_Z (Z.lor 128 (Z.land r 63))]
  else
    [byte_of_Z (Z.lor 240 (Z.shiftr r 18));
     byte_of_Z (Z.lor 128 (Z.land (Z.shiftr r 12) 63));
     byte_of_Z (Z.lor 128 (Z.land (Z.shiftr r 6) 63));
     byte_of_Z (Z.lor 128 (Z.land r 63))].

Definition string_of_runes (rs : list Z) : string :=
  string_of_list_byte (concat (map EncodeRune rs)).

(** *** Big-endian integers ([encoding/binary]) *)

(** [binary.BigEndian.AppendUint32(b, v)] for [0 <= v < 2^32]. *)
Definition AppendUint32 (b : list byte) (v : Z) : list byte :=
  b ++ [byte_of_Z (Z.shiftr v 24); byte_of_Z (Z.shiftr v 16);
        byte_of_Z (Z.shiftr v 8); byte_of_Z v].

(** [binary.BigEndian.Uint32(b)]; it panics on fewer than 4 bytes, the
    callers check the length first. *)
Definition Uint32 (b : list byte) : Z :=
  match b with
  | b0 :: b1 :: b2 :: b3 :: _ =>
      Z.lor (Z.lor (Z.lor (byte_val b3) (Z.shiftl (byte_val b2) 8))
                   (Z.shiftl (byte_val b1) 16))
            (Z.shiftl (byte_val b0) 24)
  | _ => 0
  end.

Definition AppendUint64 (b : list byte) (v : Z) : list byte :=
  b ++ [byte_of_Z (Z.shiftr v 56); byte_of_Z (Z.shiftr v 48);
        byte_of_Z (Z.shiftr v 40); byte_of_Z (Z.shiftr v 32);
        byte_of_Z (Z.shiftr v 24); byte_of_Z (Z.shiftr v 16);
        byte_of_Z (Z.shiftr v 8); byte_of_Z v].

Definition Uint64 (b : list byte) : Z :=
  match b with
  | b0 :: b1 :: b2 :: b3 :: b4 :: b5 :: b6 :: b7 :: _ =>
      Z.lor (Z.lor (Z.lor (Z.lor (Z.lor (Z.lor (Z.lor
        (byte_val b7) (Z.shiftl (byte_val b6) 8))
        (Z.shiftl (byte_val b5) 16)) (Z.shiftl (byte_val b4) 24))
        (Z.shiftl (byte_val b3) 32)) (Z.shiftl (byte_val b2) 40))
        (Z.shiftl (byte_val b1) 48)) (Z.shiftl (byte_val b0) 56)
  | _ => 0
  end.

(** ** float64 arithmetic and package [time] *)

Module F64.
Definition float64 := spec_float.
Definition prec : Z := 53.
Definition emax : Z := 1024.

Definition add : float64 -> float64 -> float64 := SFadd prec emax.
Definition sub : float64 -> float64 -> float64 := SFsub prec emax.
Definition mul : float64 -> float64 -> float64 := SFmul prec emax.
Definition div : float64 -> float64 -> float64 := SFdiv prec emax.
Definition ltb : float64 -> float64 -> bool := SFltb.
Definition leb : float64 -> float64 -> bool := SFleb.
Definition eqb : float64 -> float64 -> bool := SFeqb.

(** Conversion of an integer to [float64] (round to nearest even). *)
Definition of_Z (z : Z) : float64 := binary_normalize prec emax z 0 false.

(** Conversion of a [float64] to an integer type: the fractional part is
    discarded. Go leaves the result unspecified when the value does not
    fit (NaN, infinities); [0] stands for it here. *)
Definition trunc (f : float64) : Z :=
  match f with
  | S754_finite s m e =>
      let a := match e with
               | Zneg p => Z.shiftr (Zpos m) (Zpos p)
               | _ => Z.shiftl (Zpos m) e
               end in
      if s then - a else a
  | _ => 0
  end.

Definition zero : float64 := S754_zero false.
Definition one : float64 := of_Z 1.

(** [math.Modf] on an argument [>= 1], NaN or infinite: the integer part
    keeps the bits above the binary point, the fraction is the rest. *)
Definition modf_ge1 (f : float64) : float64 * float64 :=
  match f with
  | S754_finite _ _ _ => let i := of_Z (trunc f) in (i, sub f i)
  | _ => (f, sub f f)
  end.

Definition modf_nonneg (f : float64) : float64 * float64 :=
  if ltb f one then
    if eqb f zero then (f, f) else (zero, f)
  else modf_ge1 f.

Definition Modf (f : float64) : float64 * float64 :=
  if ltb f one && ltb f zero then
    let '(i, fr) := modf_nonneg (SFopp f) in (SFopp i, SFopp fr)
  else modf_nonneg f.
End F64.

Module time.
(** A [time.Time] in UTC without monotonic clock reading, as the number of
    nanoseconds between the OSC epoch (1900-01-01T00:00:00Z) and the
    instant; negative before the epoch. *)
Definition Time := Z.
(** A [time.Duration]: an [int64] count of nanoseconds. *)
Definition Duration := Z.

Definition Second : Duration := 1000000000.
Definition minDuration : Duration := - 2 ^ 63.
Definition maxDuration : Duration := 2 ^ 63 - 1.

(** [t.Sub(u)]: the difference, saturated to the range of [Duration]. *)
Definition Sub (t u : Time) : Duration :=
  let d := t - u in
  if d <? minDuration then minDuration
  else if maxDuration <? d then maxDuration
  else d.

Definition Add (t : Time) (d : Duration) : Time := t + d.

(** [d.Seconds()]. *)
Definition Seconds (d : Duration) : F64.float64 :=
  let sec := Z.quot d Second in
  let nsec := Z.rem d Second in
  F64.add (F64.of_Z sec) (F64.div (F64.of_Z nsec) (F64.of_Z 1000000000)).
End time.

(** [epoch] is the starting point for TimeTags. *)
Definition epoch : time.Time := 0.

(** ** message.go: the Argument codec *)

(** The zero [time.Time] (January 1, year 1, 00:00:00 UTC), the value held
    by [new(TimeTag)] before [Consume] fills it in: 693595 days before the
    epoch. *)
Definition zeroTime : time.Time := - (693595 * 86400 * 1000000000).

(** The implementations of the interface [Argument]. An [Int32] holds an
    [int32]; a [Float32] holds a [float32], kept as its IEEE-754 bit pattern
    (a [uint32]), which is all that [math.Float32bits] and
    [math.Float32frombits] observe. *)
Inductive Argument : Type :=
| Int32 (i : Z)
| Float32 (bits : Z)
| String_ (s : string)
| TimeTag (t : time.Time)
| True_
| False_
| Null
| Impulse.

(** The values that an [int32] and a [uint32] can hold. *)
Definition int32_range (i : Z) : Prop := - 2 ^ 31 <= i < 2 ^ 31.
Definition uint32_range (u : Z) : Prop := 0 <= u < 2 ^ 32.

(** Conversions [uint32(i)] of an [int32] and [int32(u)] of a [uint32]. *)
Definition uint32_of_int32 (i : Z) : Z := i mod 2 ^ 32.
Definition int32_of_uint32 (u : Z) : Z := if u <? 2 ^ 31 then u else u - 2 ^ 32.

Definition comma : Z := 44.

Definition TypeTag_of (a : Argument) : Z :=
  match a with
  | Int32 _ => 105      (* 'i' *)
  | Float32 _ => 102    (* 'f' *)
  | String_ _ => 115    (* 's' *)
  | TimeTag _ => 116    (* 't' *)
  | True_ => 84         (* 'T' *)
  | False_ => 70        (* 'F' *)
  | Null => 78          (* 'N' *)
  | Impulse => 73       (* 'I' *)
  end.

Definition Int32_Append (i : Z) (b : list byte) : list byte :=
  AppendUint32 b (uint32_of_int32 i).

Definition Int32_Consume (b : list byte) : result (Z * list byte) :=
  if len b <? 4 then Err (Errorf "expect int32, only %d bytes")
  else
    let u := Uint32 b in
    Ok (int32_of_uint32 u, slice_from b 4).

Definition Float32_Append (bits : Z) (b : list byte) : list byte :=
  AppendUint32 b bits.

Definition Float32_Consume (b : list byte) : result (Z * list byte) :=
  if len b <? 4 then Err (Errorf "expect float32, only %d bytes")
  else
    let u := Uint32 b in
    Ok (u, slice_from b 4).

(** The loop [for len(b)%4 > 0 { b = append(b, 0) }]. It runs at most three
    times ([pad_loop_exit] below: with fuel 3 the loop always leaves through
    its condition). *)
Fixpoint pad_loop (fuel : nat) (b : list byte) : list byte :=
  match fuel with
  | O => b
  | S fuel' =>
      if len b mod 4 >? 0 then pad_loop fuel' (b ++ [x00]) else b
  end.

(** [for i := range s { b = append(b, s[i]) }]: [i] runs over the indices
    at which a UTF-8 code point of [s] starts. *)
Definition append_range (s : string) (b : list byte) : list byte :=
  fold_left (fun b ir => b ++ [string_index s (fst ir)]) (range_string s) b.

Definition String_Append (s : string) (b : list byte) : list byte :=
  let b := append_range s b in
  let b := b ++ [x00] in
  pad_loop 3 b.

Definition String_Consume (b : list byte) : result (string * list byte) :=
  let end_ := IndexByte b x00 in
  if end_ <? 0 then Err (Errorf "no termination in string %q")
  else
    let s := string_of_list_byte (slice_to b end_) in
    let end_ := Z.min (end_ + 4 - end_ mod 4) (len b) in
    Ok (s, slice_from b end_).

Definition stepsPerSecond : F64.float64 := F64.of_Z (Z.shiftl 1 32).

Definition TimeTag_Append (t : time.Time) (b : list byte) : list byte :=
  let seconds := time.Seconds (time.Sub t epoch) in
  if F64.leb seconds F64.zero then
    b ++ [x00; x00; x00; x00; x00; x00; x00; x00]
  else
    let '(base, frac) := F64.Modf seconds in
    let out := ((Z.shiftl (F64.trunc base) 32) mod 2 ^ 64
                + F64.trunc (F64.mul frac stepsPerSecond)) mod 2 ^ 64 in
    AppendUint64 b out.

Definition TimeTag_Consume (b : list byte) : result (time.Time * list byte) :=
  if len b <? 8 then Err (Errorf "expected timetag (8 bytes), only %d bytes")
  else
    let raw := Uint64 b in
    let seconds := F64.of_Z (Z.shiftr raw 32) in
    let seconds :=
      F64.add seconds (F64.div (F64.of_Z (Z.land raw 4294967295))
                               (F64.of_Z (Z.shiftl 1 32))) in
    let t := time.Add epoch (F64.trunc (F64.mul seconds (F64.of_Z time.Second))) in
    Ok (t, slice_from b 8).

(** Method dispatch through the interface. *)
Definition Append (a : Argument) (b : list byte) : list byte :=
  match a with
  | Int32 i => Int32_Append i b
  | Float32 f => Float32_Append f b
  | String_ s => String_Append s b
  | TimeTag t => TimeTag_Append t b
  | True_ | False_ | Null | Impulse => b
  end.

(** [a.Consume(b)] fills the receiver in; the model returns the filled
    receiver together with the remainder. *)
Definition Consume (a : Argument) (b : list byte) : result (Argument * list byte) :=
  match a with
  | Int32 _ => rbind (Int32_Consume b) (fun '(i, r) => Ok (Int32 i, r))
  | Float32 _ => rbind (Float32_Consume b) (fun '(f, r) => Ok (Float32 f, r))
  | String_ _ => rbind (String_Consume b) (fun '(s, r) => Ok (String_ s, r))
  | TimeTag _ => rbind (TimeTag_Consume b) (fun '(t, r) => Ok (TimeTag t, r))
  | True_ | False_ | Null | Impulse => Ok (a, b)
  end.

(** [newByTypeTag]: the constructors of the known types, by type tag. *)
Definition newByTypeTag (t : Z) : option Argument :=
  if t =? 105 then Some (Int32 0)
  else if t =? 102 then Some (Float32 0)
  else if t =? 115 then Some (String_ "")
  else if t =? 116 then Some (TimeTag zeroTime)
  else if t =? 84 then Some True_
  else if t =? 70 then Some False_
  else if t =? 78 then Some Null
  else if t =? 73 then Some Impulse
  else None.

(** ** message.go: the Message codec *)

Record Message : Type := mkMessage {
  Pattern_ : string;
  Arguments_ : list Argument
}.

(** The loop of [ParseMessage] over the code points of [tt[1:]]. The
    iteration stops at the first code point that is not a registered tag;
    the registered tags are single bytes, so in every iteration that is
    reached the index [i] is the number of arguments decoded so far and
    [args[i] = a] fills the next free slot: [args] is built by appending. *)
Fixpoint parse_args (tags : list (Z * Z)) (buf : list byte) (args : list Argument)
  : result (list Argument) :=
  match tags with
  | [] => Ok args
  | (i, t) :: tags' =>
      match newByTypeTag t with
      | None => Err (Errorf "unknown type tag %c")
      | Some a =>
          rbind (wrap "reading argument %d (%c): %w" (Consume a buf))
                (fun '(a', buf') => parse_args tags' buf' (args ++ [a']))
      end
  end.

Definition string_tail (s : string) : string :=
  match s with
  | EmptyString => EmptyString
  | String.String _ s' => s'
  end.

Definition ParseMessage (buf : list byte) : result Message :=
  rbind (wrap "reading address pattern: %w" (String_Consume buf)) (fun '(addr, buf) =>
  rbind (wrap "reading type tag: %w" (String_Consume buf)) (fun '(tags, buf) =>
  if (slen tags =? 0) || negb (Byte.eqb (string_index tags 0) x2c) then
    Err (Errorf "invalid type tag string: %q")
  else
    rbind (parse_args (range_string (string_tail tags)) buf [])
          (fun args => Ok (mkMessage addr args)))).

Definition Message_Append (m : Message) (b : list byte) : list byte :=
  let addr := Pattern_ m in
  let b := String_Append addr b in
  let typeTag := fold_left (fun tags a => tags ++ [TypeTag_of a]) (Arguments_ m) [comma] in
  let tags := string_of_runes typeTag in
  let b := String_Append tags b in
  fold_left (fun b a => Append a b) (Arguments_ m) b.

(** ** pattern.go: the address-pattern engine *)

(** [matchResult] is a bit mask. [noMatch] is the first constant of the
    block (iota 0), so the three flags are [1 << 1], [1 << 2], [1 << 3]. *)
Definition matchResult := Z.
Definition noMatch : matchResult := 0.
Definition matchAdvanceBoth : matchResult := Z.shiftl 1 1.
Definition matchAdvanceMatcher : matchResult := Z.shiftl 1 2.
Definition matchAdvanceInput : matchResult := Z.shiftl 1 3.

(** [charClass]: [chars] is the array [[256]bool], indexed by a byte. *)
Record charClass : Type := mkCharClass {
  chars : list bool;
  invert : bool
}.

(** The implementations of the interface [matcher]. *)
Inductive matcher : Type :=
| charMatcher (c : byte)
| wildcard (single : bool)
| classMatcher (cc : charClass).

Definition byte_index (b : byte) : nat := Z.to_nat (byte_val b).

Definition charMatcher_match (c : byte) (b : byte) : matchResult :=
  if Byte.eqb c b then matchAdvanceBoth else noMatch.

Definition wildcard_match (single : bool) (b : byte) : matchResult :=
  if single then matchAdvanceBoth
  else Z.lor (Z.lor matchAdvanceBoth matchAdvanceMatcher) matchAdvanceInput.

Definition charClass_match (cc : charClass) (b : byte) : matchResult :=
  if negb (eqb (chars cc !!! byte_index b) (invert cc)) then matchAdvanceBoth
  else noMatch.

Definition matcher_match (m : matcher) (b : byte) : matchResult :=
  match m with
  | charMatcher c => charMatcher_match c b
  | wildcard single => wildcard_match single b
  | classMatcher cc => charClass_match cc b
  end.

Record matchState : Type := mkState {
  matchers : list matcher;
  s : string
}.

(** The loop of [matchState.match] on exhausted input: every remaining
    matcher must be a [wildcard] that is not [single]. *)
Fixpoint only_multi (ms : list matcher) : bool :=
  match ms with
  | [] => true
  | wildcard single :: ms' => if single then false else only_multi ms'
  | _ :: _ => false
  end.

Definition matchState_match (m : matchState) : list matchState * bool :=
  match s m with
  | EmptyString => ([], only_multi (matchers m))
  | String.String c rest =>
      match matchers m with
      | [] => ([], false)
      | m0 :: ms =>
          let results := matcher_match m0 (byte_of_ascii c) in
          if results =? noMatch then ([], false)
          else
            let next := [] in
            let next :=
              if negb (Z.land results matchAdvanceBoth =? 0)
              then next ++ [mkState ms rest] else next in
            let next :=
              if negb (Z.land results matchAdvanceMatcher =? 0)
              then next ++ [mkState ms (s m)] else next in
            let next :=
              if negb (Z.land results matchAdvanceInput =? 0)
              then next ++ [mkState (matchers m) rest] else next in
            (next, false)
      end
  end.

Definition Pattern := list matcher.

(** The body of the loop of [Pattern.Match]: [states] is a stack whose top
    is its last element. [inr b] when the function returns [b], [inl] the
    stack of the next iteration otherwise. *)
Definition Match_step (states : list matchState) : list matchState + bool :=
  match last states with
  | None => inr false
  | Some st =>
      let states := removelast states in
      let '(next, accept) := matchState_match st in
      if accept then inr true
      else inl (states ++ next)
  end.

(** The loop itself, run for at most [2 ^ depth] iterations. *)
Fixpoint Match_iter (depth : nat) (states : list matchState)
  : list matchState + bool :=
  match depth with
  | O => Match_step states
  | S depth' =>
      match Match_iter depth' states with
      | inr b => inr b
      | inl states' => Match_iter depth' states'
      end
  end.

(** A bound on the number of iterations started from a state: every state
    pushed has one matcher or one input byte less than the state popped,
    and at most three are pushed. *)
Definition state_size (st : matchState) : nat :=
  (length (matchers st) + String.length (s st))%nat.
Definition state_cost (st : matchState) : nat := (4 ^ state_size st)%nat.
Definition stack_cost (states : list matchState) : nat :=
  fold_right (fun st n => (state_cost st + n)%nat) 0%nat states.

(** [Pattern.Match]. The depth allows more than [4 ^ state_size] iterations,
    which the loop never needs ([Pattern_Match_returns] below). *)
Definition Pattern_Match (pat : Pattern) (input : string) : bool :=
  let states := [mkState pat input] in
  match Match_iter (S (2 * state_size (mkState pat input))) states with
  | inr b => b
  | inl _ => false
  end.

(** [strings.IndexByte(s, c)]. *)
Definition string_IndexByte (str : string) (c : byte) : Z :=
  IndexByte (list_byte_of_string str) c.

(** [s[i]] with the bounds check of the language. *)
Definition string_at (str : string) (i : Z) : option byte :=
  if (0 <=? i) && (i <? slen str) then Some (string_index str i) else None.

(** [s[from:]] for a string. *)
Definition string_from (str : string) (from : Z) : string :=
  string_of_list_byte (slice_from (list_byte_of_string str) from).

Definition set_char (cs : list bool) (b : Z) : list bool :=
  <[Z.to_nat b := true]> cs.

(** [for d := s[i-1]; d < next; d++ { cc.chars[d] = true }]; at most 255
    iterations since [next] is a byte. *)
Fixpoint fill_range (fuel : nat) (d next : Z) (cs : list bool) : list bool :=
  match fuel with
  | O => cs
  | S fuel' =>
      if d <? next then fill_range fuel' (d + 1) next (set_char cs d) else cs
  end.

(** [for i := 0; i < end; i++ { ... }] of [parseCharClass]; [fuel] is the
    number of iterations left, [end - i]. *)
Fixpoint class_loop (fuel : nat) (i end_ : Z) (str : string) (cs : list bool)
  : result (list bool) :=
  match fuel with
  | O => Ok cs
  | S fuel' =>
      if i <? end_ then
        let c := string_index str i in
        if Byte.eqb c x2d && ((i >? 0) && (i + 1 <? end_)) then
          let next := string_index str (i + 1) in
          let prev := string_index str (i - 1) in
          if byte_val next <? byte_val prev then
            Err (Errorf "invalid range %c-%c, %c<%c")
          else
            class_loop fuel' (i + 1) end_ str
                       (fill_range 256 (byte_val prev) (byte_val next) cs)
        else
          class_loop fuel' (i + 1) end_ str (set_char cs (byte_val c))
      else Ok cs
  end.

Definition zero_chars : list bool := replicate 256 false.

Definition parseCharClass (str : string) : result (charClass * string) :=
  match str with
  | String.String "["%char str =>
      if slen str =? 0 then Err (Errorf "expect character class, got EOF")
      else
        let '(str, inv) :=
          if Byte.eqb (string_index str 0) x21
          then (string_from str 1, true) else (str, false) in
        let end_ := string_IndexByte str x5d in
        if end_ <? 0 then Err (Errorf "expect %q somewhere, got: %q")
        else
          rbind (class_loop (Z.to_nat end_) 0 end_ str zero_chars) (fun cs =>
          Ok (mkCharClass cs inv, string_from str (end_ + 1)))
  | _ => Err (Errorf "expect %q, got: %q")
  end.

Definition parseMatcher (str : string) : result (matcher * string) :=
  if negb (slen str =? 0) then Err (Errorf "unexpected end of input")
  else
    match string_at str 0 with
    | None => Panic "index out of range [0] with length 0"
    | Some c =>
        if Byte.eqb c x5b then
          rbind (parseCharClass str) (fun '(cc, rest) => Ok (classMatcher cc, rest))
        else if Byte.eqb c x2a then Ok (wildcard false, string_from str 1)
        else if Byte.eqb c x3f then Ok (wildcard true, string_from str 1)
        else Ok (charMatcher c, string_from str 1)
    end.

(** ** server.go: the dispatch listener *)

(** A [Handler]: what [Handle(msg)] returns ([None] is the nil error). *)
Definition Handler := Message -> option error.

Record handler : Type := mkHandler {
  p : string;
  h : Handler
}.

(** What a run of the listener does that can be observed: the calls of
    [Handle] (by index in the handler table) and the lines logged. *)
Inductive event : Type :=
| Handled (i : nat) (msg : Message)
| Logged (format : string).

Record Listener : Type := mkListener {
  handlers : list handler;
  workers : Z
}.

(** [NewListener] and [Listener.Handle] (registration). *)
Definition NewListener (workers : Z) : Listener := mkListener [] workers.
Definition Listener_Handle (l : Listener) (pattern : string) (hd : Handler) : Listener :=
  mkListener (handlers l ++ [mkHandler pattern hd]) (workers l).

(** The state shared by the tasks of [Serve]: the buffered channel [recv]
    (capacity 100) of [*osc.Message], where [None] is the nil pointer; the
    error of the group context once it is cancelled; the events so far. *)
Record Serving : Type := mkServing {
  recv : list (option Message);
  ctx_err : option error;
  trace : list event
}.

Definition recv_cap : Z := 100.

Inductive outcome : Type :=
| Running (st : Serving)
| Blocked (st : Serving)
| Returned (e : error) (st : Serving)
| Crashed (reason : string) (st : Serving).

(** One result of [l.conn.ReadFrom(buf)]: [n] bytes [buf[:n]] and an error. *)
Record ReadFrom : Type := mkRead {
  n : Z;
  data : list byte;
  read_err : option error
}.

Definition log (format : string) (st : Serving) : Serving :=
  mkServing (recv st) (ctx_err st) (trace st ++ [Logged format]).

Section Dispatch.

(** [ParsePattern] is called by [Listener.handle] but its definition is
    not among the sources: it is a parameter of the listener. *)
Variable ParsePattern : string -> result Pattern.

(** [for _, m := range l.handlers { ... }] of [Listener.handle]. *)
Fixpoint handle_loop (pattern : Pattern) (msg : Message) (i : nat)
         (hs : list handler) (tr : list event) : list event :=
  match hs with
  | [] => tr
  | m :: hs' =>
      let tr :=
        if Pattern_Match pattern (p m) then
          let tr := tr ++ [Handled i msg] in
          match h m msg with
          | Some err => tr ++ [Logged "Error from handler %q: %v (message: %v)"]
          | None => tr
          end
        else tr in
      handle_loop pattern msg (S i) hs' tr
  end.

(** [Listener.handle(msg)]; [msg] is a pointer, dereferenced by
    [msg.Pattern]. *)
Definition handle (l : Listener) (msg : option Message) (tr : list event)
  : list event * result unit :=
  match msg with
  | None => (tr, Panic "invalid memory address or nil pointer dereference")
  | Some m =>
      match ParsePattern (Pattern_ m) with
      | Ok pattern => (handle_loop pattern m 0 (handlers l) tr, Ok tt)
      | Err e => (tr, Err e)
      | Panic r => (tr, Panic r)
      end
  end.

(** One iteration of the loop of the decoding task of [Serve]. When both
    cases of the [select] are ready, [pick_chan] tells which one runs. *)
Definition decode_iter (rd : ReadFrom) (pick_chan : bool) (st : Serving) : outcome :=
  let after_send (st : Serving) : outcome :=
    match read_err rd with
    | Some e => Returned e st
    | None => Running st
    end in
  if n rd >? 0 then
    let '(msg, st) :=
      match ParseMessage (data rd) with
      | Ok m => (Some m, st)
      | _ => (None, log "Received invalid message from %v: %v" st)
      end in
    let can_send := len (recv st) <? recv_cap in
    match ctx_err st with
    | None =>
        if can_send
        then after_send (mkServing (recv st ++ [msg]) (ctx_err st) (trace st))
        else Blocked st
    | Some ce =>
        if can_send && pick_chan
        then after_send (mkServing (recv st ++ [msg]) (ctx_err st) (trace st))
        else Returned ce st
    end
  else after_send st.

(** One iteration of the loop of a worker task of [Serve]. *)
Definition worker_iter (l : Listener) (pick_chan : bool) (st : Serving) : outcome :=
  let work (msg : option Message) (rest : list (option Message)) : outcome :=
    let '(tr, r) := handle l msg (trace st) in
    let st := mkServing rest (ctx_err st) tr in
    match r with
    | Ok _ => Running st
    | Err _ => Running (log "Error handling message: %v (message: %v)" st)
    | Panic reason => Crashed reason st
    end in
  match ctx_err st, recv st with
  | None, [] => Blocked st
  | None, msg :: rest => work msg rest
  | Some ce, [] => Returned ce st
  | Some ce, msg :: rest => if pick_chan then work msg rest else Returned ce st
  end.

End Dispatch.

(** The behaviour that the specification gives to the compilation of one
    matcher (4.3): it fails on exhausted input and otherwise selects the
    matcher from the first byte. It is the reference [parseMatcher] is
    compared with. *)
Definition parseMatcher_spec (str : string) : result (matcher * string) :=
  match string_at str 0 with
  | None => Err (Errorf "unexpected end of input")
  | Some c =>
      if Byte.eqb c x5b then
        rbind (parseCharClass str) (fun '(cc, rest) => Ok (classMatcher cc, rest))
      else if Byte.eqb c x2a then Ok (wildcard false, string_from str 1)
      else if Byte.eqb c x3f then Ok (wildcard true, string_from str 1)
      else Ok (charMatcher c, string_from str 1)
  end.

(** Modelled from the spec: [ParsePattern] is missing from the sources. The
    specification (4.3) has the compilation consume the pattern text left to
    right, one matcher at a time, until the text is exhausted, and fail when
    a matcher fails to parse. [pm] is the parser of one matcher. *)
Fixpoint ParsePattern_loop (pm : string -> result (matcher * string))
         (fuel : nat) (str : string) (acc : Pattern) : result Pattern :=
  match fuel with
  | O => Ok acc
  | S fuel' =>
      match str with
      | EmptyString => Ok acc
      | _ => rbind (pm str) (fun '(m, rest) => ParsePattern_loop pm fuel' rest (acc ++ [m]))
      end
  end.

Definition ParsePattern_with (pm : string -> result (matcher * string))
           (str : string) : result Pattern :=
  ParsePattern_loop pm (String.length str) str [].

(** ** Predicates used by the statements *)

(** A string made of ASCII bytes other than NUL (1..127): what the type
    [String] documents itself to hold ("an ASCII string", NUL-terminated
    on the wire). *)
Definition ascii_byte (b : byte) : Prop := 0 < byte_val b < 128.
Definition ascii_text (str : string) : Prop :=
  Forall ascii_byte (list_byte_of_string str).

(** A TimeTag that the codec gives back: decoding the eight bytes that
    [Append] produces yields the same instant. This is a property of the
    codec at [t], used as the premise of the theorems on framing; it is
    not a description of a class of instants. *)
Definition timetag_exact (t : time.Time) : Prop :=
  TimeTag_Consume (TimeTag_Append t []) = Ok (t, []).

(** The Argument values that survive the wire. *)
Definition wire_exact (a : Argument) : Prop :=
  match a with
  | Int32 i => int32_range i
  | Float32 bits => uint32_range bits
  | String_ str => ascii_text str
  | TimeTag t => timetag_exact t
  | True_ | False_ | Null | Impulse => True
  end.

(** A TimeTag a whole number of seconds after the epoch, the number of
    seconds fitting the 32 bits that the wire form has for it. *)
Definition whole_seconds (t : time.Time) : Prop :=
  exists n : Z, 0 <= n < 2 ^ 32 /\ t = time.Add epoch (n * time.Second).

(** The Argument values of the round-trip theorems, each class given by
    the value alone: 32-bit integers and bit patterns, non-NUL ASCII
    strings, TimeTags a whole number of seconds after the epoch, and the
    markers. *)
Definition wire_value (a : Argument) : Prop :=
  match a with
  | Int32 i => int32_range i
  | Float32 bits => uint32_range bits
  | String_ str => ascii_text str
  | TimeTag t => whole_seconds t
  | True_ | False_ | Null | Impulse => True
  end.

(** [i] is the index of the first [c] of [b]. *)
Definition first_index (b : list byte) (c : byte) (i : Z) : Prop :=
  0 <= i /\ b !! Z.to_nat i = Some c /\
  forall j : nat, (j < Z.to_nat i)%nat -> b !! j <> Some c.

(** The calls of [Handle] recorded in a trace, and the lines logged. *)
Definition calls (tr : list event) : list (nat * Message) :=
  omap (fun e => match e with Handled i m => Some (i, m) | Logged _ => None end) tr.
Definition logged (tr : list event) : list string :=
  omap (fun e => match e with Logged f => Some f | Handled _ _ => None end) tr.

(** Inputs used by the counterexamples: a string with an inner NUL, the
    same followed by more text, and the two-byte UTF-8 encoding of U+00E9. *)
Definition text_with_nul : string :=
  String.String "a" (String.String "000" (String.String "b" EmptyString)).
Definition long_text_with_nul : string :=
  String.String "a" (String.String "000" "bcd").
Definition text_e_acute : string :=
  String.String "195" (String.String "169" EmptyString).

(** The concatenated encodings of the arguments of a message, and the byte
    that stands for an argument in the type-tag string synthesised by
    [Message.Append]. *)
Definition encode_args (args : list Argument) : list byte :=
  concat (map (fun a => Append a []) args).
Definition tag_byte (a : Argument) : byte := byte_of_Z (TypeTag_of a).

(** The bytes ['a'] to ['e']. *)
Definition is_a_to_e (b : byte) : bool :=
  match b with
  | x61 | x62 | x63 | x64 | x65 => true
  | _ => false
  end.

(** The handler table with the index of every entry, and the entries whose
    registered text a pattern matches. *)
Fixpoint indexed {A} (i : nat) (l : list A) : list (nat * A) :=
  match l with
  | [] => []
  | x :: l' => (i, x) :: indexed (S i) l'
  end.

Definition matching (pattern : Pattern) (hs : list (nat * handler))
  : list (nat * handler) :=
  List.filter (fun ih => Pattern_Match pattern (p (snd ih))) hs.

Definition failing (msg : Message) (hs : list (nat * handler))
  : list (nat * handler) :=
  List.filter (fun ih => match h (snd ih) msg with Some _ => true | None => false end) hs.

Definition handler_error_line : string := "Error from handler %q: %v (message: %v)".
Definition invalid_message_line : string := "Received invalid message from %v: %v".

(** A listener with three handlers, the first of which fails, and a message
    addressed to "/test/*". *)
Definition demo_listener : Listener :=
  Listener_Handle
    (Listener_Handle
       (Listener_Handle (NewListener 1)
          "/test/a" (fun _ => Some (Errorf "handler failed")))
       "/test" (fun _ => None))
    "/test/b" (fun _ => None).

Definition demo_message : Message := mkMessage "/test/*" [Int32 12].

(** A one-byte datagram without NUL terminator, read without error, and the
    state of a listener that has just started. *)
Definition undecodable : ReadFrom := mkRead 1 [x61] None.
Definition started : Serving := mkServing [] None [].
Definition nil_dereference : string := "invalid memory address or nil pointer dereference".

(** [shl k q] is the positive [q] followed by [k] zero bits: the shape of
    the mantissas that the exact [float64] computations go through. *)
Definition shl (k : nat) (q : positive) : positive := Nat.iter k xO q.

(** ** The language of a pattern

    What a compiled pattern means, independently of the search that
    [Pattern.Match] runs: a literal stands for its byte, [?] for any one
    byte, a class for any one byte it holds (any it does not hold, when
    inverted), [*] for any text, and a sequence of matchers for the
    concatenations of the texts of its matchers. *)
Definition class_has (cc : charClass) (b : byte) : bool :=
  xorb (chars cc !!! byte_index b) (invert cc).

Definition matcher_lang (m : matcher) (str : string) : Prop :=
  match m with
  | charMatcher c => str = String.String (ascii_of_byte c) EmptyString
  | wildcard true => String.length str = 1%nat
  | wildcard false => True
  | classMatcher cc =>
      exists c, str = String.String c EmptyString /\
                class_has cc (byte_of_ascii c) = true
  end.

Fixpoint denotes (ms : list matcher) (str : string) : Prop :=
  match ms with
  | [] => str = EmptyString
  | m :: ms' =>
      exists s1 s2 : string,
        str = String.append s1 s2 /\ matcher_lang m s1 /\ denotes ms' s2
  end.

(** Some state of the stack leads to acceptance. *)
Definition some_accepts (states : list matchState) : Prop :=
  exists st, st ∈ states /\ denotes (matchers st) (s st).

(** The pattern made of the literal bytes of a text. *)
Definition literal (text : string) : Pattern :=
  map charMatcher (list_byte_of_string text).

(** A [float64] that is a zero, a finite number or an infinity of sign [sx],
    and a [float64] that is zero or negative. *)
Definition signed (sx : bool) (f : F64.float64) : Prop :=
  f = S754_zero sx \/ (exists m e, f = S754_finite sx m e) \/ f = S754_infinity sx.
Definition nonpos (f : F64.float64) : Prop := signed true f \/ f = S754_zero false.

(** Eight zero bytes: the encoding of the epoch. *)
Definition zero_timetag : list byte := [x00; x00; x00; x00; x00; x00; x00; x00].

(** The state in which a step leaves the listener. *)
Definition outcome_state (o : outcome) : Serving :=
  match o with
  | Running st | Blocked st | Returned _ st | Crashed _ st => st
  end.

(** The handlers, with their index, registered under exactly a given text. *)
Definition registered_as (text : string) (hs : list (nat * handler))
  : list (nat * handler) :=
  List.filter (fun ih => String.eqb (p (snd ih)) text) hs.

(** A listener with a handler registered under a pattern text and one
    under a plain address, and a message sent to that address. *)
Definition glob_listener : Listener :=
  Listener_Handle
    (Listener_Handle (NewListener 1) "/test/*" (fun _ => None))
    "/test/a" (fun _ => None).
Definition plain_message : Message := mkMessage "/test/a" [].

(** ** The text of a character class

    [body] is the text between the brackets (after the [!] of an inverted
    class). A hyphen that is neither the first nor the last byte of [body]
    stands for the range from the byte before it up to, but not including,
    the byte after it (which stands for itself at its own position); every
    other byte stands for itself. *)
Definition hyphen_range (body : list byte) (i : nat) : option (byte * byte) :=
  match body !! i with
  | Some c =>
      if Byte.eqb c x2d && (0 <? i)%nat && (S i <? length body)%nat then
        match body !! (i - 1)%nat, body !! S i with
        | Some lo, Some hi => Some (lo, hi)
        | _, _ => None
        end
      else None
  | None => None
  end.

(** The byte [b] is brought into the class by position [i] of [body]. *)
Definition position_covers (body : list byte) (i : nat) (b : byte) : Prop :=
  exists c, body !! i = Some c /\
    match hyphen_range body i with
    | Some (lo, hi) => byte_val lo <= byte_val b < byte_val hi
    | None => b = c
    end.

Definition class_member (body : list byte) (b : byte) : Prop :=
  exists i, position_covers body i b.

(** A range whose upper bound is below its lower bound. *)
Definition inverted_range (body : list byte) (i : nat) : Prop :=
  exists lo hi, hyphen_range body i = Some (lo, hi) /\ byte_val hi < byte_val lo.

(** The text of a class: [[], an optional [!], the body, []], and what
    follows the class. *)
Definition class_text (inv : bool) (body rest : list byte) : string :=
  string_of_list_byte
    (x5b :: (if inv then [x21] else []) ++ body ++ x5d :: rest).

(** ** Printing a character class

    [charClass.String]: between brackets, after [!] for an inverted class,
    the members in increasing order, each written with the verb [%c] of
    its index, that is as the UTF-8 encoding of that code point. *)
Fixpoint members_from (i : Z) (cs : list bool) : list byte :=
  match cs with
  | [] => []
  | ok :: cs' => (if ok then EncodeRune i else []) ++ members_from (i + 1) cs'
  end.

Definition charClass_String (cc : charClass) : string :=
  string_of_list_byte
    (x5b :: (if invert cc then [x21] else []) ++ members_from 0 (chars cc) ++ [x5d]).

(** A class that holds only ASCII bytes other than the closing bracket,
    the hyphen and the exclamation mark. *)
Definition plain_class (cc : charClass) : Prop :=
  length (chars cc) = 256%nat /\
  forall b, chars cc !!! byte_index b = true ->
            byte_val b < 128 /\ b <> x5d /\ b <> x2d /\ b <> x21.

(** * Properties *)

(** ** Bytes and big-endian integers *)

Lemma byte_val_range (b : byte) : 0 <= byte_val b < 256.
Proof.
  unfold byte_val. pose proof (Byte.to_N_bounded b). lia.
Qed.

Lemma byte_of_Z_val (b : byte) : byte_of_Z (byte_val b) = b.
Proof.
  unfold byte_of_Z. pose proof (byte_val_range b) as Hr.
  rewrite Z.mod_small by lia. unfold byte_val.
  rewrite N2Z.id, Byte.of_to_N. reflexivity.
Qed.

Lemma byte_val_of_Z (z : Z) : byte_val (byte_of_Z z) = z mod 256.
Proof.
  unfold byte_of_Z, byte_val.
  pose proof (Z.mod_pos_bound z 256 ltac:(lia)) as Hm.
  destruct (Byte.of_N (Z.to_N (z mod 256))) as [b|] eqn:E.
  - apply Byte.to_of_N in E. rewrite E. lia.
  - apply Byte.of_N_None_iff in E. lia.
Qed.

Lemma byte_val_inj (a b : byte) : byte_val a = byte_val b -> a = b.
Proof.
  intros E. rewrite <- (byte_of_Z_val a), <- (byte_of_Z_val b). now rewrite E.
Qed.

Lemma len_app {A} (a b : list A) : len (a ++ b) = len a + len b.
Proof. unfold len. rewrite length_app. lia. Qed.

Lemma len_nonneg {A} (a : list A) : 0 <= len a.
Proof. unfold len. lia. Qed.

Lemma testbit_byte (z i : Z) :
  Z.testbit (z mod 256) i = (i <? 8) && Z.testbit z i.
Proof. change 256 with (2 ^ 8). apply Z.testbit_mod_pow2. lia. Qed.

Lemma Uint32_AppendUint32 (v : Z) (rest : list byte) :
  uint32_range v -> Uint32 (AppendUint32 [] v ++ rest) = v.
Proof.
  intros Hv. unfold AppendUint32, Uint32. simpl.
  rewrite !byte_val_of_Z.
  rewrite <- (Z.mod_small v (2 ^ 32)) at 5 by exact Hv.
  apply Z.bits_inj'. intros i Hi.
  rewrite !Z.lor_spec, (Z.testbit_mod_pow2 v 32 i) by lia.
  rewrite !Z.shiftl_spec by lia.
  rewrite !testbit_byte.
  assert (i < 8 \/ 8 <= i < 16 \/ 16 <= i < 24 \/ 24 <= i < 32 \/ 32 <= i)
    as [H|[H|[H|[H|H]]]] by lia.
  all: rewrite ?Z.shiftr_spec by lia.
  all: rewrite ?(Z.testbit_neg_r _ (i - 8)), ?(Z.testbit_neg_r _ (i - 16)),
            ?(Z.testbit_neg_r _ (i - 24)) by lia.
  all: repeat match goal with
         | |- context [ ?a <? ?b ] => destruct (Z.ltb_spec a b); try lia
         end.
  all: simpl; rewrite ?orb_false_r.
  all: try reflexivity.
  all: try (f_equal; lia).
Qed.

Lemma Uint64_AppendUint64 (v : Z) (rest : list byte) :
  0 <= v < 2 ^ 64 -> Uint64 (AppendUint64 [] v ++ rest) = v.
Proof.
  intros Hv. unfold AppendUint64, Uint64. simpl.
  rewrite !byte_val_of_Z.
  rewrite <- (Z.mod_small v (2 ^ 64)) at 9 by exact Hv.
  apply Z.bits_inj'. intros i Hi.
  rewrite !Z.lor_spec, (Z.testbit_mod_pow2 v 64 i) by lia.
  rewrite !Z.shiftl_spec by lia.
  rewrite !testbit_byte.
  assert (i < 8 \/ 8 <= i < 16 \/ 16 <= i < 24 \/ 24 <= i < 32 \/
          32 <= i < 40 \/ 40 <= i < 48 \/ 48 <= i < 56 \/ 56 <= i < 64 \/ 64 <= i)
    as [H|[H|[H|[H|[H|[H|[H|[H|H]]]]]]]] by lia.
  all: rewrite ?Z.shiftr_spec by lia.
  all: rewrite ?(Z.testbit_neg_r _ (i - 8)), ?(Z.testbit_neg_r _ (i - 16)),
            ?(Z.testbit_neg_r _ (i - 24)), ?(Z.testbit_neg_r _ (i - 32)),
            ?(Z.testbit_neg_r _ (i - 40)), ?(Z.testbit_neg_r _ (i - 48)),
            ?(Z.testbit_neg_r _ (i - 56)) by lia.
  all: repeat match goal with
         | |- context [ ?a <? ?b ] => destruct (Z.ltb_spec a b); try lia
         end.
  all: simpl; rewrite ?orb_false_r.
  all: try reflexivity.
  all: try (f_equal; lia).
Qed.

Lemma int32_uint32_roundtrip (i : Z) :
  int32_range i -> int32_of_uint32 (uint32_of_int32 i) = i.
Proof.
  unfold int32_range, int32_of_uint32, uint32_of_int32. intros Hi.
  destruct (Z.ltb_spec i 0) as [Hneg|Hpos].
  - rewrite <- (Z_mod_plus_full i 1 (2 ^ 32)).
    rewrite Z.mod_small by lia.
    destruct (Z.ltb_spec (i + 1 * 2 ^ 32) (2 ^ 31)); lia.
  - rewrite Z.mod_small by lia.
    destruct (Z.ltb_spec i (2 ^ 31)); lia.
Qed.

Lemma uint32_of_int32_range (i : Z) : uint32_range (uint32_of_int32 i).
Proof. unfold uint32_range, uint32_of_int32. apply Z.mod_pos_bound. lia. Qed.

(** ** String.Append: termination and padding *)

Lemma fold_left_snoc {A B} (f : B -> A) (l : list B) (b : list A) :
  fold_left (fun acc x => acc ++ [f x]) l b = b ++ map f l.
Proof.
  revert b. induction l as [|x l IH]; intros b; simpl.
  - now rewrite app_nil_r.
  - rewrite IH, <- app_assoc. reflexivity.
Qed.

Lemma append_range_prefix (str : string) (b : list byte) :
  append_range str b = b ++ append_range str [].
Proof. unfold append_range. now rewrite !fold_left_snoc. Qed.

Lemma mod4_cases (z : Z) : z mod 4 = 0 \/ z mod 4 = 1 \/ z mod 4 = 2 \/ z mod 4 = 3.
Proof. pose proof (Z.mod_pos_bound z 4). lia. Qed.

Lemma len_snoc_mod4 (b : list byte) (x : byte) :
  len (b ++ [x]) mod 4 = (len b mod 4 + 1) mod 4.
Proof.
  rewrite len_app. change (len [x]) with 1.
  rewrite Z.add_mod by lia. reflexivity.
Qed.

Lemma neg_mod4 (z r : Z) : z mod 4 = r -> (- z) mod 4 = (4 - r) mod 4.
Proof.
  intros <-. rewrite (Z.div_mod z 4) at 1 by lia.
  replace (- (4 * (z / 4) + z mod 4)) with ((4 - z mod 4) + (- (z / 4) - 1) * 4) by lia.
  now rewrite Z_mod_plus_full.
Qed.

Lemma pad_loop_stable (b : list byte) :
  len b mod 4 = 0 -> forall fuel, pad_loop fuel b = b.
Proof. intros H [|fuel]; simpl; [|rewrite H]; reflexivity. Qed.

(** The padding loop appends [(- len b) mod 4] zero bytes, at most 3, and
    then leaves through its condition: fuel beyond 3 is never used. *)
Lemma pad_loop_fuel (k : nat) (b : list byte) :
  pad_loop (3 + k) b = b ++ replicate (Z.to_nat ((- len b) mod 4)) x00.
Proof.
  assert (Hstep : forall c : list byte, forall r, len c mod 4 = r ->
            len (c ++ [x00]) mod 4 = (r + 1) mod 4).
  { intros c r <-. apply len_snoc_mod4. }
  change (3 + k)%nat with (S (S (S k))).
  destruct (mod4_cases (len b)) as [H|[H|[H|H]]];
    rewrite (neg_mod4 _ _ H); cbn [pad_loop]; rewrite H.
  - simpl. now rewrite app_nil_r.
  - rewrite (Hstep _ _ H), (Hstep _ _ (Hstep _ _ H)).
    rewrite (pad_loop_stable (((b ++ [x00]) ++ [x00]) ++ [x00]))
      by (rewrite (Hstep _ _ (Hstep _ _ (Hstep _ _ H))); reflexivity).
    simpl. now rewrite <- !app_assoc.
  - rewrite (Hstep _ _ H), (Hstep _ _ (Hstep _ _ H)).
    simpl. now rewrite <- !app_assoc.
  - rewrite (Hstep _ _ H). reflexivity.
Qed.

Lemma pad_loop_spec (b : list byte) :
  pad_loop 3 b = b ++ replicate (Z.to_nat ((- len b) mod 4)) x00.
Proof. apply (pad_loop_fuel 0). Qed.

Lemma len_replicate {A} (k : nat) (x : A) : len (replicate k x) = Z.of_nat k.
Proof. unfold len. now rewrite length_replicate. Qed.

Lemma padded_mod4 (z : Z) : (z + (- z) mod 4) mod 4 = 0.
Proof.
  rewrite Z.add_mod_idemp_r by lia. replace (z + - z) with 0 by lia. reflexivity.
Qed.

(** The loop leaves through its condition: three iterations are enough. *)
Lemma pad_loop_exit (b : list byte) : len (pad_loop 3 b) mod 4 = 0.
Proof.
  rewrite pad_loop_spec, len_app, len_replicate.
  pose proof (Z.mod_pos_bound (- len b) 4 ltac:(lia)).
  rewrite Z2Nat.id by lia. apply padded_mod4.
Qed.

Lemma String_Append_shape (str : string) (b : list byte) :
  String_Append str b =
  b ++ append_range str [] ++
    x00 :: replicate (Z.to_nat ((- (len b + len (append_range str []) + 1)) mod 4)) x00.
Proof.
  unfold String_Append. rewrite pad_loop_spec, append_range_prefix.
  rewrite !len_app. change (len [x00]) with 1.
  rewrite <- !app_assoc. reflexivity.
Qed.

Lemma String_Append_padding (str : string) (b : list byte) :
  exists k : nat, (k <= 3)%nat /\
    String_Append str b = b ++ append_range str [] ++ x00 :: replicate k x00.
Proof.
  eexists. split; [|apply String_Append_shape].
  pose proof (Z.mod_pos_bound (- (len b + len (append_range str []) + 1)) 4
                ltac:(lia)). lia.
Qed.

Lemma len_String_Append (str : string) (b : list byte) :
  len (String_Append str b) mod 4 = 0.
Proof. unfold String_Append. apply pad_loop_exit. Qed.

(** C10. For every String [str] and every initial buffer [b], aligned or
    not, the buffer returned by [String.Append] has a length that is a
    multiple of 4: the appended portion is the bytes copied from the string,
    one NUL and at most three more zero bytes, as many as bring the total
    length to a multiple of 4. The appended portion is therefore congruent
    to [- len b] modulo 4, and is not a multiple of 4 whenever [len b] is
    not. *)
Theorem String_Append_total_aligned (str : string) (b : list byte) :
  len (String_Append str b) mod 4 = 0 /\
  (exists k : nat, (k <= 3)%nat /\
     String_Append str b = b ++ append_range str [] ++ x00 :: replicate k x00) /\
  (len (String_Append str b) - len b) mod 4 = (- len b) mod 4 /\
  (len b mod 4 <> 0 -> (len (String_Append str b) - len b) mod 4 <> 0).
Proof.
  pose proof (len_String_Append str b) as Hal.
  assert (Hport : (len (String_Append str b) - len b) mod 4 = (- len b) mod 4).
  { replace (len (String_Append str b) - len b)
      with (- len b + len (String_Append str b)) by lia.
    rewrite <- Z.add_mod_idemp_r, Hal, Z.add_0_r by lia. reflexivity. }
  split; [exact Hal|]. split; [|split; [exact Hport|]].
  - apply String_Append_padding.
  - intros Hb. rewrite Hport.
    destruct (mod4_cases (len b)) as [H|[H|[H|H]]];
      rewrite (neg_mod4 _ _ H); [congruence|discriminate..].
Qed.

Lemma String_Append_total_aligned_witness :
  len (String_Append "ab" [x01]) mod 4 = 0 /\
  (len (String_Append "ab" [x01]) - len [x01]) mod 4 <> 0.
Proof.
  destruct (String_Append_total_aligned "ab" [x01]) as (Hal & _ & _ & Hport).
  split; [exact Hal|]. apply Hport. vm_compute. discriminate.
Defined.

Lemma len_TimeTag_Append (t : time.Time) : len (TimeTag_Append t []) = 8.
Proof.
  unfold TimeTag_Append.
  destruct (F64.leb _ _); [reflexivity|].
  destruct (F64.Modf _) as [base frac]. reflexivity.
Qed.

Lemma len_Append_nil_mod4 (v : Argument) : len (Append v []) mod 4 = 0.
Proof.
  destruct v as [i|f|str|t| | | | ]; simpl Append; try reflexivity.
  - apply len_String_Append.
  - now rewrite len_TimeTag_Append.
Qed.

(** C9. For every Argument value [v], the length of [v.Append(nil)] is a
    multiple of 4: the markers append nothing, Int32 and Float32 append 4
    bytes, TimeTag appends 8, and String appends its bytes, a NUL and at
    most three more zero bytes up to the next multiple of 4. *)
Theorem Append_nil_len_mod4 (v : Argument) :
  len (Append v []) mod 4 = 0 /\
  match v with
  | True_ | False_ | Null | Impulse => Append v [] = []
  | Int32 _ | Float32 _ => len (Append v []) = 4
  | TimeTag _ => len (Append v []) = 8
  | String_ str =>
      exists k : nat, (k <= 3)%nat /\
        Append v [] = append_range str [] ++ x00 :: replicate k x00
  end.
Proof.
  destruct v as [i|f|str|t| | | | ]; simpl Append.
  - split; reflexivity.
  - split; reflexivity.
  - split; [apply len_String_Append|].
    apply (String_Append_padding str []).
  - rewrite len_TimeTag_Append. split; reflexivity.
  - split; reflexivity.
  - split; reflexivity.
  - split; reflexivity.
  - split; reflexivity.
Qed.

(** ** String.Consume *)

Lemma IndexByte_ge (b : list byte) (c : byte) : -1 <= IndexByte b c.
Proof.
  induction b as [|x b IH]; simpl; [lia|].
  destruct (Byte.eqb x c); [lia|].
  destruct (Z.ltb_spec (IndexByte b c) 0); lia.
Qed.

Lemma byte_eqb_eq (x y : byte) : Byte.eqb x y = true <-> x = y.
Proof. split; [apply Byte.byte_dec_bl|apply Byte.byte_dec_lb]. Qed.

Lemma byte_eqb_neq (x y : byte) : Byte.eqb x y = false <-> x <> y.
Proof.
  split.
  - apply Byte.eqb_false.
  - intros Hn. destruct (Byte.eqb x y) eqn:E; [|reflexivity].
    apply byte_eqb_eq in E. contradiction.
Qed.

Lemma IndexByte_first (pre rest : list byte) (c : byte) :
  c ∉ pre -> IndexByte (pre ++ c :: rest) c = len pre.
Proof.
  induction pre as [|x pre IH]; intros Hn; simpl.
  - rewrite (proj2 (byte_eqb_eq c c) eq_refl). reflexivity.
  - apply not_elem_of_cons in Hn as [Hx Hpre].
    rewrite (proj2 (byte_eqb_neq x c)) by congruence.
    rewrite (IH Hpre). pose proof (len_nonneg pre).
    destruct (Z.ltb_spec (len pre) 0); [lia|]. unfold len. simpl length. lia.
Qed.

Lemma IndexByte_absent (b : list byte) (c : byte) :
  IndexByte b c < 0 <-> c ∉ b.
Proof.
  induction b as [|x b IH]; simpl.
  - split; [intros _; apply not_elem_of_nil|lia].
  - destruct (Byte.eqb x c) eqn:E.
    + apply byte_eqb_eq in E. subst x. split; [lia|].
      intros Hn. exfalso. apply Hn. left.
    + apply byte_eqb_neq in E. pose proof (IndexByte_ge b c).
      destruct (Z.ltb_spec (IndexByte b c) 0) as [Hlt|Hge].
      * split; [|lia]. intros _. apply not_elem_of_cons. split; [congruence|].
        now apply IH.
      * split; [lia|]. intros Hn. apply not_elem_of_cons in Hn as [_ Hn].
        apply IH in Hn. lia.
Qed.

(** A first index splits the buffer around the byte found. *)
Lemma first_index_split (b : list byte) (c : byte) (i : Z) :
  first_index b c i ->
  exists rest, b = slice_to b i ++ c :: rest /\ (c ∉ slice_to b i) /\
               len (slice_to b i) = i.
Proof.
  intros (Hi & Hat & Hbefore). unfold slice_to.
  pose proof (lookup_lt_Some _ _ _ Hat) as Hlt.
  exists (drop (S (Z.to_nat i)) b). split; [|split].
  - rewrite <- (take_drop (Z.to_nat i) b) at 1. f_equal.
    now apply drop_S.
  - intros Hin. apply list_elem_of_lookup in Hin as [j Hj].
    pose proof (lookup_lt_Some _ _ _ Hj) as Hjl.
    rewrite length_take in Hjl.
    rewrite lookup_take_lt in Hj by lia.
    apply (Hbefore j); [lia|exact Hj].
  - unfold len. rewrite length_take. lia.
Qed.

Lemma IndexByte_first_index (b : list byte) (c : byte) (i : Z) :
  first_index b c i -> IndexByte b c = i.
Proof.
  intros H. destruct (first_index_split _ _ _ H) as (rest & E & Hn & Hl).
  rewrite E, IndexByte_first by exact Hn. exact Hl.
Qed.

Lemma next_multiple_of_4 (e k : Z) :
  k mod 4 = 0 -> e < k <= e + 4 -> k = e + 4 - e mod 4.
Proof. intros Hk Hr. Z.to_euclidean_division_equations. lia. Qed.

Lemma String_Consume_found (b : list byte) (e : Z) :
  first_index b x00 e ->
  String_Consume b =
  Ok (string_of_list_byte (slice_to b e),
      slice_from b (Z.min (e + 4 - e mod 4) (len b))).
Proof.
  intros H. unfold String_Consume.
  rewrite (IndexByte_first_index _ _ _ H).
  destruct H as (He & _). destruct (Z.ltb_spec e 0); [lia|reflexivity].
Qed.

Lemma slice_from_app_len {A} (a b : list A) (k : Z) :
  k = len a -> slice_from (a ++ b) k = b.
Proof.
  intros ->. unfold slice_from, len. rewrite Nat2Z.id.
  now rewrite drop_app_length.
Qed.

Lemma slice_to_app_len {A} (a b : list A) (k : Z) :
  k = len a -> slice_to (a ++ b) k = a.
Proof.
  intros ->. unfold slice_to, len. rewrite Nat2Z.id.
  now rewrite take_app_length.
Qed.

Lemma first_index_app (pre rest : list byte) (c : byte) :
  c ∉ pre -> first_index (pre ++ c :: rest) c (len pre).
Proof.
  intros Hn. unfold first_index, len. rewrite Nat2Z.id. split; [lia|split].
  - now rewrite list_lookup_middle.
  - intros j Hj Hat. rewrite lookup_app_l in Hat by exact Hj.
    apply Hn. apply list_elem_of_lookup. now exists j.
Qed.

(** Consuming a terminated string followed by padding up to the next
    multiple of 4, whatever the padding bytes are. *)
Lemma String_Consume_padded (pre pad rest : list byte) :
  x00 ∉ pre -> (len pre + 1 + len pad) mod 4 = 0 -> len pad <= 3 ->
  String_Consume (pre ++ x00 :: pad ++ rest) = Ok (string_of_list_byte pre, rest).
Proof.
  intros Hn Hal Hpad.
  rewrite (String_Consume_found _ (len pre)) by now apply first_index_app.
  pose proof (len_nonneg pre). pose proof (len_nonneg pad). pose proof (len_nonneg rest).
  assert (Hk : len pre + 1 + len pad = len pre + 4 - len pre mod 4).
  { apply next_multiple_of_4; [exact Hal|lia]. }
  rewrite <- Hk.
  rewrite slice_to_app_len by reflexivity. f_equal. f_equal.
  replace (pre ++ x00 :: pad ++ rest) with ((pre ++ x00 :: pad) ++ rest)
    by (rewrite <- app_assoc; reflexivity).
  apply slice_from_app_len.
  rewrite !len_app. change (len (x00 :: pad)) with (len ([x00] ++ pad)).
  rewrite len_app. change (len [x00]) with 1. lia.
Qed.

(** C5. [String.Consume] fails exactly when the buffer holds no NUL byte
    (the empty buffer included). When the first NUL is at index [e], it
    returns the bytes before it as the string and the remainder that starts
    at the smaller of the buffer length and the next multiple of 4 strictly
    greater than [e]; the bytes skipped after the NUL are not inspected:
    any padding bytes [pad] are accepted. *)
Theorem String_Consume_spec (b : list byte) :
  (is_Err (String_Consume b) = true <-> x00 ∉ b) /\
  (is_Ok (String_Consume b) = false <-> x00 ∉ b) /\
  (forall e k : Z,
      first_index b x00 e -> k mod 4 = 0 -> e < k <= e + 4 ->
      String_Consume b =
      Ok (string_of_list_byte (slice_to b e), slice_from b (Z.min k (len b)))) /\
  (forall pre pad rest : list byte,
      b = pre ++ x00 :: pad ++ rest ->
      x00 ∉ pre -> (len pre + 1 + len pad) mod 4 = 0 -> len pad <= 3 ->
      String_Consume b = Ok (string_of_list_byte pre, rest)).
Proof.
  assert (Hfail : forall f : result (string * list byte) -> bool,
             f (Err (Errorf "no termination in string %q")) = true ->
             (forall x, f (Ok x) = false) ->
             f (String_Consume b) = true <-> x00 ∉ b).
  { intros f Herr Hok. unfold String_Consume.
    rewrite <- IndexByte_absent.
    destruct (Z.ltb_spec (IndexByte b x00) 0) as [Hlt|Hge].
    - rewrite Herr. split; [intros _; exact Hlt|reflexivity].
    - rewrite Hok. split; [discriminate|lia]. }
  split; [|split; [|split]].
  - apply (Hfail is_Err); reflexivity.
  - rewrite <- (Hfail (fun r => negb (is_Ok r))) by reflexivity.
    destruct (is_Ok (String_Consume b)); simpl; split; congruence.
  - intros e k Hfirst Hk Hr.
    rewrite (next_multiple_of_4 e k Hk Hr). now apply String_Consume_found.
  - intros pre pad rest -> Hn Hal Hpad. now apply String_Consume_padded.
Qed.

Lemma String_Consume_spec_witness :
  String_Consume [x61; x00; x07; x00; x00] = Ok ("a"%string, [x00]) /\
  String_Consume [x61; x00; x07; x09; x62] = Ok ("a"%string, [x62]).
Proof.
  destruct (String_Consume_spec [x61; x00; x07; x00; x00]) as (_ & _ & H & _).
  destruct (String_Consume_spec [x61; x00; x07; x09; x62]) as (_ & _ & _ & P).
  split.
  - apply (H 1 4).
    + split; [lia|]. split; [reflexivity|].
      intros j Hj. destruct j as [|j]; [discriminate|simpl in Hj; lia].
    + reflexivity.
    + lia.
  - apply (P [x61] [x07; x09] [x62]).
    + reflexivity.
    + intros Hin. apply list_elem_of_singleton in Hin. discriminate.
    + reflexivity.
    + vm_compute. discriminate.
Defined.

(** ** Iterating over the code points of an ASCII string *)

Lemma DecodeRune_ascii (s0 : byte) (tl : list byte) :
  byte_val s0 < 128 -> DecodeRune (s0 :: tl) = (byte_val s0, 1%nat).
Proof.
  intros H. unfold DecodeRune.
  destruct (Z.ltb_spec (byte_val s0) 128); [reflexivity|lia].
Qed.

Lemma ascii_byte_lt (b : byte) : ascii_byte b -> byte_val b < 128.
Proof. unfold ascii_byte. lia. Qed.

(** On ASCII bytes the loop visits every index, in order. *)
Lemma range_runes_ascii_index (suf pre : list byte) :
  Forall ascii_byte suf ->
  map (fun ir : Z * Z => nth (Z.to_nat (fst ir)) (pre ++ suf) x00)
      (range_runes (length suf) (len pre) suf) = suf.
Proof.
  revert pre. induction suf as [|b suf IH]; intros pre Hall; [reflexivity|].
  apply Forall_cons in Hall as [Hb Hall].
  cbn [length range_runes].
  rewrite (DecodeRune_ascii b suf (ascii_byte_lt b Hb)).
  cbn [map fst drop]. f_equal.
  - unfold len. rewrite Nat2Z.id, app_nth2 by lia.
    now rewrite Nat.sub_diag.
  - replace (len pre + Z.of_nat 1) with (len (pre ++ [b]))
      by (rewrite len_app; reflexivity).
    replace (pre ++ b :: suf) with ((pre ++ [b]) ++ suf)
      by (rewrite <- app_assoc; reflexivity).
    rewrite drop_0. apply IH. exact Hall.
Qed.

Lemma range_runes_ascii_runes (suf : list byte) (i : Z) :
  Forall ascii_byte suf ->
  map snd (range_runes (length suf) i suf) = map byte_val suf.
Proof.
  revert i. induction suf as [|b suf IH]; intros i Hall; [reflexivity|].
  apply Forall_cons in Hall as [Hb Hall].
  cbn [length range_runes].
  rewrite (DecodeRune_ascii b suf (ascii_byte_lt b Hb)).
  cbn [map snd drop]. f_equal. rewrite drop_0. apply IH. exact Hall.
Qed.

Lemma append_range_ascii (str : string) :
  ascii_text str -> append_range str [] = list_byte_of_string str.
Proof.
  intros Hall. unfold append_range, range_string, string_index.
  rewrite fold_left_snoc. simpl.
  apply (range_runes_ascii_index (list_byte_of_string str) [] Hall).
Qed.

Lemma ascii_text_no_nul (str : string) :
  ascii_text str -> x00 ∉ list_byte_of_string str.
Proof.
  intros Hall Hin. unfold ascii_text in Hall.
  rewrite Forall_forall in Hall. specialize (Hall _ Hin).
  unfold ascii_byte in Hall. change (byte_val x00) with 0 in Hall. lia.
Qed.

(** ** Round trip of one argument *)

Lemma String_roundtrip (str : string) (rest : list byte) :
  ascii_text str ->
  String_Consume (String_Append str [] ++ rest) = Ok (str, rest).
Proof.
  intros Hall. rewrite String_Append_shape, (append_range_ascii str Hall).
  cbn [app]. change (len (@nil byte)) with 0. rewrite Z.add_0_l.
  set (bytes := list_byte_of_string str).
  set (k := Z.to_nat ((- (len bytes + 1)) mod 4)).
  pose proof (Z.mod_pos_bound (- (len bytes + 1)) 4 ltac:(lia)) as Hk.
  rewrite <- app_assoc. cbn [app].
  rewrite (String_Consume_padded bytes (replicate k x00) rest).
  - unfold bytes. now rewrite string_of_list_byte_of_string.
  - now apply ascii_text_no_nul.
  - rewrite len_replicate. unfold k. rewrite Z2Nat.id by lia. apply padded_mod4.
  - rewrite len_replicate. unfold k. lia.
Qed.

Lemma slice_from_4 (b0 b1 b2 b3 : byte) (rest : list byte) :
  slice_from (b0 :: b1 :: b2 :: b3 :: rest) 4 = rest.
Proof. reflexivity. Qed.

Lemma Int32_roundtrip (i : Z) (rest : list byte) :
  int32_range i -> Int32_Consume (Int32_Append i [] ++ rest) = Ok (i, rest).
Proof.
  intros Hi. unfold Int32_Consume, Int32_Append.
  rewrite Uint32_AppendUint32 by apply uint32_of_int32_range.
  rewrite int32_uint32_roundtrip by exact Hi.
  unfold AppendUint32. cbn [app]. rewrite slice_from_4.
  unfold len. cbn [length].
  destruct (Z.ltb_spec (Z.of_nat (S (S (S (S (length rest)))))) 4); [lia|reflexivity].
Qed.

Lemma Float32_roundtrip (bits : Z) (rest : list byte) :
  uint32_range bits ->
  Float32_Consume (Float32_Append bits [] ++ rest) = Ok (bits, rest).
Proof.
  intros Hb. unfold Float32_Consume, Float32_Append.
  rewrite Uint32_AppendUint32 by exact Hb.
  unfold AppendUint32. cbn [app]. rewrite slice_from_4.
  unfold len. cbn [length].
  destruct (Z.ltb_spec (Z.of_nat (S (S (S (S (length rest)))))) 4); [lia|reflexivity].
Qed.

(** [TimeTag.Consume] reads the first eight bytes only. *)
Lemma TimeTag_Consume_app (enc rest : list byte) (t : time.Time) :
  len enc = 8 ->
  TimeTag_Consume enc = Ok (t, []) ->
  TimeTag_Consume (enc ++ rest) = Ok (t, rest).
Proof.
  intros Hlen.
  destruct enc as [|b0 [|b1 [|b2 [|b3 [|b4 [|b5 [|b6 [|b7 [|b8 enc]]]]]]]]];
    try discriminate Hlen.
  2: { unfold len in Hlen. cbn [length] in Hlen. lia. }
  unfold TimeTag_Consume.
  change (len [b0; b1; b2; b3; b4; b5; b6; b7] <? 8) with false. cbv iota.
  cbn [app].
  replace (len (b0 :: b1 :: b2 :: b3 :: b4 :: b5 :: b6 :: b7 :: rest) <? 8)
    with false
    by (symmetry; apply Z.ltb_ge; unfold len; cbn [length]; lia).
  cbv iota.
  change (Uint64 (b0 :: b1 :: b2 :: b3 :: b4 :: b5 :: b6 :: b7 :: rest))
    with (Uint64 [b0; b1; b2; b3; b4; b5; b6; b7]).
  match goal with
  | |- Ok (?T, _) = _ -> _ => generalize T
  end.
  intros T E. injection E as ->. reflexivity.
Qed.

Lemma TimeTag_roundtrip (t : time.Time) (rest : list byte) :
  timetag_exact t ->
  TimeTag_Consume (TimeTag_Append t [] ++ rest) = Ok (t, rest).
Proof.
  intros Hex. apply TimeTag_Consume_app; [apply len_TimeTag_Append|exact Hex].
Qed.

(** ** float64: the computations of TimeTag that are exact *)

Lemma iter_pos_nat {A} (f : A -> A) (p : positive) (x : A) :
  SpecFloat.iter_pos f p x = Nat.iter (Pos.to_nat p) f x.
Proof.
  revert x. induction p as [p IH|p IH|]; intros x; cbn [SpecFloat.iter_pos].
  - rewrite !IH, Pos2Nat.inj_xI, <- Nat.iter_add.
    replace (S (2 * Pos.to_nat p)) with (S (Pos.to_nat p + Pos.to_nat p))%nat by lia.
    now rewrite Nat.iter_succ_r.
  - rewrite !IH, Pos2Nat.inj_xO, <- Nat.iter_add. f_equal. lia.
  - reflexivity.
Qed.

Lemma Zpos_shl (k : nat) (q : positive) : Zpos (shl k q) = Zpos q * 2 ^ Z.of_nat k.
Proof.
  induction k as [|k IH]; [simpl; lia|].
  unfold shl in *. rewrite Nat.iter_succ, Pos2Z.inj_xO, IH.
  rewrite Nat2Z.inj_succ, Z.pow_succ_r by lia. lia.
Qed.

Lemma digits_shl (k : nat) (q : positive) :
  Zpos (digits2_pos (shl k q)) = Zpos (digits2_pos q) + Z.of_nat k.
Proof.
  induction k as [|k IH]; [simpl; lia|].
  unfold shl in *. rewrite Nat.iter_succ. cbn [digits2_pos].
  rewrite Pos2Z.inj_succ, IH. lia.
Qed.

Lemma digits2_pos_size (q : positive) : digits2_pos q = Pos.size q.
Proof. induction q; simpl; congruence. Qed.

Lemma digits_bound (q : positive) (k : Z) :
  0 <= k -> Zpos q < 2 ^ k -> Zpos (digits2_pos q) <= k.
Proof.
  intros Hk Hq. rewrite digits2_pos_size.
  pose proof (Pos.size_le q) as Hs.
  destruct (Z.le_gt_cases (Zpos (Pos.size q)) k) as [|Hgt]; [assumption|exfalso].
  assert (2 ^ (k + 1) <= 2 ^ Zpos (Pos.size q)) by (apply Z.pow_le_mono_r; lia).
  assert (Zpos (2 ^ Pos.size q) <= Zpos q~0) by exact Hs.
  rewrite Pos2Z.inj_pow in *. rewrite Z.pow_add_r in * by lia. lia.
Qed.

Lemma shr_exact (c r : nat) (q : positive) :
  Nat.iter c shr_1 {| shr_m := Zpos (shl (c + r) q); shr_r := false; shr_s := false |}
  = {| shr_m := Zpos (shl r q); shr_r := false; shr_s := false |}.
Proof.
  induction c as [|c IH]; [reflexivity|].
  rewrite Nat.iter_succ_r. unfold shl at 1. cbn [Nat.add].
  rewrite Nat.iter_succ. cbn [shr_1 orb]. exact IH.
Qed.

Lemma shr_fexp_exact (q : positive) (p : nat) (E : Z) :
  let c := Zpos (digits2_pos q) + Z.of_nat p - 53 in
  -1074 <= c + E -> c <= Z.of_nat p ->
  shr_fexp 53 1024 (Zpos (shl p q)) E loc_Exact
  = ({| shr_m := Zpos (shl (p - Z.to_nat c) q); shr_r := false; shr_s := false |},
     E + Z.max c 0).
Proof.
  intros c Hmin Hp. unfold shr_fexp, fexp, emin. cbn [Zdigits2 shr_record_of_loc].
  rewrite digits_shl.
  replace (Z.max (Z.pos (digits2_pos q) + Z.of_nat p + E - 53) (3 - 1024 - 53) - E)
    with c by (unfold c; lia).
  destruct c as [|cp|cp] eqn:Ec; cbn [shr].
  - rewrite Nat.sub_0_r, Z.add_0_r. reflexivity.
  - rewrite iter_pos_nat.
    replace p with (Pos.to_nat cp + (p - Pos.to_nat cp))%nat at 1 by lia.
    rewrite shr_exact. rewrite Z2Nat.inj_pos.
    replace (Z.max (Z.pos cp) 0) with (Z.pos cp) by lia. reflexivity.
  - replace (Z.to_nat (Z.neg cp)) with 0%nat by lia.
    rewrite Nat.sub_0_r.
    replace (Z.max (Z.neg cp) 0) with 0 by lia. now rewrite Z.add_0_r.
Qed.

(** Rounding a mantissa whose significant bits fit in 53 bits is exact. *)
Lemma binary_round_aux_exact (sx : bool) (q : positive) (p : nat) (E : Z) :
  let c := Zpos (digits2_pos q) + Z.of_nat p - 53 in
  -1074 <= c + E -> c <= Z.of_nat p -> E + Z.max c 0 <= 971 ->
  binary_round_aux 53 1024 sx (Zpos (shl p q)) E loc_Exact
  = S754_finite sx (shl (p - Z.to_nat c) q) (E + Z.max c 0).
Proof.
  intros c Hmin Hp Hmax. unfold binary_round_aux.
  rewrite (shr_fexp_exact q p E Hmin Hp). fold c.
  cbn [shr_m loc_of_shr_record round_nearest_even].
  rewrite (shr_fexp_exact q (p - Z.to_nat c) (E + Z.max c 0)) by lia.
  replace (Z.pos (digits2_pos q) + Z.of_nat (p - Z.to_nat c) - 53)
    with (Z.min c 0) by lia.
  cbn [shr_m].
  replace (Z.to_nat (Z.min c 0)) with 0%nat by lia.
  replace (Z.max (Z.min c 0) 0) with 0 by lia.
  rewrite Nat.sub_0_r, Z.add_0_r.
  replace (E + Z.max c 0 <=? 1024 - 53) with true by (symmetry; apply Z.leb_le; lia).
  reflexivity.
Qed.

(** The integer held by a float whose binary point is not inside [q]. *)
Lemma trunc_shl (q : positive) (r : nat) (e : Z) :
  0 <= Z.of_nat r + e ->
  F64.trunc (S754_finite false (shl r q) e) = Zpos q * 2 ^ (Z.of_nat r + e).
Proof.
  intros He. unfold F64.trunc. rewrite Zpos_shl.
  destruct e as [|ep|ep].
  - rewrite Z.shiftl_0_r, Z.add_0_r. reflexivity.
  - rewrite Z.shiftl_mul_pow2, Z.pow_add_r by lia. lia.
  - rewrite Z.shiftr_div_pow2 by lia.
    replace (Z.of_nat r) with ((Z.of_nat r + Z.neg ep) + Z.pos ep) at 1 by lia.
    rewrite Z.pow_add_r by lia.
    rewrite Z.mul_assoc, Z.div_mul by (apply Z.pow_nonzero; lia). reflexivity.
Qed.

Lemma Pos_iter_shl (q k : positive) : Pos.iter xO q k = shl (Pos.to_nat k) q.
Proof. unfold shl. apply Pos2Nat.inj_iter. Qed.

Ltac finite_eq :=
  match goal with
  | |- S754_finite ?sx (shl ?a ?q) ?e = S754_finite ?sx (shl ?b ?q) ?e' =>
      replace a with b by lia; replace e with e' by lia; reflexivity
  end.

(** Integers below [2^53] convert to [float64] without rounding. *)
Lemma of_Z_exact (n : positive) :
  Zpos n < 2 ^ 53 ->
  F64.of_Z (Zpos n)
  = S754_finite false (shl (Z.to_nat (53 - Zpos (digits2_pos n))) n)
                (Zpos (digits2_pos n) - 53).
Proof.
  intros Hn. pose proof (digits_bound n 53 ltac:(lia) Hn) as Hd.
  unfold F64.of_Z, binary_normalize, binary_round, shl_align, fexp, emin,
    F64.prec, F64.emax.
  set (d := Zpos (digits2_pos n)) in *.
  replace (Z.max (d + 0 - 53) (3 - 1024 - 53) - 0) with (d - 53) by lia.
  replace (Z.max (d + 0 - 53) (3 - 1024 - 53)) with (d - 53) by lia.
  destruct (d - 53) as [|dp|dp] eqn:Ed; try lia.
  - change n with (shl 0 n) at 1.
    rewrite binary_round_aux_exact; fold d; cbn [Z.of_nat]; try lia.
    finite_eq.
  - rewrite Pos_iter_shl.
    rewrite binary_round_aux_exact; fold d; try lia.
    finite_eq.
Qed.

Lemma trunc_of_Z (n : positive) :
  Zpos n < 2 ^ 53 -> F64.trunc (F64.of_Z (Zpos n)) = Zpos n.
Proof.
  intros Hn. pose proof (digits_bound n 53 ltac:(lia) Hn) as Hd.
  rewrite (of_Z_exact n Hn), trunc_shl by lia.
  replace (Z.of_nat (Z.to_nat (53 - Z.pos (digits2_pos n))) + (Z.pos (digits2_pos n) - 53))
    with 0 by lia.
  lia.
Qed.

Lemma Pos_mul_shl (a b : nat) (x y : positive) :
  (shl a x * shl b y)%positive = shl (a + b) (x * y).
Proof.
  apply Pos2Z.inj. rewrite Pos2Z.inj_mul, !Zpos_shl, Pos2Z.inj_mul.
  rewrite Nat2Z.inj_add, Z.pow_add_r by lia. lia.
Qed.

(** A whole number of seconds below [2^32] times [1e9] is computed exactly:
    [1e9 = 1953125 * 2^9] and the odd factor keeps the product within 53
    bits. *)
Lemma trunc_mul_second (n : positive) :
  Zpos n < 2 ^ 32 ->
  F64.trunc (F64.mul (F64.of_Z (Zpos n)) (F64.of_Z time.Second))
  = Zpos n * 1000000000.
Proof.
  intros Hn.
  pose proof (digits_bound n 32 ltac:(lia) Hn) as Hd.
  assert (HK : Zpos (n * 1953125) < 2 ^ 53) by (rewrite Pos2Z.inj_mul; lia).
  pose proof (digits_bound _ 53 ltac:(lia) HK) as HdK.
  rewrite (of_Z_exact n) by lia.
  change (F64.of_Z time.Second) with (S754_finite false (shl 32 1953125) (-23)).
  unfold F64.mul, SFmul, F64.prec, F64.emax. cbn [xorb].
  rewrite Pos_mul_shl.
  set (d := Zpos (digits2_pos n)) in *.
  set (dK := Zpos (digits2_pos (n * 1953125))) in *.
  assert (Hdd : 1 <= d) by (unfold d; lia).
  assert (HdK1 : 1 <= dK) by (unfold dK; lia).
  rewrite binary_round_aux_exact; fold dK; try lia.
  rewrite trunc_shl by lia.
  rewrite Pos2Z.inj_mul.
  match goal with |- _ * 2 ^ ?e = _ => replace e with 9 by lia end.
  lia.
Qed.

Lemma sub_self (sx : bool) (m : positive) (e : Z) :
  F64.sub (S754_finite sx m e) (S754_finite sx m e) = S754_zero false.
Proof.
  unfold F64.sub, SFsub. rewrite Z.sub_diag. reflexivity.
Qed.

(** A positive integer below [2^53], as a [float64], is positive and not
    below 1. *)
Lemma of_Z_not_small (n : positive) :
  Zpos n < 2 ^ 53 ->
  F64.leb (F64.of_Z (Zpos n)) F64.zero = false /\
  F64.ltb (F64.of_Z (Zpos n)) F64.one = false.
Proof.
  intros Hn. pose proof (digits_bound n 53 ltac:(lia) Hn) as Hd.
  rewrite (of_Z_exact n Hn). split; [reflexivity|].
  change F64.one with (S754_finite false (shl 52 1) (-52)).
  unfold F64.ltb, SFltb, SFcompare.
  set (d := Zpos (digits2_pos n)) in *.
  assert (Hd1 : 1 <= d) by (unfold d; lia).
  destruct (Z.compare_spec (d - 53) (-52)) as [He|He|He]; try reflexivity; [|lia].
  assert (Hn1 : n = 1%positive).
  { assert (Hsz : Zpos (Pos.size n) = 1) by (rewrite <- digits2_pos_size; fold d; lia).
    destruct n; cbn [Pos.size] in Hsz; try reflexivity;
      rewrite Pos2Z.inj_succ in Hsz; lia. }
  subst n. replace (53 - d) with 52 by lia. reflexivity.
Qed.

Lemma add_zero_r (n : positive) :
  Zpos n < 2 ^ 53 ->
  F64.add (F64.of_Z (Zpos n)) (S754_zero false) = F64.of_Z (Zpos n).
Proof. intros Hn. rewrite (of_Z_exact n Hn). reflexivity. Qed.

Lemma Modf_of_Z (n : positive) :
  Zpos n < 2 ^ 53 ->
  F64.Modf (F64.of_Z (Zpos n)) = (F64.of_Z (Zpos n), S754_zero false).
Proof.
  intros Hn. destruct (of_Z_not_small n Hn) as [_ Hlt].
  unfold F64.Modf, F64.modf_nonneg. rewrite Hlt. cbn [andb].
  pose proof (trunc_of_Z n Hn) as Ht.
  rewrite (of_Z_exact n Hn) in *. unfold F64.modf_ge1. rewrite Ht.
  rewrite (of_Z_exact n Hn). now rewrite sub_self.
Qed.

(** The encoding of a whole number of seconds after the epoch: the seconds
    in the high 32 bits, a zero fraction. *)
Lemma TimeTag_Append_whole_seconds (n : positive) :
  Zpos n < 2 ^ 32 ->
  TimeTag_Append (Zpos n * 1000000000) [] = AppendUint64 [] (Zpos n * 2 ^ 32).
Proof.
  intros Hn. unfold TimeTag_Append.
  assert (Hsec : time.Seconds (time.Sub (Zpos n * 1000000000) epoch)
                 = F64.of_Z (Zpos n)).
  { unfold time.Sub, epoch, time.minDuration, time.maxDuration.
    rewrite Z.sub_0_r.
    destruct (Z.ltb_spec (Zpos n * 1000000000) (- 2 ^ 63)); [lia|].
    destruct (Z.ltb_spec (2 ^ 63 - 1) (Zpos n * 1000000000)); [lia|].
    unfold time.Seconds, time.Second.
    rewrite Z.quot_mul, Z.rem_mul by lia.
    change (F64.div (F64.of_Z 0) (F64.of_Z 1000000000)) with (S754_zero false).
    apply add_zero_r. lia. }
  rewrite Hsec.
  destruct (of_Z_not_small n ltac:(lia)) as [Hle _]. rewrite Hle.
  rewrite Modf_of_Z by lia.
  rewrite trunc_of_Z by lia.
  change (F64.trunc (F64.mul (S754_zero false) stepsPerSecond)) with 0.
  rewrite Z.shiftl_mul_pow2, Z.add_0_r, Z.mod_mod by lia.
  rewrite Z.mod_small by lia. reflexivity.
Qed.

(** Every whole number of seconds from the epoch up to [2^32 - 1] seconds
    after it is a TimeTag that the wire form holds exactly. *)
Lemma TimeTag_Consume_whole_seconds (n : positive) :
  Zpos n < 2 ^ 32 ->
  TimeTag_Consume (AppendUint64 [] (Zpos n * 2 ^ 32)) = Ok (Zpos n * 1000000000, []).
Proof.
  intros Hn.
  assert (Hraw : Uint64 (AppendUint64 [] (Zpos n * 2 ^ 32)) = Zpos n * 2 ^ 32).
  { rewrite <- (app_nil_r (AppendUint64 [] (Zpos n * 2 ^ 32))).
    apply Uint64_AppendUint64. lia. }
  unfold TimeTag_Consume.
  change (len (AppendUint64 [] (Zpos n * 2 ^ 32)) <? 8) with false. cbv iota.
  rewrite Hraw.
  rewrite Z.shiftr_div_pow2, Z.div_mul by lia.
  change 4294967295 with (Z.ones 32).
  rewrite Z.land_ones, Z.mod_mul by lia.
  change (F64.div (F64.of_Z 0) (F64.of_Z (Z.shiftl 1 32))) with (S754_zero false).
  rewrite add_zero_r by lia.
  rewrite trunc_mul_second by lia.
  unfold time.Add, epoch. rewrite Z.add_0_l. reflexivity.
Qed.

Lemma whole_seconds_exact (n : Z) :
  0 <= n < 2 ^ 32 -> timetag_exact (n * 1000000000).
Proof.
  intros Hn. destruct n as [|n|n]; [reflexivity| |lia].
  unfold timetag_exact. rewrite TimeTag_Append_whole_seconds by lia.
  apply TimeTag_Consume_whole_seconds. lia.
Qed.

Lemma whole_seconds_timetag_exact (t : time.Time) :
  whole_seconds t -> timetag_exact t.
Proof.
  intros (n & Hn & ->). unfold time.Add, epoch, time.Second.
  rewrite Z.add_0_l. now apply whole_seconds_exact.
Qed.

Lemma wire_value_exact (a : Argument) : wire_value a -> wire_exact a.
Proof.
  destruct a; cbn [wire_value wire_exact]; auto using whole_seconds_timetag_exact.
Qed.

(** Away from whole seconds the [float64] arithmetic of the TimeTag codec
    drifts, also on instants that the 64-bit fixed-point form holds
    exactly and on instants that [Consume] itself produces: the instant
    4002438896.5 s after the epoch is encoded exactly and decoded 256 ns
    low; the fraction 5 decodes to 1 ns, which encodes as the fraction 4,
    which decodes to the epoch. *)
Lemma TimeTag_sub_second_drift :
  TimeTag_Append 4002438896500000000 []
    = [xee; x90; x5e; xf0; x80; x00; x00; x00] /\
  TimeTag_Consume [xee; x90; x5e; xf0; x80; x00; x00; x00]
    = Ok (4002438896499999744, []) /\
  TimeTag_Consume [x00; x00; x00; x00; x00; x00; x00; x05] = Ok (1, []) /\
  TimeTag_Append 1 [] = [x00; x00; x00; x00; x00; x00; x00; x04] /\
  TimeTag_Consume [x00; x00; x00; x00; x00; x00; x00; x04] = Ok (0, []).
Proof. repeat split; vm_compute; reflexivity. Qed.

(** The receiver [v0] that [Consume] fills in has the dynamic type of [v]. *)
Lemma TypeTag_of_same_variant (v0 v : Argument) :
  TypeTag_of v0 = TypeTag_of v ->
  match v with
  | Int32 _ => exists i, v0 = Int32 i
  | Float32 _ => exists f, v0 = Float32 f
  | String_ _ => exists str, v0 = String_ str
  | TimeTag _ => exists t, v0 = TimeTag t
  | _ => v0 = v
  end.
Proof.
  destruct v, v0; simpl; intros E; try discriminate E; eauto.
Qed.

Lemma Consume_Append (v v0 : Argument) (rest : list byte) :
  wire_exact v -> TypeTag_of v0 = TypeTag_of v ->
  Consume v0 (Append v [] ++ rest) = Ok (v, rest).
Proof.
  intros Hv Htag. apply TypeTag_of_same_variant in Htag.
  destruct v as [i|f|str|t| | | | ]; cbn [wire_exact] in Hv;
    try (subst v0; reflexivity); destruct Htag as [x ->]; cbn [Consume Append].
  - now rewrite Int32_roundtrip.
  - now rewrite Float32_roundtrip.
  - now rewrite String_roundtrip.
  - now rewrite TimeTag_roundtrip.
Qed.

(** C8, as amended. For every Argument value [v] that is an Int32 or
    Float32 within 32 bits, a String of non-NUL ASCII bytes, a TimeTag a
    whole number of seconds, at most [2^32 - 1], after the epoch, or a
    marker, and for every trailing byte sequence [rest], [Consume] applied
    to [Append(v)] followed by [rest] succeeds, produces [v] and returns
    exactly [rest]. [v0] is the receiver that [Consume] fills in, of the
    dynamic type of [v]. *)
Theorem Consume_Append_roundtrip (v v0 : Argument) (rest : list byte) :
  wire_value v -> TypeTag_of v0 = TypeTag_of v ->
  Consume v0 (Append v [] ++ rest) = Ok (v, rest).
Proof.
  intros Hv Htag. apply Consume_Append; [|exact Htag].
  now apply wire_value_exact.
Qed.

Lemma Consume_Append_roundtrip_witness :
  wire_value (String_ "/synth/freq") /\
  wire_value (TimeTag 4002438896000000000) /\
  Consume (String_ "") (Append (String_ "/synth/freq") [] ++ [x07; x00; xff])
  = Ok (String_ "/synth/freq", [x07; x00; xff]) /\
  Consume (TimeTag zeroTime)
          (Append (TimeTag 4002438896000000000) [] ++ [x07; x00; xff])
  = Ok (TimeTag 4002438896000000000, [x07; x00; xff]) /\
  Consume (Int32 0) (Append (Int32 (-2)) [] ++ [x07; x00; xff])
  = Ok (Int32 (-2), [x07; x00; xff]).
Proof.
  assert (H1 : wire_value (String_ "/synth/freq")).
  { unfold wire_value, ascii_text. vm_compute.
    repeat (constructor; [split; reflexivity|]). constructor. }
  assert (H2 : wire_value (TimeTag 4002438896000000000)).
  { exists 4002438896. split; [lia|reflexivity]. }
  split; [exact H1|]. split; [exact H2|]. split; [|split].
  - apply (Consume_Append_roundtrip (String_ "/synth/freq") (String_ "")
             [x07; x00; xff] H1). reflexivity.
  - apply (Consume_Append_roundtrip (TimeTag 4002438896000000000) (TimeTag zeroTime)
             [x07; x00; xff] H2). reflexivity.
  - apply (Consume_Append_roundtrip (Int32 (-2)) (Int32 0) [x07; x00; xff]).
    + unfold wire_value, int32_range. lia.
    + reflexivity.
Defined.

(** C8 fails as stated: a String with an inner NUL comes back cut at the
    NUL (and, when long enough, with part of its own encoding left in the
    remainder); a String with a multi-byte UTF-8 sequence loses the
    continuation bytes already in [Append]; a TimeTag before the epoch
    comes back as the epoch. *)
Lemma Consume_Append_counterexample :
  Consume (String_ "") (Append (String_ text_with_nul) [] ++ [x01])
    = Ok (String_ "a", [x01]) /\
  Consume (String_ "") (Append (String_ text_with_nul) [] ++ [x01])
    <> Ok (String_ text_with_nul, [x01]) /\
  Consume (String_ "") (Append (String_ long_text_with_nul) [] ++ [x01])
    = Ok (String_ "a", [x64; x00; x00; x00; x01]) /\
  Consume (String_ "") (Append (String_ text_e_acute) [] ++ [x01])
    <> Ok (String_ text_e_acute, [x01]) /\
  Consume (TimeTag zeroTime) (Append (TimeTag (-1)) [] ++ [x01])
    = Ok (TimeTag 0, [x01]) /\
  Consume (TimeTag zeroTime) (Append (TimeTag (-1)) [] ++ [x01])
    <> Ok (TimeTag (-1), [x01]).
Proof.
  repeat split; try (vm_compute; reflexivity); vm_compute; discriminate.
Qed.

(** ** Round trip of a message *)

Lemma String_Append_after_aligned (str : string) (b : list byte) :
  len b mod 4 = 0 -> String_Append str b = b ++ String_Append str [].
Proof.
  intros Hb. rewrite !String_Append_shape. cbn [app].
  change (len (@nil byte)) with 0. rewrite Z.add_0_l.
  do 4 f_equal.
  replace (- (len b + len (append_range str []) + 1))
    with (- (len (append_range str []) + 1) + (- len b)) by lia.
  rewrite <- Z.add_mod_idemp_r by lia.
  rewrite (neg_mod4 _ _ Hb). simpl ((4 - 0) mod 4). now rewrite Z.add_0_r.
Qed.

Lemma Append_after_aligned (a : Argument) (b : list byte) :
  len b mod 4 = 0 -> Append a b = b ++ Append a [].
Proof.
  intros Hb. destruct a as [i|f|str|t| | | | ]; simpl Append;
    try (now rewrite app_nil_r); try reflexivity.
  - now apply String_Append_after_aligned.
  - unfold TimeTag_Append. destruct (F64.leb _ _); [reflexivity|].
    destruct (F64.Modf _). reflexivity.
Qed.

Lemma len_mod4_app (a b : list byte) :
  len a mod 4 = 0 -> len b mod 4 = 0 -> len (a ++ b) mod 4 = 0.
Proof.
  intros Ha Hb. rewrite len_app, Z.add_mod, Ha, Hb by lia. reflexivity.
Qed.

Lemma fold_Append_aligned (args : list Argument) (b : list byte) :
  len b mod 4 = 0 ->
  fold_left (fun b a => Append a b) args b = b ++ encode_args args.
Proof.
  revert b. induction args as [|a args IH]; intros b Hb; simpl.
  - now rewrite app_nil_r.
  - rewrite (Append_after_aligned a b Hb).
    rewrite IH by (apply len_mod4_app; [exact Hb|apply len_Append_nil_mod4]).
    unfold encode_args. now rewrite <- app_assoc.
Qed.

Lemma EncodeRune_tag (a : Argument) : EncodeRune (TypeTag_of a) = [tag_byte a].
Proof. destruct a; reflexivity. Qed.

Lemma tag_byte_val (a : Argument) : byte_val (tag_byte a) = TypeTag_of a.
Proof. destruct a; reflexivity. Qed.

Lemma tag_byte_ascii (a : Argument) : ascii_byte (tag_byte a).
Proof. unfold ascii_byte. rewrite tag_byte_val. destruct a; simpl; lia. Qed.

Lemma type_tag_string (args : list Argument) :
  string_of_runes (fold_left (fun tags a => tags ++ [TypeTag_of a]) args [comma])
  = string_of_list_byte (x2c :: map tag_byte args).
Proof.
  rewrite fold_left_snoc. unfold string_of_runes. f_equal.
  cbn [app map concat]. change (EncodeRune comma) with [x2c]. cbn [app].
  f_equal. induction args as [|a args IH]; [reflexivity|].
  cbn [map concat]. now rewrite EncodeRune_tag, IH.
Qed.

Lemma Message_Append_nil (m : Message) :
  Message_Append m [] =
  String_Append (Pattern_ m) [] ++
  String_Append (string_of_list_byte (x2c :: map tag_byte (Arguments_ m))) [] ++
  encode_args (Arguments_ m).
Proof.
  unfold Message_Append. cbv zeta. rewrite type_tag_string.
  rewrite fold_Append_aligned.
  - rewrite String_Append_after_aligned by apply len_String_Append.
    now rewrite <- app_assoc.
  - apply len_String_Append.
Qed.

Lemma newByTypeTag_TypeTag_of (a : Argument) :
  exists a0, newByTypeTag (TypeTag_of a) = Some a0 /\ TypeTag_of a0 = TypeTag_of a.
Proof. destruct a; eexists; split; reflexivity. Qed.

Lemma parse_args_encode (args : list Argument) :
  Forall wire_exact args ->
  forall (tags : list (Z * Z)) (acc : list Argument) (rest : list byte),
    map snd tags = map TypeTag_of args ->
    parse_args tags (encode_args args ++ rest) acc = Ok (acc ++ args).
Proof.
  induction 1 as [|a args Ha Hall IH]; intros tags acc rest Htags.
  - destruct tags; [|discriminate]. simpl. now rewrite app_nil_r.
  - destruct tags as [|[i t] tags]; [discriminate|].
    cbn [map snd] in Htags. injection Htags as Ht Htags. subst t.
    cbn [parse_args].
    destruct (newByTypeTag_TypeTag_of a) as (a0 & -> & Ha0).
    unfold encode_args. cbn [map concat]. rewrite <- app_assoc.
    rewrite (Consume_Append a a0 _ Ha Ha0). cbn [wrap rbind].
    fold (encode_args args). rewrite (IH tags (acc ++ [a]) rest Htags).
    now rewrite <- app_assoc.
Qed.

Lemma string_tail_of_list_byte (b : byte) (l : list byte) :
  string_tail (string_of_list_byte (b :: l)) = string_of_list_byte l.
Proof. reflexivity. Qed.

Lemma ParseMessage_Message_Append (m : Message) :
  ascii_text (Pattern_ m) -> Forall wire_exact (Arguments_ m) ->
  ParseMessage (Message_Append m []) = Ok m.
Proof.
  intros Haddr Hargs. destruct m as [addr args]. cbn [Pattern_ Arguments_] in *.
  rewrite Message_Append_nil. cbn [Pattern_ Arguments_].
  set (tags := string_of_list_byte (x2c :: map tag_byte args)).
  assert (Htags : ascii_text tags).
  { unfold ascii_text, tags. rewrite list_byte_of_string_of_list_byte.
    constructor; [split; reflexivity|].
    apply Forall_forall. intros b Hb. apply list_elem_of_fmap in Hb as (a & -> & _).
    apply tag_byte_ascii. }
  unfold ParseMessage.
  rewrite (String_roundtrip addr _ Haddr). cbn [wrap rbind].
  rewrite <- (app_nil_r (encode_args args)).
  rewrite (String_roundtrip tags _ Htags). cbn [wrap rbind].
  replace (slen tags =? 0) with false by reflexivity.
  replace (Byte.eqb (string_index tags 0) x2c) with true by reflexivity.
  cbn [negb orb].
  rewrite parse_args_encode; [reflexivity|exact Hargs|].
  unfold tags. rewrite string_tail_of_list_byte.
  unfold range_string. rewrite list_byte_of_string_of_list_byte.
  rewrite range_runes_ascii_runes.
  - rewrite map_map. apply map_ext. intros a. apply tag_byte_val.
  - apply Forall_forall. intros b Hb. apply list_elem_of_fmap in Hb as (a & -> & _).
    apply tag_byte_ascii.
Qed.

(** C3, as amended. For every Message [m] whose address and String
    arguments are made of non-NUL ASCII bytes, whose Int32 and Float32
    arguments are 32-bit values and whose TimeTag arguments are a whole
    number of seconds, at most [2^32 - 1], after the epoch,
    [ParseMessage(m.Append(nil))] succeeds and returns [m] (Float32 values,
    NaN included, are compared by bit pattern), and encoding the parsed
    message again gives the same bytes as [m.Append(nil)]. *)
Theorem ParseMessage_Append_roundtrip (m : Message) :
  ascii_text (Pattern_ m) -> Forall wire_value (Arguments_ m) ->
  exists m', ParseMessage (Message_Append m []) = Ok m' /\ m' = m /\
             Message_Append m' [] = Message_Append m [].
Proof.
  intros Haddr Hargs. exists m.
  split; [|split; reflexivity].
  apply ParseMessage_Message_Append; [exact Haddr|].
  eapply Forall_impl; [exact Hargs|]. exact wire_value_exact.
Qed.

Lemma ParseMessage_Append_roundtrip_witness :
  exists m',
    ParseMessage
      (Message_Append
         (mkMessage "/hi" [Int32 (-2); String_ "abcd"; True_; Null;
                           TimeTag 4002438896000000000; Float32 2143289344]) [])
    = Ok m' /\
    m' = mkMessage "/hi" [Int32 (-2); String_ "abcd"; True_; Null;
                          TimeTag 4002438896000000000; Float32 2143289344] /\
    Message_Append m' [] =
    Message_Append
      (mkMessage "/hi" [Int32 (-2); String_ "abcd"; True_; Null;
                        TimeTag 4002438896000000000; Float32 2143289344]) [].
Proof.
  apply (ParseMessage_Append_roundtrip
           (mkMessage "/hi" [Int32 (-2); String_ "abcd"; True_; Null;
                             TimeTag 4002438896000000000; Float32 2143289344])).
  - unfold ascii_text. vm_compute.
    repeat (constructor; [split; reflexivity|]). constructor.
  - cbn [Arguments_].
    constructor; [unfold wire_value, int32_range; lia|].
    constructor.
    { unfold wire_value, ascii_text. vm_compute.
      repeat (constructor; [split; reflexivity|]). constructor. }
    constructor; [exact I|]. constructor; [exact I|].
    constructor; [exists 4002438896; split; [lia|reflexivity]|].
    constructor; [unfold wire_value, uint32_range; lia|].
    constructor.
Defined.

(** C3 fails as stated: an address with an inner NUL makes the encoding
    unparsable; a String argument with an inner NUL decodes to a different
    message whose encoding differs from the first one; a TimeTag before
    the epoch decodes to the epoch. *)
Lemma ParseMessage_Append_counterexample :
  ParseMessage (Message_Append (mkMessage long_text_with_nul []) [])
    = Err (Errorf "invalid type tag string: %q") /\
  ParseMessage (Message_Append (mkMessage "/a" [String_ text_with_nul]) [])
    = Ok (mkMessage "/a" [String_ "a"]) /\
  Message_Append (mkMessage "/a" [String_ "a"]) []
    <> Message_Append (mkMessage "/a" [String_ text_with_nul]) [] /\
  ParseMessage (Message_Append (mkMessage "/a" [TimeTag (-1)]) [])
    = Ok (mkMessage "/a" [TimeTag 0]) /\
  ParseMessage (Message_Append (mkMessage "/a" [TimeTag (-1)]) [])
    <> Ok (mkMessage "/a" [TimeTag (-1)]).
Proof.
  repeat split; try (vm_compute; reflexivity); vm_compute; discriminate.
Qed.

(** ** Pattern.Match: termination *)

Lemma stack_cost_app (a b : list matchState) :
  stack_cost (a ++ b) = (stack_cost a + stack_cost b)%nat.
Proof.
  unfold stack_cost. induction a as [|st a IH]; simpl; [reflexivity|].
  rewrite IH. lia.
Qed.

Lemma state_cost_pos (st : matchState) : (0 < state_cost st)%nat.
Proof.
  unfold state_cost. generalize (state_size st). intros k.
  induction k as [|k IH]; simpl; lia.
Qed.

(** The states pushed by one step cost less than the state popped. *)
Lemma match_next_cost (st : matchState) (next : list matchState) (accept : bool) :
  matchState_match st = (next, accept) ->
  (stack_cost next < state_cost st)%nat.
Proof.
  destruct st as [ms str]. unfold matchState_match. cbn [s matchers].
  destruct str as [|c rest].
  { intros E. injection E as <- _. apply state_cost_pos. }
  destruct ms as [|m0 ms].
  { intros E. injection E as <- _. apply state_cost_pos. }
  destruct (matcher_match m0 (byte_of_ascii c) =? noMatch).
  { intros E. injection E as <- _. apply state_cost_pos. }
  intros E. injection E as <- _.
  unfold state_cost, state_size. cbn [matchers s length String.length].
  set (k := (length ms + String.length rest)%nat).
  replace (S (length ms) + S (String.length rest))%nat with (S (S k)) by lia.
  assert (Hk : (0 < 4 ^ k)%nat).
  { clear. induction k as [|k IH]; simpl; lia. }
  assert (Hcost : forall l, (stack_cost l <= 4 ^ k + 4 ^ S k + 4 ^ S k)%nat ->
                            (stack_cost l < 4 ^ S (S k))%nat).
  { intros l Hl. simpl in *. lia. }
  apply Hcost.
  destruct (negb (Z.land _ matchAdvanceBoth =? 0));
    destruct (negb (Z.land _ matchAdvanceMatcher =? 0));
    destruct (negb (Z.land _ matchAdvanceInput =? 0));
    cbn [app]; unfold stack_cost, state_cost, state_size;
    cbn [fold_right matchers s length String.length];
    fold k;
    replace (length ms + S (String.length rest))%nat with (S k) by lia;
    replace (S (length ms) + String.length rest)%nat with (S k) by lia;
    simpl; lia.
Qed.

(** Every iteration that does not return lowers the cost of the stack. *)
Lemma Match_iter_cost (depth : nat) (states states' : list matchState) :
  Match_iter depth states = inl states' ->
  (stack_cost states' + 2 ^ depth <= stack_cost states)%nat.
Proof.
  revert states states'. induction depth as [|depth IH]; intros states states'.
  - cbn [Match_iter]. unfold Match_step.
    destruct (last states) as [st|] eqn:El; [|discriminate].
    destruct (matchState_match st) as [next accept] eqn:Em.
    destruct accept; [discriminate|]. intros E. injection E as <-.
    apply last_Some in El as [init ->]. rewrite removelast_last.
    rewrite !stack_cost_app. pose proof (match_next_cost _ _ _ Em) as Hn.
    change (stack_cost [st]) with (state_cost st + 0)%nat.
    change (2 ^ 0)%nat with 1%nat. lia.
  - cbn [Match_iter]. destruct (Match_iter depth states) as [mid|b] eqn:E1;
      [|discriminate].
    intros E2. apply IH in E1. apply IH in E2.
    rewrite Nat.pow_succ_r'. lia.
Qed.

(** [Pattern.Match] returns: the loop ends within [stack_cost] iterations. *)
Lemma Match_iter_enough (depth : nat) (states : list matchState) :
  (stack_cost states < 2 ^ depth)%nat -> exists b, Match_iter depth states = inr b.
Proof.
  intros Hc. destruct (Match_iter depth states) as [states'|b] eqn:E.
  - apply Match_iter_cost in E. lia.
  - now exists b.
Qed.

Lemma Match_iter_mono (depth depth' : nat) (states : list matchState) (b : bool) :
  Match_iter depth states = inr b -> (depth <= depth')%nat ->
  Match_iter depth' states = inr b.
Proof.
  intros H Hle. induction Hle as [|depth' Hle IH]; [exact H|].
  cbn [Match_iter]. now rewrite IH.
Qed.

Lemma pow4_lt_pow2 (k : nat) : (4 ^ k + 0 < 2 ^ S (2 * k))%nat.
Proof.
  induction k as [|k IH]; [simpl; lia|].
  replace (2 * S k)%nat with (S (S (2 * k))) by lia.
  rewrite (Nat.pow_succ_r' 4 k), (Nat.pow_succ_r' 2 (S (S (2 * k)))),
          (Nat.pow_succ_r' 2 (S (2 * k))). lia.
Qed.

(** [Pattern.Match] is total: the depth it runs with is never exhausted. *)
Lemma Pattern_Match_returns (pat : Pattern) (input : string) :
  Match_iter (S (2 * state_size (mkState pat input))) [mkState pat input]
  = inr (Pattern_Match pat input).
Proof.
  unfold Pattern_Match.
  destruct (Match_iter_enough (S (2 * state_size (mkState pat input)))
              [mkState pat input]) as [b Hb].
  - unfold stack_cost. cbn [fold_right]. apply pow4_lt_pow2.
  - now rewrite Hb.
Qed.

(** A result obtained at any depth is the result of [Match]. *)
Lemma Pattern_Match_depth (depth : nat) (pat : Pattern) (input : string) (b : bool) :
  Match_iter depth [mkState pat input] = inr b -> Pattern_Match pat input = b.
Proof.
  intros H. pose proof (Pattern_Match_returns pat input) as Hr.
  set (d := S (2 * state_size (mkState pat input))) in *.
  pose proof (Match_iter_mono _ (depth + d) _ _ H ltac:(lia)) as H1.
  pose proof (Match_iter_mono _ (depth + d) _ _ Hr ltac:(lia)) as H2.
  congruence.
Qed.

(** A pattern made of one matcher that consumes exactly one byte. *)
Lemma single_matcher_Match (m : matcher) (input : string) :
  m <> wildcard false ->
  (forall b, matcher_match m b = noMatch \/ matcher_match m b = matchAdvanceBoth) ->
  Pattern_Match [m] input =
  match input with
  | String.String c EmptyString => negb (matcher_match m (byte_of_ascii c) =? noMatch)
  | _ => false
  end.
Proof.
  intros Hm Hres. apply (Pattern_Match_depth 2).
  assert (Hom : only_multi [m] = false).
  { destruct m as [c|[|]|cc]; try reflexivity. contradiction. }
  destruct input as [|c [|d rest]];
    cbn [Match_iter]; unfold Match_step at 1; cbn [last removelast app].
  - unfold matchState_match. cbn [s matchers]. rewrite Hom. reflexivity.
  - unfold matchState_match at 1. cbn [s matchers].
    destruct (Hres (byte_of_ascii c)) as [-> | ->]; reflexivity.
  - unfold matchState_match at 1. cbn [s matchers].
    destruct (Hres (byte_of_ascii c)) as [-> | ->]; reflexivity.
Qed.

(** ** Pattern.Match: wildcards and character classes *)

(** C7. The pattern made of the single matcher [?] matches every
    one-character string and no string of another length; the pattern
    [a*] (literal [a], then the multi-wildcard) matches "a" and "abc" but
    neither "b" nor the empty string; the pattern [*a] matches "a" and
    "xa" but not "ax". *)
Theorem Pattern_Match_wildcards :
  (forall input : string,
      Pattern_Match [wildcard true] input = true <-> String.length input = 1%nat) /\
  Pattern_Match [charMatcher x61; wildcard false] "a" = true /\
  Pattern_Match [charMatcher x61; wildcard false] "abc" = true /\
  Pattern_Match [charMatcher x61; wildcard false] "b" = false /\
  Pattern_Match [charMatcher x61; wildcard false] "" = false /\
  Pattern_Match [wildcard false; charMatcher x61] "a" = true /\
  Pattern_Match [wildcard false; charMatcher x61] "xa" = true /\
  Pattern_Match [wildcard false; charMatcher x61] "ax" = false.
Proof.
  split; [|repeat split; vm_compute; reflexivity].
  intros input. rewrite single_matcher_Match.
  - destruct input as [|c [|d rest]]; simpl; split; intros H;
      try discriminate H; reflexivity.
  - discriminate.
  - intros b. right. reflexivity.
Qed.

Lemma charClass_match_cases (cc : charClass) (b : byte) :
  charClass_match cc b = noMatch \/ charClass_match cc b = matchAdvanceBoth.
Proof. unfold charClass_match. destruct (negb _); [right|left]; reflexivity. Qed.

(** C6. The class compiled from "[a-e]" matches exactly the bytes [a],
    [b], [c], [d], [e], and the one compiled from "[!a-e]" exactly every
    other byte, both as a matcher applied to a byte and as a one-matcher
    pattern applied to a string; [parseCharClass("[b-a]")] fails with the
    invalid-range error. *)
Theorem parseCharClass_ranges :
  (exists cc, parseCharClass "[a-e]" = Ok (cc, ""%string) /\
     (forall b, charClass_match cc b =
                if is_a_to_e b then matchAdvanceBoth else noMatch) /\
     (forall input, Pattern_Match [classMatcher cc] input =
                    match input with
                    | String.String c EmptyString => is_a_to_e (byte_of_ascii c)
                    | _ => false
                    end)) /\
  (exists cc, parseCharClass "[!a-e]" = Ok (cc, ""%string) /\
     (forall b, charClass_match cc b =
                if is_a_to_e b then noMatch else matchAdvanceBoth) /\
     (forall input, Pattern_Match [classMatcher cc] input =
                    match input with
                    | String.String c EmptyString => negb (is_a_to_e (byte_of_ascii c))
                    | _ => false
                    end)) /\
  parseCharClass "[b-a]" = Err (Errorf "invalid range %c-%c, %c<%c").
Proof.
  split; [|split; [|vm_compute; reflexivity]].
  - eexists. split; [vm_compute; reflexivity|].
    match goal with |- (forall b, charClass_match ?cc b = _) /\ _ =>
      assert (Hb : forall b, charClass_match cc b =
                             if is_a_to_e b then matchAdvanceBoth else noMatch)
        by (intros b; destruct b; vm_compute; reflexivity)
    end.
    split; [exact Hb|]. intros input.
    rewrite single_matcher_Match;
      [|discriminate|intros b; apply charClass_match_cases].
    destruct input as [|c [|d rest]]; try reflexivity.
    cbn [matcher_match]. rewrite Hb. now destruct (is_a_to_e _).
  - eexists. split; [vm_compute; reflexivity|].
    match goal with |- (forall b, charClass_match ?cc b = _) /\ _ =>
      assert (Hb : forall b, charClass_match cc b =
                             if is_a_to_e b then noMatch else matchAdvanceBoth)
        by (intros b; destruct b; vm_compute; reflexivity)
    end.
    split; [exact Hb|]. intros input.
    rewrite single_matcher_Match;
      [|discriminate|intros b; apply charClass_match_cases].
    destruct input as [|c [|d rest]]; try reflexivity.
    cbn [matcher_match]. rewrite Hb. now destruct (is_a_to_e _).
Qed.

(** ** parseMatcher *)

Lemma slen_String (c : ascii) (rest : string) :
  (slen (String.String c rest) =? 0) = false.
Proof. apply Z.eqb_neq. unfold slen. cbn [String.length]. lia. Qed.

Lemma parseMatcher_nonempty (c : ascii) (rest : string) :
  parseMatcher (String.String c rest) = Err (Errorf "unexpected end of input").
Proof. unfold parseMatcher. now rewrite slen_String. Qed.

(** C1, on the code: [parseMatcher] tests [len(s) != 0] where the
    exhausted input is meant, so it rejects every non-empty input with
    "unexpected end of input" and, on the empty string, goes on to index
    [s[0]] and panics. The matcher that the first byte selects is never
    returned; [parseMatcher_spec], the behaviour specified, returns it. *)
Theorem parseMatcher_rejects_every_input :
  (forall (c : ascii) (rest : string),
      parseMatcher (String.String c rest) = Err (Errorf "unexpected end of input")) /\
  parseMatcher "" = Panic "index out of range [0] with length 0" /\
  parseMatcher "a" = Err (Errorf "unexpected end of input") /\
  parseMatcher_spec "a" = Ok (charMatcher x61, ""%string) /\
  parseMatcher "*b" = Err (Errorf "unexpected end of input") /\
  parseMatcher_spec "*b" = Ok (wildcard false, "b"%string) /\
  parseMatcher_spec "" = Err (Errorf "unexpected end of input").
Proof.
  split; [exact parseMatcher_nonempty|].
  repeat split; vm_compute; reflexivity.
Qed.

(** ** Listener.handle *)

Lemma calls_app (a b : list event) : calls (a ++ b) = calls a ++ calls b.
Proof. apply omap_app. Qed.

Lemma logged_app (a b : list event) : logged (a ++ b) = logged a ++ logged b.
Proof. apply omap_app. Qed.

(** The loop over the handler table calls, in table order, every handler
    whose text the pattern matches, whatever the handlers return, and logs
    one line for each of them that returns an error. *)
Lemma handle_loop_spec (pattern : Pattern) (msg : Message) (hs : list handler) :
  forall (i : nat) (tr : list event),
  exists tr',
    handle_loop pattern msg i hs tr = tr ++ tr' /\
    calls tr' = map (fun ih => (fst ih, msg)) (matching pattern (indexed i hs)) /\
    logged tr' = map (fun _ => handler_error_line)
                     (failing msg (matching pattern (indexed i hs))).
Proof.
  induction hs as [|hd hs IH]; intros i tr.
  - exists []. simpl. now rewrite app_nil_r.
  - cbn [handle_loop indexed]. unfold matching, failing in *.
    cbn [List.filter snd].
    destruct (Pattern_Match pattern (p hd)) eqn:Em.
    + cbn [List.filter snd map fst].
      destruct (h hd msg) as [err|] eqn:Eh.
      * destruct (IH (S i) ((tr ++ [Handled i msg]) ++ [Logged handler_error_line]))
          as (tr' & E & Hc & Hl).
        exists ([Handled i msg; Logged handler_error_line] ++ tr').
        split; [|split].
        -- unfold handler_error_line in *. rewrite E, <- !app_assoc. reflexivity.
        -- rewrite calls_app, Hc. reflexivity.
        -- rewrite logged_app, Hl. reflexivity.
      * destruct (IH (S i) (tr ++ [Handled i msg])) as (tr' & E & Hc & Hl).
        exists ([Handled i msg] ++ tr').
        split; [|split].
        -- rewrite E, <- !app_assoc. reflexivity.
        -- rewrite calls_app, Hc. reflexivity.
        -- rewrite logged_app, Hl. reflexivity.
    + destruct (IH (S i) tr) as (tr' & E & Hc & Hl).
      exists tr'. split; [exact E|split; assumption].
Qed.

(** C4. For a decoded message [msg] whose address [ParsePattern] compiles
    to [pattern], the dispatch step calls [Handle(msg)] on exactly the
    registered handlers whose registered text [pattern] matches, each once
    and in table order, and returns no error; every handler that returns an
    error costs one logged line and nothing else: the handlers called do
    not depend on what the handlers return. *)
Theorem handle_dispatches_matching
        (ParsePattern : string -> result Pattern)
        (l : Listener) (msg : Message) (pattern : Pattern) (tr : list event) :
  ParsePattern (Pattern_ msg) = Ok pattern ->
  exists tr',
    handle ParsePattern l (Some msg) tr = (tr ++ tr', Ok tt) /\
    calls tr' = map (fun ih => (fst ih, msg))
                    (matching pattern (indexed 0 (handlers l))) /\
    logged tr' = map (fun _ => handler_error_line)
                     (failing msg (matching pattern (indexed 0 (handlers l)))).
Proof.
  intros Hp. unfold handle. rewrite Hp.
  destruct (handle_loop_spec pattern msg (handlers l) 0%nat tr) as (tr' & E & Hc & Hl).
  exists tr'. rewrite E. split; [reflexivity|split; assumption].
Qed.

(** When the address does not compile, no handler is called and the error
    is returned to the worker. *)
Lemma handle_compile_error
      (ParsePattern : string -> result Pattern)
      (l : Listener) (msg : Message) (e : error) (tr : list event) :
  ParsePattern (Pattern_ msg) = Err e ->
  handle ParsePattern l (Some msg) tr = (tr, Err e).
Proof. intros Hp. unfold handle. now rewrite Hp. Qed.

Lemma handle_dispatches_matching_witness :
  exists pattern tr',
    ParsePattern_with parseMatcher_spec (Pattern_ demo_message) = Ok pattern /\
    handle (ParsePattern_with parseMatcher_spec) demo_listener (Some demo_message) []
    = ([] ++ tr', Ok tt) /\
    calls tr' = [(0%nat, demo_message); (2%nat, demo_message)] /\
    logged tr' = [handler_error_line].
Proof.
  assert (Hp : ParsePattern_with parseMatcher_spec (Pattern_ demo_message)
               = Ok [charMatcher x2f; charMatcher x74; charMatcher x65;
                     charMatcher x73; charMatcher x74; charMatcher x2f;
                     wildcard false])
    by (vm_compute; reflexivity).
  destruct (handle_dispatches_matching (ParsePattern_with parseMatcher_spec)
              demo_listener demo_message _ [] Hp) as (tr' & E & Hc & Hl).
  eexists. exists tr'. split; [exact Hp|]. split; [exact E|]. split.
  - rewrite Hc. vm_compute. reflexivity.
  - rewrite Hl. vm_compute. reflexivity.
Defined.

(** With the [parseMatcher] of the sources, compiling any non-empty address
    fails, so the dispatch of any message with a non-empty address returns
    the error without calling a handler. *)
Lemma ParsePattern_with_parseMatcher (c : ascii) (rest : string) :
  ParsePattern_with parseMatcher (String.String c rest)
  = Err (Errorf "unexpected end of input").
Proof.
  unfold ParsePattern_with. cbn [String.length ParsePattern_loop].
  now rewrite parseMatcher_nonempty.
Qed.

(** ** Listener.Serve *)

Lemma ParseMessage_no_panic (buf : list byte) (reason : string) :
  ParseMessage buf <> Panic reason.
Proof.
  assert (Hargs : forall tags b acc, parse_args tags b acc <> Panic reason).
  { induction tags as [|[i t] tags IH]; intros b acc; cbn [parse_args];
      [discriminate|].
    destruct (newByTypeTag t) as [a|]; [|discriminate].
    assert (Hc : forall r, Consume a b = Panic r -> False).
    { intros r. destruct a; cbn [Consume];
        unfold Int32_Consume, Float32_Consume, String_Consume, TimeTag_Consume;
        repeat match goal with |- context [if ?c then _ else _] => destruct c end;
        discriminate. }
    destruct (Consume a b) as [[a' b']| |r] eqn:E; cbn [wrap rbind];
      [apply IH|discriminate|exfalso; now apply (Hc r)]. }
  unfold ParseMessage, String_Consume.
  repeat match goal with
         | |- context [if ?c then _ else _] => destruct c; cbn [wrap rbind]
         end; try discriminate.
  match goal with |- context [parse_args ?t ?b ?a] =>
    specialize (Hargs t b a); destruct (parse_args t b a) end;
    cbn [rbind]; congruence.
Qed.

(** A datagram that does not decode is logged and then sent to the workers
    as a nil message, whenever the queue has room and the context is live. *)
Lemma decode_iter_undecodable (rd : ReadFrom) (pick : bool) (st : Serving) :
  n rd > 0 -> is_Ok (ParseMessage (data rd)) = false ->
  ctx_err st = None -> len (recv st) < recv_cap -> read_err rd = None ->
  decode_iter rd pick st =
  Running (mkServing (recv st ++ [None]) None
                     (trace st ++ [Logged invalid_message_line])).
Proof.
  intros Hn Hbad Hctx Hroom Hread. unfold decode_iter.
  replace (n rd >? 0) with true by (symmetry; apply Z.gtb_lt; lia).
  destruct (ParseMessage (data rd)) as [m| |]; [discriminate| |];
    cbn [log recv ctx_err trace]; rewrite Hctx, Hread;
    (replace (len (recv st) <? recv_cap) with true
      by (symmetry; apply Z.ltb_lt; exact Hroom)); reflexivity.
Qed.

(** C2, on the code: a datagram whose bytes fail to decode is logged, but
    the decoding task then goes on to the [select] and sends the nil
    message to the workers; the worker that receives it dereferences it in
    [handle] and panics. The datagram is not dropped and the server does
    not go on serving. [ParsePattern] is not reached. *)
Theorem Serve_enqueues_undecodable_datagram
        (ParsePattern : string -> result Pattern) (l : Listener) :
  ParseMessage (data undecodable)
    = Err (Wrapf "reading address pattern: %w" (Errorf "no termination in string %q")) /\
  decode_iter undecodable true started
    = Running (mkServing [None] None [Logged invalid_message_line]) /\
  worker_iter ParsePattern l true
              (mkServing [None] None [Logged invalid_message_line])
    = Crashed nil_dereference (mkServing [] None [Logged invalid_message_line]).
Proof. repeat split; reflexivity. Qed.

(** * Further properties of the code *)

(** ** Pattern.Match against the language of the pattern *)

Lemma append_nil_inv (s1 s2 : string) :
  EmptyString = String.append s1 s2 -> s1 = EmptyString /\ s2 = EmptyString.
Proof. destruct s1; simpl; [intros <-; split; reflexivity|discriminate]. Qed.

(** On exhausted input, only [*] matchers may remain. *)
Lemma denotes_empty (ms : list matcher) :
  denotes ms EmptyString <-> only_multi ms = true.
Proof.
  induction ms as [|m ms IH]; cbn [denotes only_multi]; [tauto|].
  split.
  - intros (s1 & s2 & E & Hm & Hd). apply append_nil_inv in E as [-> ->].
    destruct m as [c|[|]|cc]; cbn [matcher_lang] in Hm.
    + discriminate Hm.
    + discriminate Hm.
    + now apply IH.
    + destruct Hm as (c & Hc & _). discriminate Hc.
  - destruct m as [c|[|]|cc]; try discriminate. intros H.
    exists EmptyString, EmptyString. split; [reflexivity|]. split; [exact I|].
    now apply IH.
Qed.

(** A matcher that stands for one byte, in front of a non-empty input. *)
Lemma denotes_one_byte (m : matcher) (ms : list matcher) (c : ascii) (rest : string) :
  (forall str, matcher_lang m str ->
               exists x, str = String.String x EmptyString) ->
  denotes (m :: ms) (String.String c rest) <->
  matcher_lang m (String.String c EmptyString) /\ denotes ms rest.
Proof.
  intros Hone. cbn [denotes]. split.
  - intros (s1 & s2 & E & Hm & Hd).
    destruct (Hone _ Hm) as [x ->]. cbn [String.append] in E.
    injection E as -> ->. split; assumption.
  - intros [Hm Hd]. exists (String.String c EmptyString), rest.
    split; [reflexivity|]. split; assumption.
Qed.

Lemma denotes_star (ms : list matcher) (c : ascii) (rest : string) :
  denotes (wildcard false :: ms) (String.String c rest) <->
  denotes ms (String.String c rest) \/ denotes (wildcard false :: ms) rest.
Proof.
  cbn [denotes matcher_lang]. split.
  - intros (s1 & s2 & E & _ & Hd). destruct s1 as [|x s1]; cbn [String.append] in E.
    + left. now subst s2.
    + injection E as -> ->. right. exists s1, s2. repeat split; assumption.
  - intros [Hd|(s1 & s2 & -> & _ & Hd)].
    + exists EmptyString, (String.String c rest). repeat split; assumption.
    + exists (String.String c s1), s2. repeat split; assumption.
Qed.

Lemma some_accepts_app (a b : list matchState) :
  some_accepts (a ++ b) <-> some_accepts a \/ some_accepts b.
Proof.
  unfold some_accepts. split.
  - intros (st & Hin & Hd). apply elem_of_app in Hin as [Hin|Hin]; eauto.
  - intros [(st & Hin & Hd)|(st & Hin & Hd)]; exists st;
      (split; [apply elem_of_app; auto|exact Hd]).
Qed.

Lemma some_accepts_nil : ~ some_accepts [].
Proof. intros (st & Hin & _). now apply elem_of_nil in Hin. Qed.

Lemma some_accepts_one (st : matchState) :
  some_accepts [st] <-> denotes (matchers st) (s st).
Proof.
  unfold some_accepts. split.
  - intros (st' & Hin & Hd). apply list_elem_of_singleton in Hin. now subst.
  - intros Hd. exists st. split; [apply list_elem_of_singleton; reflexivity|exact Hd].
Qed.

(** One step of the search: the state popped belongs to the language iff
    the step accepts or one of the states it pushes does. *)
Lemma matchState_match_denotes (st : matchState) (next : list matchState) (accept : bool) :
  matchState_match st = (next, accept) ->
  denotes (matchers st) (s st) <-> accept = true \/ some_accepts next.
Proof.
  destruct st as [ms str]. unfold matchState_match. cbn [s matchers].
  destruct str as [|c rest].
  { intros E. injection E as <- <-. rewrite denotes_empty.
    split; [auto|]. intros [H|H]; [exact H|]. now apply some_accepts_nil in H. }
  destruct ms as [|m0 ms].
  { intros E. injection E as <- <-. cbn [denotes]. split; [discriminate|].
    intros [H|H]; [discriminate|]. now apply some_accepts_nil in H. }
  destruct m0 as [x|[|]|cc]; cbn [matcher_match].
  - (* literal *)
    unfold charMatcher_match. rewrite denotes_one_byte by (cbn; eauto).
    cbn [matcher_lang].
    destruct (Byte.eqb x (byte_of_ascii c)) eqn:Ex.
    + apply Byte.byte_dec_bl in Ex. subst x.
      intros E. vm_compute in E. injection E as <- <-.
      rewrite some_accepts_one. cbn [matchers s].
      rewrite ascii_of_byte_of_ascii. split; [intros [_ H]; auto|].
      intros [H|H]; [discriminate|]. split; [reflexivity|exact H].
    + intros E. vm_compute in E. injection E as <- <-.
      split.
      * intros [Hc _]. injection Hc as Hc. subst c.
        rewrite byte_of_ascii_of_byte in Ex.
        rewrite (proj2 (byte_eqb_eq x x) eq_refl) in Ex. discriminate.
      * intros [H|H]; [discriminate|]. now apply some_accepts_nil in H.
  - (* ? *)
    rewrite denotes_one_byte.
    2:{ cbn [matcher_lang]. intros [|x [|y t]]; try discriminate. eauto. }
    intros E. vm_compute in E. injection E as <- <-.
    rewrite some_accepts_one. cbn [matchers s matcher_lang String.length].
    split; [intros [_ H]; auto|].
    intros [H|H]; [discriminate|]. split; [reflexivity|exact H].
  - (* * *)
    intros E. vm_compute in E. injection E as <- <-.
    rewrite denotes_star.
    change [mkState ms rest; mkState ms (String.String c rest);
            mkState (wildcard false :: ms) rest]
      with ([mkState ms rest] ++ [mkState ms (String.String c rest)] ++
            [mkState (wildcard false :: ms) rest]).
    rewrite !some_accepts_app, !some_accepts_one. cbn [matchers s].
    split.
    + intros [H|H]; auto.
    + intros [H|[H|[H|H]]]; [discriminate| |auto|auto].
      right. exists EmptyString, rest. repeat split; assumption.
  - (* class *)
    unfold charClass_match. rewrite denotes_one_byte.
    2:{ cbn [matcher_lang]. intros str (x & -> & _). eauto. }
    cbn [matcher_lang]. unfold class_has.
    destruct (eqb (chars cc !!! byte_index (byte_of_ascii c)) (invert cc)) eqn:Ec;
      cbn [negb]; intros E; vm_compute in E; injection E as <- <-.
    + split.
      * intros [(x & Hx & Hh) _]. injection Hx as <-.
        apply eqb_prop in Ec. rewrite Ec in Hh. now destruct (invert cc).
      * intros [H|H]; [discriminate|]. now apply some_accepts_nil in H.
    + rewrite some_accepts_one. cbn [matchers s].
      split; [intros [_ H]; auto|].
      intros [H|H]; [discriminate|]. split; [|exact H].
      exists c. split; [reflexivity|].
      destruct (chars cc !!! byte_index (byte_of_ascii c)), (invert cc);
        try reflexivity; discriminate.
Qed.

Lemma Match_step_denotes (states : list matchState) :
  match Match_step states with
  | inr b => b = true <-> some_accepts states
  | inl states' => some_accepts states <-> some_accepts states'
  end.
Proof.
  unfold Match_step. destruct (last states) as [st|] eqn:El.
  - apply last_Some in El as [init ->]. rewrite removelast_last.
    destruct (matchState_match st) as [next accept] eqn:Em.
    pose proof (matchState_match_denotes _ _ _ Em) as Hst.
    destruct accept; cbv iota.
    + rewrite some_accepts_app, some_accepts_one.
      split; [|reflexivity]. intros _. right. apply Hst. now left.
    + rewrite !some_accepts_app, some_accepts_one. rewrite Hst. split.
      * intros [H|[H|H]]; [auto|discriminate|auto].
      * intros [H|H]; auto.
  - apply last_None in El. subst states. split; [discriminate|].
    intros H. now apply some_accepts_nil in H.
Qed.

Lemma Match_iter_denotes (depth : nat) (states : list matchState) :
  match Match_iter depth states with
  | inr b => b = true <-> some_accepts states
  | inl states' => some_accepts states <-> some_accepts states'
  end.
Proof.
  revert states. induction depth as [|depth IH]; intros states; cbn [Match_iter].
  - apply Match_step_denotes.
  - pose proof (IH states) as H1.
    destruct (Match_iter depth states) as [mid|b]; [|exact H1].
    pose proof (IH mid) as H2.
    destruct (Match_iter depth mid) as [states'|b]; now rewrite H1.
Qed.

Lemma Pattern_Match_denotes (pat : Pattern) (input : string) :
  Pattern_Match pat input = true <-> denotes pat input.
Proof.
  pose proof (Pattern_Match_returns pat input) as Hr.
  pose proof (Match_iter_denotes (S (2 * state_size (mkState pat input)))
                [mkState pat input]) as Hd.
  rewrite Hr in Hd. rewrite Hd. apply some_accepts_one.
Qed.

(** ** Consequences for usual patterns *)

Lemma denotes_literal (text input : string) :
  denotes (literal text) input <-> input = text.
Proof.
  unfold literal. revert input.
  induction text as [|c text IH]; intros input; [reflexivity|].
  change (list_byte_of_string (String.String c text))
    with (byte_of_ascii c :: list_byte_of_string text).
  cbn [map denotes matcher_lang]. rewrite ascii_of_byte_of_ascii. split.
  - intros (s1 & s2 & -> & -> & Hd). apply IH in Hd. now subst s2.
  - intros ->. exists (String.String c EmptyString), text.
    split; [reflexivity|]. split; [reflexivity|]. now apply IH.
Qed.

Lemma Pattern_Match_literal (text input : string) :
  Pattern_Match (literal text) input = true <-> input = text.
Proof. rewrite Pattern_Match_denotes. apply denotes_literal. Qed.

Lemma denotes_app (p1 p2 : list matcher) (input : string) :
  denotes (p1 ++ p2) input <->
  exists s1 s2, input = String.append s1 s2 /\ denotes p1 s1 /\ denotes p2 s2.
Proof.
  revert input. induction p1 as [|m p1 IH]; intros input; cbn [app denotes].
  - split.
    + intros H. exists EmptyString, input. repeat split; assumption.
    + intros (s1 & s2 & -> & -> & H). exact H.
  - split.
    + intros (a & b & -> & Hm & Hd). apply IH in Hd as (b1 & b2 & -> & H1 & H2).
      exists (String.append a b1), b2. split; [|split; [|exact H2]].
      * clear. induction a as [|x a IHa]; cbn [String.append]; congruence.
      * exists a, b1. repeat split; assumption.
    + intros (s1 & s2 & -> & (a & b & -> & Hm & H1) & H2).
      exists a, (String.append b s2). split; [|split; [exact Hm|]].
      * clear. induction a as [|x a IHa]; cbn [String.append]; congruence.
      * apply IH. exists b, s2. repeat split; assumption.
Qed.

Lemma denotes_star_only (input : string) : denotes [wildcard false] input.
Proof.
  exists input, EmptyString. split; [|split; [exact I|reflexivity]].
  clear. induction input as [|x a IH]; cbn [String.append]; congruence.
Qed.

(** X3. A literal text followed by [*] matches exactly the inputs that
    start with the text, and [*] followed by a literal text exactly the
    inputs that end with it; [*] alone matches every input. *)
Theorem Match_prefix_suffix (text input : string) :
  (Pattern_Match (literal text ++ [wildcard false]) input = true <->
   exists rest, input = String.append text rest) /\
  (Pattern_Match (wildcard false :: literal text) input = true <->
   exists front, input = String.append front text) /\
  Pattern_Match [wildcard false] input = true.
Proof.
  split; [|split].
  - rewrite Pattern_Match_denotes, denotes_app. split.
    + intros (s1 & s2 & -> & H1 & _). apply denotes_literal in H1. subst s1.
      now exists s2.
    + intros [rest ->]. exists text, rest.
      split; [reflexivity|]. split; [now apply denotes_literal|apply denotes_star_only].
  - rewrite Pattern_Match_denotes. cbn [denotes matcher_lang]. split.
    + intros (s1 & s2 & -> & _ & H). apply denotes_literal in H. subst s2.
      now exists s1.
    + intros [front ->]. exists front, text.
      split; [reflexivity|]. split; [exact I|now apply denotes_literal].
  - apply Pattern_Match_denotes, denotes_star_only.
Qed.

(** X1. [Pattern.Match] decides the language of the pattern: it returns
    true exactly for the texts that split into one piece per matcher, a
    literal taking its own byte, [?] any one byte, a class any one byte it
    accepts and [*] any piece, empty or not. *)
Theorem Match_decides_language (pat : Pattern) (input : string) :
  Pattern_Match pat input = true <-> denotes pat input.
Proof.
  split; intros H.
  - now apply Pattern_Match_denotes.
  - now apply Pattern_Match_denotes.
Qed.

(** X2. A pattern made of literal matchers only matches its own text and
    nothing else. *)
Theorem Match_literal (text input : string) :
  Pattern_Match (literal text) input = true <-> input = text.
Proof.
  split; intros H.
  - now apply Pattern_Match_literal.
  - now apply Pattern_Match_literal.
Qed.

(** X4. The search of [Pattern.Match] terminates: from a pattern of [k]
    matchers and an input of [n] bytes the loop returns within [2 ^ depth]
    iterations as soon as [4 ^ (k + n) < 2 ^ depth], and what it returns
    does not depend on the bound. *)
Theorem Match_terminates (depth : nat) (pat : Pattern) (input : string) :
  (4 ^ (length pat + String.length input) < 2 ^ depth)%nat ->
  Match_iter depth [mkState pat input] = inr (Pattern_Match pat input).
Proof.
  intros Hd.
  destruct (Match_iter_enough depth [mkState pat input]) as [b Hb].
  - unfold stack_cost, state_cost, state_size. cbn [fold_right matchers s]. lia.
  - rewrite Hb. f_equal. symmetry. exact (Pattern_Match_depth _ _ _ _ Hb).
Qed.

Lemma Match_terminates_witness :
  Match_iter 11 [mkState [charMatcher x61; wildcard false] "abc"] = inr true.
Proof.
  apply (Match_terminates 11 [charMatcher x61; wildcard false] "abc").
  vm_compute. lia.
Defined.

(** ** More on the codec *)

Lemma IndexByte_found (b : list byte) (c : byte) :
  0 <= IndexByte b c ->
  exists pre rest, b = pre ++ c :: rest /\ (c ∉ pre) /\ len pre = IndexByte b c.
Proof.
  induction b as [|x b IH]; cbn [IndexByte]; [lia|].
  destruct (Byte.eqb x c) eqn:E.
  - apply byte_eqb_eq in E. subst x. intros _. exists [], b.
    split; [reflexivity|]. split; [apply not_elem_of_nil|reflexivity].
  - apply byte_eqb_neq in E.
    destruct (Z.ltb_spec (IndexByte b c) 0) as [Hlt|Hge]; [lia|]. intros _.
    destruct (IH Hge) as (pre & rest & -> & Hn & Hl).
    exists (x :: pre), rest. split; [reflexivity|]. split.
    + apply not_elem_of_cons. split; [congruence|exact Hn].
    + rewrite <- Hl. unfold len. cbn [length]. lia.
Qed.

(** What a successful [String.Consume] returns, for any buffer. *)
Lemma String_Consume_Ok (b : list byte) (str : string) (rest : list byte) :
  String_Consume b = Ok (str, rest) ->
  exists pre skipped : list byte,
    b = pre ++ x00 :: skipped ++ rest /\ (x00 ∉ pre) /\
    str = string_of_list_byte pre /\ len skipped <= 3 /\
    ((len pre + 1 + len skipped) mod 4 = 0 \/ rest = []).
Proof.
  unfold String_Consume.
  destruct (Z.ltb_spec (IndexByte b x00) 0) as [|Hge]; [discriminate|].
  destruct (IndexByte_found b x00 Hge) as (pre & tl & Hb & Hn & Hl).
  rewrite <- Hl. intros E. injection E as <- <-.
  pose proof (len_nonneg pre) as Hp. pose proof (len_nonneg tl) as Ht.
  set (k := len pre + 4 - len pre mod 4).
  assert (Hk : len pre < k <= len pre + 4 /\ k mod 4 = 0).
  { unfold k. Z.to_euclidean_division_equations. lia. }
  assert (Hlen : len b = len pre + 1 + len tl).
  { rewrite Hb, len_app.
    change (len (x00 :: tl)) with (len ([x00] ++ tl)). rewrite len_app.
    change (len [x00]) with 1. lia. }
  exists pre, (take (Z.to_nat (Z.min k (len b) - len pre - 1)) tl).
  assert (Htake : len (take (Z.to_nat (Z.min k (len b) - len pre - 1)) tl)
                  = Z.min k (len b) - len pre - 1).
  { unfold len at 1. rewrite length_take. unfold len in *. lia. }
  split; [|split; [exact Hn|split; [|split]]].
  - rewrite Hb at 1. f_equal. f_equal.
    rewrite <- (take_drop (Z.to_nat (Z.min k (len b) - len pre - 1)) tl) at 1.
    f_equal. unfold slice_from.
    set (t := Z.to_nat (Z.min k (len b) - len pre - 1)).
    replace (Z.to_nat (Z.min k (len b))) with (length pre + S t)%nat
      by (unfold t, len in *; lia).
    rewrite Hb, drop_app_add. reflexivity.
  - unfold slice_to. rewrite Hb at 1. unfold len. rewrite Nat2Z.id.
    now rewrite take_app_length.
  - rewrite Htake. lia.
  - rewrite Htake.
    destruct (Z.le_gt_cases k (len b)) as [Hle|Hgt].
    + left. replace (Z.min k (len b)) with k by lia.
      replace (len pre + 1 + (k - len pre - 1)) with k by lia. apply Hk.
    + right. unfold slice_from. apply drop_ge. unfold len in *. lia.
Qed.

Lemma len_encode_args_mod4 (args : list Argument) : len (encode_args args) mod 4 = 0.
Proof.
  induction args as [|a args IH]; [reflexivity|].
  unfold encode_args in *. cbn [map concat].
  apply len_mod4_app; [apply len_Append_nil_mod4|exact IH].
Qed.

Lemma len_Message_Append_nil (m : Message) : len (Message_Append m []) mod 4 = 0.
Proof.
  rewrite Message_Append_nil.
  repeat apply len_mod4_app; try apply len_String_Append.
  apply len_encode_args_mod4.
Qed.

Lemma Message_Append_after_aligned (m : Message) (b : list byte) :
  len b mod 4 = 0 -> Message_Append m b = b ++ Message_Append m [].
Proof.
  intros Hb. rewrite Message_Append_nil.
  unfold Message_Append. cbv zeta. rewrite type_tag_string.
  rewrite (String_Append_after_aligned (Pattern_ m) b Hb).
  assert (H1 : len (b ++ String_Append (Pattern_ m) []) mod 4 = 0)
    by (apply len_mod4_app; [exact Hb|apply len_String_Append]).
  rewrite (String_Append_after_aligned _ _ H1).
  rewrite fold_Append_aligned
    by (apply len_mod4_app; [exact H1|apply len_String_Append]).
  now rewrite <- !app_assoc.
Qed.

(** Decoding a prefix of well-formed arguments, whatever tags and bytes
    follow. *)
Lemma parse_args_prefix (args : list Argument) :
  Forall wire_exact args ->
  forall (tags more : list (Z * Z)) (acc : list Argument) (rest : list byte),
    map snd tags = map TypeTag_of args ->
    parse_args (tags ++ more) (encode_args args ++ rest) acc
    = parse_args more rest (acc ++ args).
Proof.
  induction 1 as [|a args Ha Hall IH]; intros tags more acc rest Htags.
  - destruct tags; [|discriminate]. cbn [app]. now rewrite app_nil_r.
  - destruct tags as [|[i t] tags]; [discriminate|].
    cbn [map snd] in Htags. injection Htags as Ht Htags. subst t.
    cbn [app parse_args].
    destruct (newByTypeTag_TypeTag_of a) as (a0 & -> & Ha0).
    unfold encode_args. cbn [map concat]. rewrite <- app_assoc.
    rewrite (Consume_Append a a0 _ Ha Ha0). cbn [wrap rbind].
    fold (encode_args args). rewrite (IH tags more (acc ++ [a]) rest Htags).
    now rewrite <- app_assoc.
Qed.

Lemma ParseMessage_encoded (addr tags : string) (rest : list byte) :
  ascii_text addr -> ascii_text tags ->
  ParseMessage (String_Append addr [] ++ String_Append tags [] ++ rest) =
  if (slen tags =? 0) || negb (Byte.eqb (string_index tags 0) x2c)
  then Err (Errorf "invalid type tag string: %q")
  else rbind (parse_args (range_string (string_tail tags)) rest [])
             (fun args => Ok (mkMessage addr args)).
Proof.
  intros Haddr Htags. unfold ParseMessage.
  rewrite (String_roundtrip addr _ Haddr). cbn [wrap rbind].
  rewrite (String_roundtrip tags _ Htags). cbn [wrap rbind]. reflexivity.
Qed.


Lemma ParseMessage_trailing (m : Message) (extra : list byte) :
  ascii_text (Pattern_ m) -> Forall wire_exact (Arguments_ m) ->
  ParseMessage (Message_Append m [] ++ extra) = Ok m.
Proof.
  intros Haddr Hargs. destruct m as [addr args]. cbn [Pattern_ Arguments_] in *.
  rewrite Message_Append_nil. cbn [Pattern_ Arguments_].
  set (tags := string_of_list_byte (x2c :: map tag_byte args)).
  assert (Htb : Forall ascii_byte (map tag_byte args)).
  { apply Forall_forall. intros b Hb. apply list_elem_of_fmap in Hb as (a & -> & _).
    apply tag_byte_ascii. }
  assert (Htags : ascii_text tags).
  { unfold ascii_text, tags. rewrite list_byte_of_string_of_list_byte.
    constructor; [split; reflexivity|exact Htb]. }
  rewrite <- !app_assoc.
  rewrite (ParseMessage_encoded addr tags _ Haddr Htags).
  replace (slen tags =? 0) with false by reflexivity.
  replace (Byte.eqb (string_index tags 0) x2c) with true by reflexivity.
  cbn [negb orb].
  rewrite <- (app_nil_r (range_string (string_tail tags))).
  rewrite (parse_args_prefix args Hargs); [reflexivity|].
  unfold tags. rewrite string_tail_of_list_byte.
  unfold range_string. rewrite list_byte_of_string_of_list_byte.
  rewrite range_runes_ascii_runes by exact Htb.
  rewrite map_map. apply map_ext. intros a. apply tag_byte_val.
Qed.




Lemma byte_bit_out (b : byte) (j : Z) :
  j < 0 \/ 8 <= j -> Z.testbit (byte_val b) j = false.
Proof.
  intros [Hj|Hj]; [now apply Z.testbit_neg_r|].
  pose proof (byte_val_range b) as Hr.
  rewrite <- (Z.mod_small (byte_val b) 256) by lia. rewrite testbit_byte.
  destruct (Z.ltb_spec j 8); [lia|reflexivity].
Qed.

Lemma Uint32_testbit (b0 b1 b2 b3 : byte) (rest : list byte) (j : Z) :
  0 <= j ->
  Z.testbit (Uint32 (b0 :: b1 :: b2 :: b3 :: rest)) j =
  if j <? 8 then Z.testbit (byte_val b3) j
  else if j <? 16 then Z.testbit (byte_val b2) (j - 8)
  else if j <? 24 then Z.testbit (byte_val b1) (j - 16)
  else Z.testbit (byte_val b0) (j - 24).
Proof.
  intros Hj. unfold Uint32. rewrite !Z.lor_spec, !Z.shiftl_spec by lia.
  destruct (Z.ltb_spec j 8); [|destruct (Z.ltb_spec j 16); [|destruct (Z.ltb_spec j 24)]].
  - rewrite (byte_bit_out b2), (byte_bit_out b1), (byte_bit_out b0) by lia.
    now rewrite !orb_false_r.
  - rewrite (byte_bit_out b3), (byte_bit_out b1), (byte_bit_out b0) by lia.
    now rewrite !orb_false_r.
  - rewrite (byte_bit_out b3), (byte_bit_out b2), (byte_bit_out b0) by lia.
    now rewrite !orb_false_r.
  - rewrite (byte_bit_out b3), (byte_bit_out b2), (byte_bit_out b1) by lia.
    reflexivity.
Qed.

Lemma Uint32_range (b : list byte) : uint32_range (Uint32 b).
Proof.
  unfold uint32_range.
  destruct b as [|b0 [|b1 [|b2 [|b3 rest]]]]; try (cbn; lia).
  assert (E : Uint32 (b0 :: b1 :: b2 :: b3 :: rest) mod 2 ^ 32
              = Uint32 (b0 :: b1 :: b2 :: b3 :: rest)).
  { apply Z.bits_inj'. intros i Hi. rewrite Z.testbit_mod_pow2 by lia.
    destruct (Z.ltb_spec i 32); [reflexivity|]. cbn [andb].
    rewrite Uint32_testbit by lia.
    destruct (Z.ltb_spec i 8); [lia|]. destruct (Z.ltb_spec i 16); [lia|].
    destruct (Z.ltb_spec i 24); [lia|]. symmetry. apply byte_bit_out. lia. }
  rewrite <- E. apply Z.mod_pos_bound. lia.
Qed.

Lemma byte_of_Z_shiftr (U : Z) (k : Z) (b : byte) :
  0 <= k ->
  (forall i, 0 <= i < 8 -> Z.testbit U (i + k) = Z.testbit (byte_val b) i) ->
  byte_of_Z (Z.shiftr U k) = b.
Proof.
  intros Hk Hbits. apply byte_val_inj. rewrite byte_val_of_Z.
  pose proof (byte_val_range b) as Hr.
  rewrite <- (Z.mod_small (byte_val b) 256) by lia.
  apply Z.bits_inj'. intros i Hi. rewrite !testbit_byte.
  destruct (Z.ltb_spec i 8); [|reflexivity]. cbn [andb].
  rewrite Z.shiftr_spec by lia. apply Hbits. lia.
Qed.

(** Every four bytes are the big-endian form of the number they decode to. *)
Lemma AppendUint32_Uint32 (b0 b1 b2 b3 : byte) (rest : list byte) :
  AppendUint32 [] (Uint32 (b0 :: b1 :: b2 :: b3 :: rest)) = [b0; b1; b2; b3].
Proof.
  unfold AppendUint32. cbn [app].
  set (U := Uint32 (b0 :: b1 :: b2 :: b3 :: rest)).
  assert (HU : forall j, 0 <= j -> Z.testbit U j = _)
    by (intros j Hj; exact (Uint32_testbit b0 b1 b2 b3 rest j Hj)).
  rewrite <- (Z.shiftr_0_r U) at 4.
  rewrite (byte_of_Z_shiftr U 24 b0), (byte_of_Z_shiftr U 16 b1),
          (byte_of_Z_shiftr U 8 b2), (byte_of_Z_shiftr U 0 b3); try lia;
    try reflexivity; intros i Hi; rewrite HU by lia;
    repeat match goal with
           | |- context [ ?a <? ?b ] => destruct (Z.ltb_spec a b); try lia
           end; f_equal; lia.
Qed.

Lemma uint32_int32_roundtrip (u : Z) :
  uint32_range u ->
  int32_range (int32_of_uint32 u) /\ uint32_of_int32 (int32_of_uint32 u) = u.
Proof.
  unfold uint32_range, int32_range, int32_of_uint32, uint32_of_int32. intros Hu.
  destruct (Z.ltb_spec u (2 ^ 31)).
  - split; [lia|]. apply Z.mod_small. lia.
  - split; [lia|]. rewrite <- (Z_mod_plus_full (u - 2 ^ 32) 1 (2 ^ 32)).
    replace (u - 2 ^ 32 + 1 * 2 ^ 32) with u by lia. apply Z.mod_small. lia.
Qed.

Lemma len_lt_4_cases {A} (b : list A) :
  len b < 4 \/ exists b0 b1 b2 b3 rest, b = b0 :: b1 :: b2 :: b3 :: rest.
Proof.
  destruct b as [|b0 [|b1 [|b2 [|b3 rest]]]];
    try (left; unfold len; cbn [length]; lia).
  right. eauto 6.
Qed.

Lemma Int32_Consume_any (b : list byte) :
  (len b < 4 /\ Int32_Consume b = Err (Errorf "expect int32, only %d bytes")) \/
  (exists i head rest,
      b = head ++ rest /\ len head = 4 /\ Int32_Consume b = Ok (i, rest) /\
      int32_range i /\ Int32_Append i [] = head).
Proof.
  destruct (len_lt_4_cases b) as [Hlt|(b0 & b1 & b2 & b3 & rest & ->)].
  - left. split; [exact Hlt|]. unfold Int32_Consume.
    destruct (Z.ltb_spec (len b) 4); [reflexivity|lia].
  - right. exists (int32_of_uint32 (Uint32 (b0 :: b1 :: b2 :: b3 :: rest))),
      [b0; b1; b2; b3], rest.
    pose proof (uint32_int32_roundtrip _ (Uint32_range (b0 :: b1 :: b2 :: b3 :: rest)))
      as [Hr Hu].
    split; [reflexivity|]. split; [reflexivity|]. split; [|split; [exact Hr|]].
    + unfold Int32_Consume.
      replace (len (b0 :: b1 :: b2 :: b3 :: rest) <? 4) with false
        by (symmetry; apply Z.ltb_ge; unfold len; cbn [length]; lia).
      reflexivity.
    + unfold Int32_Append. rewrite Hu. apply AppendUint32_Uint32.
Qed.

Lemma Float32_Consume_any (b : list byte) :
  (len b < 4 /\ Float32_Consume b = Err (Errorf "expect float32, only %d bytes")) \/
  (exists bits head rest,
      b = head ++ rest /\ len head = 4 /\ Float32_Consume b = Ok (bits, rest) /\
      uint32_range bits /\ Float32_Append bits [] = head).
Proof.
  destruct (len_lt_4_cases b) as [Hlt|(b0 & b1 & b2 & b3 & rest & ->)].
  - left. split; [exact Hlt|]. unfold Float32_Consume.
    destruct (Z.ltb_spec (len b) 4); [reflexivity|lia].
  - right. exists (Uint32 (b0 :: b1 :: b2 :: b3 :: rest)), [b0; b1; b2; b3], rest.
    split; [reflexivity|]. split; [reflexivity|].
    split; [|split; [apply Uint32_range|]].
    + unfold Float32_Consume.
      replace (len (b0 :: b1 :: b2 :: b3 :: rest) <? 4) with false
        by (symmetry; apply Z.ltb_ge; unfold len; cbn [length]; lia).
      reflexivity.
    + unfold Float32_Append. apply AppendUint32_Uint32.
Qed.

(** ** TimeTag: instants that are not after the epoch *)

Lemma shr_1_nonneg (mrs : shr_record) : 0 <= shr_m mrs -> 0 <= shr_m (shr_1 mrs).
Proof.
  destruct mrs as [m r st]. cbn [shr_m]. intros Hm. unfold shr_1.
  destruct m as [|[p|p|]|p]; cbn [shr_m]; lia.
Qed.

Lemma shr_nonneg (mrs : shr_record) (e k : Z) :
  0 <= shr_m mrs -> 0 <= shr_m (fst (shr mrs e k)).
Proof.
  intros Hm. unfold shr. destruct k as [|p|p]; cbn [fst]; try exact Hm.
  rewrite iter_pos_nat. induction (Pos.to_nat p) as [|c IH]; [exact Hm|].
  rewrite Nat.iter_succ. now apply shr_1_nonneg.
Qed.

Lemma shr_fexp_nonneg (m e : Z) (l : location) :
  0 <= m -> 0 <= shr_m (fst (shr_fexp 53 1024 m e l)).
Proof.
  intros Hm. unfold shr_fexp. apply shr_nonneg. now destruct l as [|[ | | ]].
Qed.

(** Rounding keeps the sign. *)
Lemma binary_round_aux_signed (sx : bool) (mx e : Z) (l : location) :
  0 <= mx -> signed sx (binary_round_aux 53 1024 sx mx e l).
Proof.
  intros Hm. unfold binary_round_aux.
  pose proof (shr_fexp_nonneg mx e l Hm) as H1.
  destruct (shr_fexp 53 1024 mx e l) as [mrs' e']. cbn [fst] in H1.
  assert (H2 : 0 <= round_nearest_even (shr_m mrs') (loc_of_shr_record mrs')).
  { unfold round_nearest_even.
    destruct (loc_of_shr_record mrs') as [|[ | | ]]; try lia.
    destruct (Z.even (shr_m mrs')); lia. }
  pose proof (shr_fexp_nonneg _ e' loc_Exact H2) as H3.
  destruct (shr_fexp 53 1024 _ e' loc_Exact) as [mrs'' e'']. cbn [fst] in H3.
  destruct (shr_m mrs'') as [|m|m]; [left; reflexivity| |lia].
  right. destruct (e'' <=? 1024 - 53); [left; eauto|right; reflexivity].
Qed.

Lemma of_Z_nonpos (z : Z) : z <= 0 -> nonpos (F64.of_Z z).
Proof.
  intros Hz. destruct z as [|p|p]; [right; reflexivity|lia|].
  left. unfold F64.of_Z, binary_normalize, binary_round, F64.prec, F64.emax.
  destruct (shl_align p 0 _) as [mz ez]. now apply binary_round_aux_signed.
Qed.

Lemma div_nonpos (x : F64.float64) :
  nonpos x -> nonpos (F64.div x (F64.of_Z 1000000000)).
Proof.
  change (F64.of_Z 1000000000) with (S754_finite false 8388608000000000 (-23)).
  intros [[->|[(m & e & ->)| ->]]| ->].
  - left. left. reflexivity.
  - left. unfold F64.div, SFdiv, F64.prec, F64.emax. cbn [xorb].
    destruct (SFdiv_core_binary 53 1024 (Z.pos m) e 8388608000000000 (-23))
      as [[mz ez] lz] eqn:E.
    apply binary_round_aux_signed.
    unfold SFdiv_core_binary in E.
    match type of E with
    | (let '(q, r) := Z.div_eucl ?a ?b in _) = _ =>
        pose proof (Z_div_mod a b ltac:(lia)) as Hdm;
        assert (Ha : 0 <= a);
        [|destruct (Z.div_eucl a b) as [q r]; injection E as <- _ _; nia]
    end.
    match goal with
    | |- 0 <= match ?sh with _ => _ end =>
        destruct sh; try lia; apply Z.shiftl_nonneg; lia
    end.
  - left. right. right. reflexivity.
  - right. reflexivity.
Qed.

Lemma add_nonpos (x y : F64.float64) : nonpos x -> nonpos y -> nonpos (F64.add x y).
Proof.
  unfold F64.add, F64.prec, F64.emax.
  intros [[->|[(m & e & ->)| ->]]| ->] [[->|[(m' & e' & ->)| ->]]| ->];
    cbn [SFadd];
    try (left; left; reflexivity);
    try (left; right; left; eauto; fail);
    try (left; right; right; reflexivity);
    try (right; reflexivity).
  left. unfold cond_Zopp.
  set (a := fst (shl_align m e (Z.min e e'))).
  set (b := fst (shl_align m' e' (Z.min e e'))).
  change (- Z.pos a + - Z.pos b) with (Z.neg (a + b)).
  unfold binary_normalize, binary_round.
  destruct (shl_align (a + b) _ _) as [mz ez]. now apply binary_round_aux_signed.
Qed.

Lemma leb_nonpos (x : F64.float64) : nonpos x -> F64.leb x F64.zero = true.
Proof. intros [[->|[(m & e & ->)| ->]]| ->]; reflexivity. Qed.

Lemma Seconds_nonpos (d : time.Duration) : d <= 0 -> nonpos (time.Seconds d).
Proof.
  intros Hd. unfold time.Seconds, time.Second.
  apply add_nonpos.
  - apply of_Z_nonpos.
    rewrite <- (Z.opp_involutive d), Z.quot_opp_l by lia.
    pose proof (Z.quot_pos (- d) 1000000000 ltac:(lia) ltac:(lia)). lia.
  - apply div_nonpos, of_Z_nonpos.
    rewrite <- (Z.opp_involutive d), Z.rem_opp_l by lia.
    pose proof (Z.rem_nonneg (- d) 1000000000 ltac:(lia) ltac:(lia)). lia.
Qed.

Lemma TimeTag_Append_not_after_epoch (t : time.Time) (b : list byte) :
  t <= epoch -> TimeTag_Append t b = b ++ zero_timetag.
Proof.
  intros Ht. unfold TimeTag_Append.
  rewrite leb_nonpos; [reflexivity|]. apply Seconds_nonpos.
  unfold time.Sub, epoch, time.minDuration, time.maxDuration in *.
  repeat match goal with |- context [ ?a <? ?b ] => destruct (Z.ltb_spec a b) end; lia.
Qed.

Lemma TimeTag_Consume_zero (rest : list byte) :
  TimeTag_Consume (zero_timetag ++ rest) = Ok (epoch, rest).
Proof.
  unfold TimeTag_Consume, zero_timetag. cbn [app].
  replace (len (x00 :: x00 :: x00 :: x00 :: x00 :: x00 :: x00 :: x00 :: rest) <? 8)
    with false by (symmetry; apply Z.ltb_ge; unfold len; cbn [length]; lia).
  reflexivity.
Qed.

(** ** TimeTag: decoded instants *)

Lemma of_Z_signed_false (z : Z) : 0 <= z -> signed false (F64.of_Z z).
Proof.
  intros Hz. destruct z as [|p|p]; [left; reflexivity| |lia].
  unfold F64.of_Z, binary_normalize, binary_round, F64.prec, F64.emax.
  destruct (shl_align p 0 _) as [mz ez]. now apply binary_round_aux_signed.
Qed.

Lemma div_signed_false (x : F64.float64) (my : positive) (ey : Z) :
  signed false x -> signed false (F64.div x (S754_finite false my ey)).
Proof.
  intros [->|[(m & e & ->)| ->]].
  - left. reflexivity.
  - unfold F64.div, SFdiv, F64.prec, F64.emax. cbn [xorb].
    destruct (SFdiv_core_binary 53 1024 (Z.pos m) e (Z.pos my) ey)
      as [[mz ez] lz] eqn:E.
    apply binary_round_aux_signed.
    unfold SFdiv_core_binary in E.
    match type of E with
    | (let '(q, r) := Z.div_eucl ?a ?b in _) = _ =>
        pose proof (Z_div_mod a b ltac:(lia)) as Hdm;
        assert (Ha : 0 <= a);
        [|destruct (Z.div_eucl a b) as [q r]; injection E as <- _ _; nia]
    end.
    match goal with
    | |- 0 <= match ?sh with _ => _ end =>
        destruct sh; try lia; apply Z.shiftl_nonneg; lia
    end.
  - right. right. reflexivity.
Qed.

Lemma add_signed_false (x y : F64.float64) :
  signed false x -> signed false y -> signed false (F64.add x y).
Proof.
  unfold F64.add, F64.prec, F64.emax.
  intros [->|[(m & e & ->)| ->]] [->|[(m' & e' & ->)| ->]];
    cbn [SFadd];
    try (left; reflexivity);
    try (right; left; eauto; fail);
    try (right; right; reflexivity).
  unfold cond_Zopp.
  set (a := fst (shl_align m e (Z.min e e'))).
  set (b := fst (shl_align m' e' (Z.min e e'))).
  change (Z.pos a + Z.pos b) with (Z.pos (a + b)).
  unfold binary_normalize, binary_round.
  destruct (shl_align (a + b) _ _) as [mz ez]. now apply binary_round_aux_signed.
Qed.

Lemma mul_signed_false (x : F64.float64) (my : positive) (ey : Z) :
  signed false x -> signed false (F64.mul x (S754_finite false my ey)).
Proof.
  intros [->|[(m & e & ->)| ->]].
  - left. reflexivity.
  - unfold F64.mul, SFmul, F64.prec, F64.emax. cbn [xorb].
    apply binary_round_aux_signed. lia.
  - right. right. reflexivity.
Qed.

Lemma trunc_signed_false (x : F64.float64) : signed false x -> 0 <= F64.trunc x.
Proof.
  intros [->|[(m & e & ->)| ->]]; unfold F64.trunc; try lia.
  destruct e as [|p|p].
  - rewrite Z.shiftl_0_r. lia.
  - apply Z.shiftl_nonneg. lia.
  - apply Z.shiftr_nonneg. lia.
Qed.

Lemma Uint64_nonneg (b : list byte) : 0 <= Uint64 b.
Proof.
  unfold Uint64.
  destruct b as [|b0 [|b1 [|b2 [|b3 [|b4 [|b5 [|b6 [|b7 rest]]]]]]]]; try lia.
  pose proof byte_val_range as Hr.
  repeat (apply Z.lor_nonneg; split); try apply Z.shiftl_nonneg; apply Hr.
Qed.

Lemma len_lt_8_cases {A} (b : list A) :
  len b < 8 \/ exists head rest, b = head ++ rest /\ len head = 8.
Proof.
  destruct b as [|b0 [|b1 [|b2 [|b3 [|b4 [|b5 [|b6 [|b7 rest]]]]]]]];
    try (left; unfold len; cbn [length]; lia).
  right. exists [b0; b1; b2; b3; b4; b5; b6; b7], rest. split; reflexivity.
Qed.

Lemma TimeTag_Consume_any (b : list byte) :
  (len b < 8 /\
   TimeTag_Consume b = Err (Errorf "expected timetag (8 bytes), only %d bytes")) \/
  (exists t head rest,
      b = head ++ rest /\ len head = 8 /\ TimeTag_Consume b = Ok (t, rest) /\
      epoch <= t).
Proof.
  destruct (len_lt_8_cases b) as [Hlt|(head & rest & -> & Hl)].
  - left. split; [exact Hlt|]. unfold TimeTag_Consume.
    destruct (Z.ltb_spec (len b) 8); [reflexivity|lia].
  - right. unfold TimeTag_Consume.
    replace (len (head ++ rest) <? 8) with false
      by (symmetry; apply Z.ltb_ge; rewrite len_app; pose proof (len_nonneg rest); lia).
    eexists _, head, rest. split; [reflexivity|]. split; [exact Hl|].
    split.
    + f_equal. f_equal. apply slice_from_app_len. now rewrite Hl.
    + unfold time.Add, epoch. rewrite Z.add_0_l.
      pose proof (Uint64_nonneg (head ++ rest)) as Hraw.
      apply trunc_signed_false.
      change (F64.of_Z time.Second) with (S754_finite false 8388608000000000 (-23)).
      apply mul_signed_false, add_signed_false.
      * apply of_Z_signed_false. apply Z.shiftr_nonneg. exact Hraw.
      * change (F64.of_Z (Z.shiftl 1 32)) with (S754_finite false 4503599627370496 (-20)).
        apply div_signed_false, of_Z_signed_false.
        apply Z.land_nonneg. right. lia.
Qed.

(** X5. Whenever [String.Consume] succeeds, the text returned is the bytes
    before the first NUL (so it holds no NUL), the remainder is a proper
    suffix of the buffer, and what was skipped after the NUL is at most 3
    bytes, up to a multiple of 4 unless the buffer ends first. *)
Theorem String_Consume_progress (b : list byte) (str : string) (rest : list byte) :
  String_Consume b = Ok (str, rest) ->
  len rest < len b /\
  exists pre skipped : list byte,
    b = pre ++ x00 :: skipped ++ rest /\ (x00 ∉ pre) /\
    str = string_of_list_byte pre /\ len skipped <= 3 /\
    ((len pre + 1 + len skipped) mod 4 = 0 \/ rest = []).
Proof.
  intros H. destruct (String_Consume_Ok b str rest H) as (pre & sk & E & Hrest).
  split; [|exists pre, sk; split; [exact E|exact Hrest]].
  rewrite E, len_app. change (x00 :: sk ++ rest) with ([x00] ++ sk ++ rest).
  rewrite !len_app. change (len [x00]) with 1.
  pose proof (len_nonneg pre). pose proof (len_nonneg sk). lia.
Qed.

Lemma String_Consume_progress_witness :
  len [x62] < len [x61; x00; x07; x09; x62] /\
  exists pre skipped : list byte,
    [x61; x00; x07; x09; x62] = pre ++ x00 :: skipped ++ [x62] /\ (x00 ∉ pre) /\
    "a"%string = string_of_list_byte pre /\ len skipped <= 3 /\
    ((len pre + 1 + len skipped) mod 4 = 0 \/ [x62] = []).
Proof.
  apply (String_Consume_progress [x61; x00; x07; x09; x62] "a" [x62]).
  reflexivity.
Defined.

(** X6. The encoding of a message is always a whole number of 4-byte
    words, and appending a message to a buffer whose length is a multiple
    of 4 appends exactly the bytes of [m.Append(nil)]. *)
Theorem Message_Append_aligned (m : Message) :
  len (Message_Append m []) mod 4 = 0 /\
  forall b : list byte,
    len b mod 4 = 0 -> Message_Append m b = b ++ Message_Append m [].
Proof.
  split; [apply len_Message_Append_nil|].
  intros b Hb. now apply Message_Append_after_aligned.
Qed.

Lemma Message_Append_aligned_witness :
  Message_Append (mkMessage "/a" [Int32 7; String_ "xy"]) [x01; x02; x03; x04]
  = [x01; x02; x03; x04] ++ Message_Append (mkMessage "/a" [Int32 7; String_ "xy"]) [].
Proof.
  destruct (Message_Append_aligned (mkMessage "/a" [Int32 7; String_ "xy"])) as [_ H].
  apply (H [x01; x02; x03; x04]). reflexivity.
Defined.

(** X7. [ParseMessage] does not look beyond the last argument: whatever
    bytes follow the encoding of a message that the wire form can hold, the
    same message is returned and the extra bytes are not reported. *)
Theorem ParseMessage_ignores_trailing (m : Message) (extra : list byte) :
  ascii_text (Pattern_ m) -> Forall wire_exact (Arguments_ m) ->
  ParseMessage (Message_Append m [] ++ extra) = Ok m.
Proof. intros Ha Hw. now apply ParseMessage_trailing. Qed.

Lemma ParseMessage_ignores_trailing_witness :
  ParseMessage (Message_Append (mkMessage "/a" [Int32 7; True_]) [] ++ [xff; x00; x2c])
  = Ok (mkMessage "/a" [Int32 7; True_]).
Proof.
  apply (ParseMessage_ignores_trailing (mkMessage "/a" [Int32 7; True_])).
  - unfold ascii_text. vm_compute.
    repeat (constructor; [split; reflexivity|]). constructor.
  - cbn [Arguments_]. constructor; [unfold wire_exact, int32_range; lia|].
    constructor; [exact I|constructor].
Defined.








(** X11. [Int32.Consume] fails exactly when fewer than 4 bytes are left;
    otherwise it consumes exactly 4 bytes, the value it produces is an
    [int32], and appending that value gives the 4 bytes back: every 4 bytes
    are the encoding of exactly one Int32. *)
Theorem Int32_Consume_then_Append (b : list byte) :
  (len b < 4 /\ Int32_Consume b = Err (Errorf "expect int32, only %d bytes")) \/
  (exists i head rest,
      b = head ++ rest /\ len head = 4 /\ Int32_Consume b = Ok (i, rest) /\
      int32_range i /\ Int32_Append i [] = head).
Proof. apply Int32_Consume_any. Qed.

(** X12. [Float32.Consume] fails exactly when fewer than 4 bytes are left;
    otherwise it consumes exactly 4 bytes and the bit pattern it produces
    appends as the same 4 bytes: no bit pattern, NaN payloads included, is
    changed by decoding and encoding. *)
Theorem Float32_Consume_then_Append (b : list byte) :
  (len b < 4 /\ Float32_Consume b = Err (Errorf "expect float32, only %d bytes")) \/
  (exists bits head rest,
      b = head ++ rest /\ len head = 4 /\ Float32_Consume b = Ok (bits, rest) /\
      uint32_range bits /\ Float32_Append bits [] = head).
Proof. apply Float32_Consume_any. Qed.

(** X13. A TimeTag that is not after the epoch (1900-01-01) is encoded as
    eight zero bytes, whatever its instant, and therefore decodes as the
    epoch. *)
Theorem TimeTag_not_after_epoch (t : time.Time) (b rest : list byte) :
  t <= epoch ->
  TimeTag_Append t b = b ++ zero_timetag /\
  TimeTag_Consume (TimeTag_Append t [] ++ rest) = Ok (epoch, rest).
Proof.
  intros Ht. split; [now apply TimeTag_Append_not_after_epoch|].
  rewrite (TimeTag_Append_not_after_epoch t [] Ht). apply TimeTag_Consume_zero.
Qed.

Lemma TimeTag_not_after_epoch_witness :
  TimeTag_Append zeroTime [x01] = [x01] ++ zero_timetag /\
  TimeTag_Consume (TimeTag_Append zeroTime [] ++ [x09]) = Ok (epoch, [x09]).
Proof.
  apply (TimeTag_not_after_epoch zeroTime [x01] [x09]).
  vm_compute. discriminate.
Defined.

(** X14. [TimeTag.Consume] fails exactly when fewer than 8 bytes are left;
    otherwise it consumes exactly 8 bytes, and the instant it produces is
    never before the epoch. *)
Theorem TimeTag_Consume_from_epoch (b : list byte) :
  (len b < 8 /\
   TimeTag_Consume b = Err (Errorf "expected timetag (8 bytes), only %d bytes")) \/
  (exists t head rest,
      b = head ++ rest /\ len head = 8 /\ TimeTag_Consume b = Ok (t, rest) /\
      epoch <= t).
Proof. apply TimeTag_Consume_any. Qed.

(** X15. Every whole number of seconds from the epoch up to [2^32 - 1]
    seconds after it survives the wire exactly: it is encoded as the
    seconds in the high 32 bits over a zero fraction, and decoded from
    there to the same instant, with the bytes that follow left over. *)
Theorem TimeTag_whole_seconds (n : Z) (rest : list byte) :
  0 <= n < 2 ^ 32 ->
  TimeTag_Append (n * 1000000000) [] = AppendUint64 [] (n * 2 ^ 32) /\
  TimeTag_Consume (TimeTag_Append (n * 1000000000) [] ++ rest)
  = Ok (n * 1000000000, rest).
Proof.
  intros Hn. split.
  - destruct n as [|p|p]; [reflexivity| |lia].
    apply TimeTag_Append_whole_seconds. lia.
  - apply TimeTag_roundtrip. now apply whole_seconds_exact.
Qed.

Lemma TimeTag_whole_seconds_witness :
  TimeTag_Append (3600 * 1000000000) [] = AppendUint64 [] (3600 * 2 ^ 32) /\
  TimeTag_Consume (TimeTag_Append (3600 * 1000000000) [] ++ [x07])
  = Ok (3600 * 1000000000, [x07]).
Proof. apply (TimeTag_whole_seconds 3600 [x07]). lia. Defined.

(** ** The listener: decoding task and workers *)

Lemma len_cons {A} (x : A) (l : list A) : len (x :: l) = 1 + len l.
Proof. unfold len. cbn [length]. lia. Qed.

Lemma len_String_Append_pos (str : string) (b : list byte) :
  len b < len (String_Append str b).
Proof.
  rewrite String_Append_shape, !len_app, len_cons.
  pose proof (len_nonneg (append_range str [])).
  match goal with |- context [len (replicate ?k ?x)] =>
    pose proof (len_nonneg (replicate k x))
  end.
  lia.
Qed.

Lemma len_Message_Append_pos (m : Message) : 0 < len (Message_Append m []).
Proof.
  rewrite Message_Append_nil, len_app.
  pose proof (len_String_Append_pos (Pattern_ m) []) as H.
  change (len (@nil byte)) with 0 in H.
  match goal with |- context [len (?a ++ ?b)] => pose proof (len_nonneg (a ++ b)) end.
  lia.
Qed.

(** A datagram that decodes is queued behind the messages already there. *)
Lemma decode_iter_decodable (rd : ReadFrom) (pick : bool) (st : Serving) (m : Message) :
  n rd > 0 -> ParseMessage (data rd) = Ok m ->
  ctx_err st = None -> len (recv st) < recv_cap -> read_err rd = None ->
  decode_iter rd pick st = Running (mkServing (recv st ++ [Some m]) None (trace st)).
Proof.
  intros Hn Hok Hctx Hroom Hread. unfold decode_iter.
  replace (n rd >? 0) with true by (symmetry; apply Z.gtb_lt; lia).
  rewrite Hok, Hctx, Hread.
  replace (len (recv st) <? recv_cap) with true
    by (symmetry; apply Z.ltb_lt; exact Hroom).
  reflexivity.
Qed.

(** X16. End to end: when the datagram received is the encoding of a
    message [m] that the wire form can hold, the decoding task queues [m]
    behind the messages already queued, logging nothing, and the worker
    that takes [m] from the head of the queue calls [Handle(m)] on exactly
    the handlers whose registered text the pattern compiled from the
    address of [m] matches, in table order, and goes on running. *)
Theorem Serve_delivers_received_message
        (ParsePattern : string -> result Pattern) (l : Listener)
        (m : Message) (pattern : Pattern) (st : Serving)
        (queued : list (option Message)) (pick pick' : bool) :
  ascii_text (Pattern_ m) -> Forall wire_exact (Arguments_ m) ->
  ParsePattern (Pattern_ m) = Ok pattern ->
  ctx_err st = None -> len (recv st) < recv_cap ->
  decode_iter (mkRead (len (Message_Append m [])) (Message_Append m []) None) pick st
  = Running (mkServing (recv st ++ [Some m]) None (trace st)) /\
  exists tr',
    worker_iter ParsePattern l pick' (mkServing (Some m :: queued) None (trace st))
    = Running (mkServing queued None (trace st ++ tr')) /\
    calls tr' = map (fun ih => (fst ih, m))
                    (matching pattern (indexed 0 (handlers l))) /\
    logged tr' = map (fun _ => handler_error_line)
                     (failing m (matching pattern (indexed 0 (handlers l)))).
Proof.
  intros Ha Hw Hp Hctx Hroom. split.
  - apply decode_iter_decodable; cbn [n data read_err]; try assumption;
      try reflexivity.
    + pose proof (len_Message_Append_pos m). lia.
    + now apply ParseMessage_Message_Append.
  - destruct (handle_loop_spec pattern m (handlers l) 0%nat (trace st))
      as (tr' & E & Hc & Hl).
    exists tr'. split; [|split; assumption].
    unfold worker_iter, handle. cbn [ctx_err recv trace]. rewrite Hp, E. reflexivity.
Qed.

Lemma Serve_delivers_received_message_witness :
  decode_iter (mkRead (len (Message_Append demo_message []))
                      (Message_Append demo_message []) None) true started
  = Running (mkServing ([] ++ [Some demo_message]) None []) /\
  exists tr',
    worker_iter (ParsePattern_with parseMatcher_spec) demo_listener true
                (mkServing (Some demo_message :: []) None [])
    = Running (mkServing [] None ([] ++ tr')) /\
    calls tr' = map (fun ih => (fst ih, demo_message))
                    (matching [charMatcher x2f; charMatcher x74; charMatcher x65;
                               charMatcher x73; charMatcher x74; charMatcher x2f;
                               wildcard false]
                              (indexed 0 (handlers demo_listener))) /\
    logged tr' = map (fun _ => handler_error_line)
                     (failing demo_message
                        (matching [charMatcher x2f; charMatcher x74; charMatcher x65;
                                   charMatcher x73; charMatcher x74; charMatcher x2f;
                                   wildcard false]
                                  (indexed 0 (handlers demo_listener)))).
Proof.
  apply (Serve_delivers_received_message (ParsePattern_with parseMatcher_spec)
           demo_listener demo_message _ started [] true true).
  - unfold ascii_text. vm_compute.
    repeat (constructor; [split; reflexivity|]). constructor.
  - constructor; [unfold wire_exact, int32_range; lia|constructor].
  - vm_compute. reflexivity.
  - reflexivity.
  - vm_compute. reflexivity.
Defined.

(** X17. The queue between the decoding task and the workers is a bounded
    FIFO: a step of the decoding task leaves it unchanged or adds one entry
    at the back, and only when fewer than 100 are queued; a step of a worker
    leaves it unchanged or removes its head. Neither step ever leaves more
    than 100 entries in a queue that had at most 100. *)
Theorem recv_bounded_fifo
        (ParsePattern : string -> result Pattern) (l : Listener)
        (rd : ReadFrom) (pick : bool) (st : Serving) :
  let after_decode := recv (outcome_state (decode_iter rd pick st)) in
  let after_work := recv (outcome_state (worker_iter ParsePattern l pick st)) in
  (after_decode = recv st \/
   (len (recv st) < recv_cap /\ exists msg, after_decode = recv st ++ [msg])) /\
  (after_work = recv st \/ exists msg, recv st = msg :: after_work) /\
  (len (recv st) <= recv_cap ->
   len after_decode <= recv_cap /\ len after_work <= recv_cap).
Proof.
  cbv zeta.
  assert (Hd : recv (outcome_state (decode_iter rd pick st)) = recv st \/
               (len (recv st) < recv_cap /\
                exists msg, recv (outcome_state (decode_iter rd pick st))
                            = recv st ++ [msg])).
  { unfold decode_iter.
    destruct (n rd >? 0); [|destruct (read_err rd); left; reflexivity].
    destruct (ParseMessage (data rd)) as [m|e|r]; cbn [log recv ctx_err trace];
      (destruct (Z.ltb_spec (len (recv st)) recv_cap) as [Hlt|Hge];
       destruct (ctx_err st) as [ce|]; cbn [andb];
       [ destruct pick; [|left; reflexivity]
       | | left; reflexivity | left; reflexivity ];
       destruct (read_err rd); cbn [outcome_state recv];
       right; (split; [exact Hlt|eexists; reflexivity])). }
  assert (Hw : recv (outcome_state (worker_iter ParsePattern l pick st)) = recv st \/
               exists msg, recv st
                           = msg :: recv (outcome_state (worker_iter ParsePattern l pick st))).
  { unfold worker_iter.
    assert (Hwork : forall msg rest,
               recv (outcome_state
                 (let '(tr, r) := handle ParsePattern l msg (trace st) in
                  match r with
                  | Ok _ => Running (mkServing rest (ctx_err st) tr)
                  | Err _ => Running (log "Error handling message: %v (message: %v)"
                                          (mkServing rest (ctx_err st) tr))
                  | Panic reason => Crashed reason (mkServing rest (ctx_err st) tr)
                  end)) = rest).
    { intros msg rest. destruct (handle ParsePattern l msg (trace st)) as [tr [u|e|r]];
        reflexivity. }
    clear Hd.
    destruct (ctx_err st) as [ce|] eqn:Ec, (recv st) as [|msg rest] eqn:Er;
      cbn [outcome_state]; rewrite ?Er; try (left; reflexivity).
    - destruct pick; [|left; cbn [outcome_state]; exact Er].
      right. exists msg. now rewrite Hwork.
    - right. exists msg. now rewrite Hwork. }
  split; [exact Hd|]. split; [exact Hw|].
  intros Hcap. split.
  - destruct Hd as [->|[Hlt [msg ->]]]; [exact Hcap|].
    rewrite len_app. change (len [msg]) with 1. lia.
  - destruct Hw as [->|[msg E]]; [exact Hcap|].
    rewrite E in Hcap. unfold len in *. cbn [length] in Hcap. lia.
Qed.

Lemma recv_bounded_fifo_witness :
  len (recv (outcome_state (decode_iter undecodable true started))) <= recv_cap /\
  len (recv (outcome_state
               (worker_iter (ParsePattern_with parseMatcher_spec) demo_listener
                            true started))) <= recv_cap.
Proof.
  apply (recv_bounded_fifo (ParsePattern_with parseMatcher_spec) demo_listener
           undecodable true started).
  vm_compute. discriminate.
Defined.




Lemma matching_literal (text : string) (hs : list (nat * handler)) :
  matching (literal text) hs = registered_as text hs.
Proof.
  unfold matching, registered_as. apply List.filter_ext. intros [i hd]. cbn [snd].
  destruct (String.eqb (p hd) text) eqn:E.
  - apply String.eqb_eq in E. now apply Pattern_Match_literal.
  - apply String.eqb_neq in E.
    destruct (Pattern_Match (literal text) (p hd)) eqn:Em; [|reflexivity].
    apply Pattern_Match_literal in Em. contradiction.
Qed.

(** X19. The direction of the routing: the pattern is compiled from the
    address of the message and applied to the registered texts. When the
    address compiles to its own literal bytes (an address without pattern
    characters), the handlers called are exactly those registered under
    that very text: a handler registered as a pattern such as "/test/*" is
    not called for the address "/test/a". *)
Theorem handle_literal_address
        (ParsePattern : string -> result Pattern)
        (l : Listener) (msg : Message) (tr : list event) :
  ParsePattern (Pattern_ msg) = Ok (literal (Pattern_ msg)) ->
  exists tr',
    handle ParsePattern l (Some msg) tr = (tr ++ tr', Ok tt) /\
    calls tr' = map (fun ih => (fst ih, msg))
                    (registered_as (Pattern_ msg) (indexed 0 (handlers l))).
Proof.
  intros Hp. unfold handle. rewrite Hp.
  destruct (handle_loop_spec (literal (Pattern_ msg)) msg (handlers l) 0%nat tr)
    as (tr' & E & Hc & _).
  exists tr'. rewrite E. split; [reflexivity|].
  now rewrite Hc, matching_literal.
Qed.

Lemma handle_literal_address_witness :
  exists tr',
    handle (ParsePattern_with parseMatcher_spec) glob_listener (Some plain_message) []
    = ([] ++ tr', Ok tt) /\
    calls tr' = map (fun ih => (fst ih, plain_message))
                    (registered_as (Pattern_ plain_message)
                                   (indexed 0 (handlers glob_listener))).
Proof.
  apply (handle_literal_address (ParsePattern_with parseMatcher_spec)
           glob_listener plain_message []).
  vm_compute. reflexivity.
Defined.

(** ** parseCharClass *)

Lemma set_char_spec (cs : list bool) (v : Z) (k : nat) :
  (Z.to_nat v < length cs)%nat ->
  length (set_char cs v) = length cs /\
  (set_char cs v !!! k = true <-> cs !!! k = true \/ k = Z.to_nat v).
Proof.
  intros Hv. unfold set_char. split; [apply length_insert|].
  destruct (Nat.eq_dec (Z.to_nat v) k) as [E|Hne].
  - subst k. rewrite list_lookup_total_insert_eq by exact Hv. tauto.
  - rewrite list_lookup_total_insert_ne by exact Hne.
    split; [auto|]. intros [H| ->]; [exact H|contradiction].
Qed.

Lemma fill_range_spec (fuel : nat) (d next : Z) (cs : list bool) (k : nat) :
  0 <= d -> next <= Z.of_nat (length cs) -> next - d <= Z.of_nat fuel ->
  length (fill_range fuel d next cs) = length cs /\
  (fill_range fuel d next cs !!! k = true <->
   cs !!! k = true \/ d <= Z.of_nat k < next).
Proof.
  revert d cs. induction fuel as [|fuel IH]; intros d cs Hd Hnext Hfuel;
    cbn [fill_range].
  - split; [reflexivity|]. split; [auto|]. intros [H|H]; [exact H|lia].
  - destruct (Z.ltb_spec d next) as [Hlt|Hge].
    + destruct (set_char_spec cs d k ltac:(lia)) as [Hl Hs].
      destruct (IH (d + 1) (set_char cs d) ltac:(lia) ltac:(lia) ltac:(lia))
        as [Hl' Hs'].
      split; [congruence|]. rewrite Hs', Hs. split.
      * intros [[H|H]|H]; [auto| |]; right; lia.
      * intros [H|H]; [auto|].
        destruct (Z.eq_dec (Z.of_nat k) d); [left; right|right]; lia.
    + split; [reflexivity|]. split; [auto|]. intros [H|H]; [exact H|lia].
Qed.

Lemma string_index_of_list_byte (l : list byte) (i : nat) (c : byte) :
  l !! i = Some c -> string_index (string_of_list_byte l) (Z.of_nat i) = c.
Proof.
  intros H. unfold string_index.
  rewrite list_byte_of_string_of_list_byte, Nat2Z.id. now apply nth_lookup_Some.
Qed.

Lemma byte_index_lt (b : byte) : (byte_index b < 256)%nat.
Proof. unfold byte_index. pose proof (byte_val_range b). lia. Qed.

Lemma byte_index_inj (a b : byte) : byte_index a = byte_index b -> a = b.
Proof.
  unfold byte_index. intros H. apply byte_val_inj.
  pose proof (byte_val_range a). pose proof (byte_val_range b). lia.
Qed.

(** The test of the loop for a range hyphen, against [hyphen_range]. *)
Lemma hyphen_test (body : list byte) (i : nat) (c : byte) :
  body !! i = Some c ->
  Byte.eqb c x2d && ((Z.of_nat i >? 0) && (Z.of_nat i + 1 <? len body)) = true ->
  exists lo hi, body !! (i - 1)%nat = Some lo /\ body !! S i = Some hi /\
                hyphen_range body i = Some (lo, hi).
Proof.
  intros Hc Ht. apply andb_true_iff in Ht as [Hh Ht].
  apply andb_true_iff in Ht as [Hi Hn].
  apply Z.gtb_lt in Hi. apply Z.ltb_lt in Hn. unfold len in Hn.
  destruct (lookup_lt_is_Some_2 body (i - 1)%nat ltac:(lia)) as [lo Hlo].
  destruct (lookup_lt_is_Some_2 body (S i) ltac:(lia)) as [hi Hhi].
  exists lo, hi. split; [exact Hlo|]. split; [exact Hhi|].
  unfold hyphen_range. rewrite Hc, Hh, Hlo, Hhi.
  replace (0 <? i)%nat with true by (symmetry; apply Nat.ltb_lt; lia).
  replace (S i <? length body)%nat with true by (symmetry; apply Nat.ltb_lt; lia).
  reflexivity.
Qed.

Lemma hyphen_test_false (body : list byte) (i : nat) (c : byte) :
  body !! i = Some c ->
  Byte.eqb c x2d && ((Z.of_nat i >? 0) && (Z.of_nat i + 1 <? len body)) = false ->
  hyphen_range body i = None.
Proof.
  intros Hc Ht. unfold hyphen_range. rewrite Hc.
  destruct (Byte.eqb c x2d); cbn [andb] in *; [|reflexivity].
  destruct (Nat.ltb_spec 0 i) as [Hi|Hi]; cbn [andb]; [|reflexivity].
  destruct (Nat.ltb_spec (S i) (length body)) as [Hn|Hn]; [|reflexivity].
  exfalso. apply andb_false_iff in Ht as [Ht|Ht].
  - rewrite Z.gtb_ltb in Ht. apply Z.ltb_ge in Ht. lia.
  - apply Z.ltb_ge in Ht. unfold len in Ht. lia.
Qed.

(** The loop over the body of a class without inverted range. *)
Lemma class_loop_members (body tl : list byte) (fuel i : nat) (cs : list bool) :
  (fuel + i = length body)%nat -> length cs = 256%nat ->
  (forall j, (i <= j)%nat -> ~ inverted_range body j) ->
  exists cs',
    class_loop fuel (Z.of_nat i) (len body) (string_of_list_byte (body ++ tl)) cs
    = Ok cs' /\ length cs' = 256%nat /\
    forall b, cs' !!! byte_index b = true <->
              cs !!! byte_index b = true \/
              exists j, (i <= j)%nat /\ position_covers body j b.
Proof.
  revert i cs. induction fuel as [|fuel IH]; intros i cs Hf Hl Hord; cbn [class_loop].
  - exists cs. split; [reflexivity|]. split; [exact Hl|]. intros b.
    split; [auto|]. intros [H|(j & Hj & c & Hc & _)]; [exact H|].
    apply lookup_lt_Some in Hc. lia.
  - replace (Z.of_nat i <? len body) with true
      by (symmetry; apply Z.ltb_lt; unfold len; lia).
    destruct (lookup_lt_is_Some_2 body i ltac:(lia)) as [c Hc].
    assert (Hat : forall (k : nat) x, body !! k = Some x ->
                string_index (string_of_list_byte (body ++ tl)) (Z.of_nat k) = x).
    { intros k x Hx. apply string_index_of_list_byte.
      rewrite lookup_app_l by (now apply lookup_lt_Some in Hx). exact Hx. }
    rewrite (Hat i c Hc).
    replace (Z.of_nat i + 1) with (Z.of_nat (S i)) by lia.
    assert (Hstep : forall cs1,
               length cs1 = 256%nat ->
               (forall b, cs1 !!! byte_index b = true <->
                          cs !!! byte_index b = true \/ position_covers body i b) ->
               exists cs',
                 class_loop fuel (Z.of_nat (S i)) (len body)
                            (string_of_list_byte (body ++ tl)) cs1 = Ok cs' /\
                 length cs' = 256%nat /\
                 forall b, cs' !!! byte_index b = true <->
                           cs !!! byte_index b = true \/
                           exists j, (i <= j)%nat /\ position_covers body j b).
    { intros cs1 Hl1 H1.
      destruct (IH (S i) cs1 ltac:(lia) Hl1) as (cs' & E & Hl' & H').
      { intros j Hj. apply Hord. lia. }
      exists cs'. split; [exact E|]. split; [exact Hl'|]. intros b.
      rewrite H', H1. split.
      - intros [[H|H]|(j & Hj & H)]; [auto| |]; right; eexists; (split; [|exact H]); lia.
      - intros [H|(j & Hj & H)]; [auto|].
        destruct (Nat.eq_dec j i) as [->|Hne]; [auto|].
        right. exists j. split; [lia|exact H]. }
    destruct (Byte.eqb c x2d && ((Z.of_nat i >? 0) && (Z.of_nat (S i) <? len body)))
      eqn:Ht.
    + replace (Z.of_nat (S i)) with (Z.of_nat i + 1) in Ht by lia.
      destruct (hyphen_test body i c Hc Ht) as (lo & hi & Hlo & Hhi & Hr).
      replace (Z.of_nat i - 1) with (Z.of_nat (i - 1)).
      2:{ apply andb_true_iff in Ht as [_ Ht]. apply andb_true_iff in Ht as [Ht _].
          apply Z.gtb_lt in Ht. lia. }
      rewrite (Hat _ _ Hlo), (Hat _ _ Hhi).
      destruct (Z.ltb_spec (byte_val hi) (byte_val lo)) as [Hinv|Hok].
      { exfalso. apply (Hord i (Nat.le_refl i)). exists lo, hi. split; assumption. }
      pose proof (byte_val_range lo) as Rlo. pose proof (byte_val_range hi) as Rhi.
      apply Hstep.
      * destruct (fill_range_spec 256 (byte_val lo) (byte_val hi) cs 0)
          as [Hlen _]; lia.
      * intros b.
        destruct (fill_range_spec 256 (byte_val lo) (byte_val hi) cs (byte_index b))
          as [_ ->]; try lia.
        unfold position_covers. rewrite Hr.
        unfold byte_index. pose proof (byte_val_range b) as Rb.
        rewrite Z2Nat.id by lia. split.
        -- intros [Hb|Hb]; [auto|]. right. exists c. split; [exact Hc|exact Hb].
        -- intros [Hb|(c' & _ & Hb)]; auto.
    + replace (Z.of_nat (S i)) with (Z.of_nat i + 1) in Ht by lia.
      pose proof (hyphen_test_false body i c Hc Ht) as Hr.
      pose proof (byte_val_range c) as Rc.
      destruct (set_char_spec cs (byte_val c) 0 ltac:(lia)) as [Hl1 _].
      apply Hstep; [congruence|]. intros b.
      destruct (set_char_spec cs (byte_val c) (byte_index b) ltac:(lia)) as [_ ->].
      unfold position_covers. rewrite Hr. split.
      * intros [H|H]; [auto|]. right. exists c. split; [exact Hc|].
        now apply byte_index_inj.
      * intros [H|(c' & Hc' & ->)]; [auto|]. right.
        rewrite Hc in Hc'. now injection Hc' as ->.
Qed.

(** The loop over a body with an inverted range. *)
Lemma class_loop_inverted (body tl : list byte) (fuel i : nat) (cs : list bool) :
  (fuel + i = length body)%nat ->
  (exists j, (i <= j)%nat /\ inverted_range body j) ->
  class_loop fuel (Z.of_nat i) (len body) (string_of_list_byte (body ++ tl)) cs
  = Err (Errorf "invalid range %c-%c, %c<%c").
Proof.
  revert i cs. induction fuel as [|fuel IH]; intros i cs Hf (j & Hj & Hinv);
    cbn [class_loop].
  - exfalso. destruct Hinv as (lo & hi & Hr & _). unfold hyphen_range in Hr.
    destruct (body !! j) eqn:E; [|discriminate]. apply lookup_lt_Some in E. lia.
  - replace (Z.of_nat i <? len body) with true
      by (symmetry; apply Z.ltb_lt; unfold len; lia).
    destruct (lookup_lt_is_Some_2 body i ltac:(lia)) as [c Hc].
    assert (Hat : forall (k : nat) x, body !! k = Some x ->
                string_index (string_of_list_byte (body ++ tl)) (Z.of_nat k) = x).
    { intros k x Hx. apply string_index_of_list_byte.
      rewrite lookup_app_l by (now apply lookup_lt_Some in Hx). exact Hx. }
    rewrite (Hat i c Hc).
    replace (Z.of_nat i + 1) with (Z.of_nat (S i)) by lia.
    destruct (Byte.eqb c x2d && ((Z.of_nat i >? 0) && (Z.of_nat (S i) <? len body)))
      eqn:Ht.
    + replace (Z.of_nat (S i)) with (Z.of_nat i + 1) in Ht by lia.
      destruct (hyphen_test body i c Hc Ht) as (lo & hi & Hlo & Hhi & Hr).
      replace (Z.of_nat i - 1) with (Z.of_nat (i - 1)).
      2:{ apply andb_true_iff in Ht as [_ Ht]. apply andb_true_iff in Ht as [Ht _].
          apply Z.gtb_lt in Ht. lia. }
      rewrite (Hat _ _ Hlo), (Hat _ _ Hhi).
      destruct (Z.ltb_spec (byte_val hi) (byte_val lo)) as [Hlt|Hok]; [reflexivity|].
      apply IH; [lia|]. exists j. split; [|exact Hinv].
      destruct (Nat.eq_dec j i) as [->|Hne]; [|lia].
      destruct Hinv as (lo' & hi' & Hr' & Hlt). rewrite Hr in Hr'.
      injection Hr' as <- <-. lia.
    + replace (Z.of_nat (S i)) with (Z.of_nat i + 1) in Ht by lia.
      pose proof (hyphen_test_false body i c Hc Ht) as Hr.
      apply IH; [lia|]. exists j. split; [|exact Hinv].
      destruct (Nat.eq_dec j i) as [->|Hne]; [|lia].
      destruct Hinv as (lo' & hi' & Hr' & _). rewrite Hr in Hr'. discriminate.
Qed.

Lemma length_string_of_list_byte (l : list byte) :
  String.length (string_of_list_byte l) = length l.
Proof. induction l as [|x l IH]; [reflexivity|]. cbn. now rewrite <- IH. Qed.

Lemma slen_of_list_byte (l : list byte) : slen (string_of_list_byte l) = len l.
Proof. unfold slen, len. now rewrite length_string_of_list_byte. Qed.

Lemma string_from_of_list_byte (l : list byte) (k : Z) :
  string_from (string_of_list_byte l) k = string_of_list_byte (drop (Z.to_nat k) l).
Proof. unfold string_from, slice_from. now rewrite list_byte_of_string_of_list_byte. Qed.

Lemma string_IndexByte_of_list_byte (l : list byte) (c : byte) :
  string_IndexByte (string_of_list_byte l) c = IndexByte l c.
Proof. unfold string_IndexByte. now rewrite list_byte_of_string_of_list_byte. Qed.

Lemma zero_chars_lookup (b : byte) : zero_chars !!! byte_index b = false.
Proof. apply lookup_total_replicate_2, byte_index_lt. Qed.

(** What [parseCharClass] does after the opening bracket, on the bytes
    [l] that follow it. *)
Lemma parseCharClass_bracket (l : list byte) :
  parseCharClass (string_of_list_byte (x5b :: l)) =
  if len l =? 0 then Err (Errorf "expect character class, got EOF")
  else
    let '(l2, inv) :=
      if Byte.eqb (nth 0 l x00) x21 then (drop 1 l, true) else (l, false) in
    let end_ := IndexByte l2 x5d in
    if end_ <? 0 then Err (Errorf "expect %q somewhere, got: %q")
    else
      rbind (class_loop (Z.to_nat end_) 0 end_ (string_of_list_byte l2) zero_chars)
            (fun cs => Ok (mkCharClass cs inv,
                           string_of_list_byte (drop (Z.to_nat (end_ + 1)) l2))).
Proof.
  change (string_of_list_byte (x5b :: l))
    with (String.String "["%char (string_of_list_byte l)).
  cbn [parseCharClass]. unfold parseCharClass.
  rewrite slen_of_list_byte.
  destruct (len l =? 0); [reflexivity|].
  unfold string_index at 1. rewrite list_byte_of_string_of_list_byte.
  change (Z.to_nat 0) with 0%nat.
  destruct (Byte.eqb (nth 0 l x00) x21).
  - rewrite string_from_of_list_byte. change (Z.to_nat 1) with 1%nat.
    rewrite string_IndexByte_of_list_byte.
    destruct (IndexByte (drop 1 l) x5d <? 0); [reflexivity|].
    now rewrite string_from_of_list_byte.
  - rewrite string_IndexByte_of_list_byte.
    destruct (IndexByte l x5d <? 0); [reflexivity|].
    now rewrite string_from_of_list_byte.
Qed.

Lemma parseCharClass_class_text (inv : bool) (body rest : list byte) :
  (x5d ∉ body) -> (inv = false -> head body <> Some x21) ->
  parseCharClass (class_text inv body rest) =
  rbind (class_loop (length body) 0 (len body)
                    (string_of_list_byte (body ++ x5d :: rest)) zero_chars)
        (fun cs => Ok (mkCharClass cs inv, string_of_list_byte rest)).
Proof.
  intros Hn Hhead. unfold class_text. rewrite parseCharClass_bracket.
  set (l2 := body ++ x5d :: rest).
  assert (Hl2 : 0 < len l2).
  { unfold l2. rewrite len_app, len_cons.
    pose proof (len_nonneg body). pose proof (len_nonneg rest). lia. }
  assert (Hend : IndexByte l2 x5d = len body) by (now apply IndexByte_first).
  assert (Hdrop : drop (Z.to_nat (len body + 1)) l2 = rest).
  { unfold l2. replace (Z.to_nat (len body + 1)) with (length body + 1)%nat
      by (unfold len; lia).
    rewrite drop_app_add. reflexivity. }
  destruct inv; cbn [app].
  - replace (len (x21 :: l2) =? 0) with false
      by (symmetry; apply Z.eqb_neq; rewrite len_cons; lia).
    cbn [nth]. change (Byte.eqb x21 x21) with true. cbv iota. cbn [drop]. rewrite drop_0.
    rewrite Hend. fold l2.
    replace (len body <? 0) with false
      by (symmetry; apply Z.ltb_ge; apply len_nonneg).
    unfold len at 1. rewrite Nat2Z.id, Hdrop. reflexivity.
  - fold l2. replace (len l2 =? 0) with false by (symmetry; apply Z.eqb_neq; lia).
    assert (Hfirst : Byte.eqb (nth 0 l2 x00) x21 = false).
    { apply byte_eqb_neq. unfold l2. destruct body as [|c body]; cbn [app nth].
      - discriminate.
      - intros ->. now apply (Hhead eq_refl). }
    rewrite Hfirst. cbv iota. rewrite Hend.
    replace (len body <? 0) with false
      by (symmetry; apply Z.ltb_ge; apply len_nonneg).
    unfold len at 1. rewrite Nat2Z.id, Hdrop. reflexivity.
Qed.

Lemma charClass_match_class_has (cc : charClass) (b : byte) :
  charClass_match cc b = matchAdvanceBoth <-> class_has cc b = true.
Proof.
  unfold charClass_match, class_has.
  destruct (chars cc !!! byte_index b), (invert cc); cbn; split; intros H;
    try reflexivity; discriminate H.
Qed.

Lemma parseCharClass_class_text_members (inv : bool) (body rest : list byte) :
  (x5d ∉ body) -> (inv = false -> head body <> Some x21) ->
  (forall j, ~ inverted_range body j) ->
  exists cc,
    parseCharClass (class_text inv body rest) = Ok (cc, string_of_list_byte rest) /\
    invert cc = inv /\ length (chars cc) = 256%nat /\
    forall b,
      (chars cc !!! byte_index b = true <-> class_member body b) /\
      (charClass_match cc b = matchAdvanceBoth <->
       if inv then ~ class_member body b else class_member body b).
Proof.
  intros Hn Hhead Hord.
  rewrite (parseCharClass_class_text inv body rest Hn Hhead).
  destruct (class_loop_members body (x5d :: rest) (length body) 0 zero_chars)
    as (cs & E & Hl & Hm); [lia|reflexivity|intros j _; apply Hord|].
  change (Z.of_nat 0) with 0 in E. rewrite E. cbn [rbind].
  eexists. split; [reflexivity|]. cbn [invert chars].
  split; [reflexivity|]. split; [exact Hl|]. intros b.
  assert (Hmem : cs !!! byte_index b = true <-> class_member body b).
  { rewrite Hm, zero_chars_lookup. unfold class_member. split.
    - intros [H|(j & _ & H)]; [discriminate|eauto].
    - intros (j & H). right. exists j. split; [lia|exact H]. }
  split; [exact Hmem|].
  rewrite charClass_match_class_has. unfold class_has. cbn [chars invert].
  destruct inv, (cs !!! byte_index b) eqn:Eb; cbn [xorb negb]; split; intros H;
    try reflexivity; try discriminate H.
  - exfalso. apply H. now apply Hmem.
  - intros H'. apply Hmem in H'. discriminate H'.
  - now apply Hmem.
  - apply Hmem in H. discriminate H.
Qed.

(** X20. A class text without inverted range compiles, leaves the text
    after the closing bracket, and holds exactly the bytes that its body
    denotes: each byte of the body stands for itself, except a hyphen
    strictly inside the body, which stands for the bytes from the one
    before it up to, not including, the one after it. The class matches a
    byte iff it holds it (iff it does not, for a class opened by [[!]). *)
Theorem parseCharClass_members (inv : bool) (body rest : list byte) :
  (x5d ∉ body) -> (inv = false -> head body <> Some x21) ->
  (forall j, ~ inverted_range body j) ->
  exists cc,
    parseCharClass (class_text inv body rest) = Ok (cc, string_of_list_byte rest) /\
    invert cc = inv /\ length (chars cc) = 256%nat /\
    forall b,
      (chars cc !!! byte_index b = true <-> class_member body b) /\
      (charClass_match cc b = matchAdvanceBoth <->
       if inv then ~ class_member body b else class_member body b).
Proof. apply parseCharClass_class_text_members. Qed.

(** X21. A class text with a range whose upper bound is below its lower
    bound is rejected with the invalid-range error. *)
Theorem parseCharClass_inverted_range (inv : bool) (body rest : list byte) (j : nat) :
  (x5d ∉ body) -> (inv = false -> head body <> Some x21) ->
  inverted_range body j ->
  parseCharClass (class_text inv body rest)
  = Err (Errorf "invalid range %c-%c, %c<%c").
Proof.
  intros Hn Hhead Hinv.
  rewrite (parseCharClass_class_text inv body rest Hn Hhead).
  assert (E : class_loop (length body) (Z.of_nat 0) (len body)
                (string_of_list_byte (body ++ x5d :: rest)) zero_chars
              = Err (Errorf "invalid range %c-%c, %c<%c")).
  { apply class_loop_inverted; [lia|]. exists j. split; [lia|exact Hinv]. }
  change (Z.of_nat 0) with 0 in E. rewrite E. reflexivity.
Qed.

Lemma parseCharClass_members_witness :
  exists cc,
    parseCharClass (class_text true [x61; x2d; x65] [x78])
    = Ok (cc, string_of_list_byte [x78]) /\
    invert cc = true /\ length (chars cc) = 256%nat /\
    forall b,
      (chars cc !!! byte_index b = true <-> class_member [x61; x2d; x65] b) /\
      (charClass_match cc b = matchAdvanceBoth <->
       ~ class_member [x61; x2d; x65] b).
Proof.
  apply (parseCharClass_members true [x61; x2d; x65] [x78]).
  - intros H. repeat (apply elem_of_cons in H as [H|H]; [discriminate H|]).
    now apply elem_of_nil in H.
  - discriminate.
  - intros j (lo & hi & E & H).
    destruct j as [|[|[|j]]]; vm_compute in E; try discriminate E.
    injection E as <- <-. vm_compute in H. discriminate H.
Defined.

Lemma parseCharClass_inverted_range_witness :
  parseCharClass (class_text false [x62; x2d; x61] [])
  = Err (Errorf "invalid range %c-%c, %c<%c").
Proof.
  apply (parseCharClass_inverted_range false [x62; x2d; x61] [] 1).
  - intros H. repeat (apply elem_of_cons in H as [H|H]; [discriminate H|]).
    now apply elem_of_nil in H.
  - intros _. discriminate.
  - exists x62, x61. split; [reflexivity|]. vm_compute. reflexivity.
Defined.

Lemma parseCharClass_not_bracket (a : ascii) (str : string) :
  a <> "["%char ->
  parseCharClass (String.String a str) = Err (Errorf "expect %q, got: %q").
Proof.
  intros Hne. destruct a as [[] [] [] [] [] [] [] []];
    try reflexivity. now contradiction Hne.
Qed.

Lemma parseCharClass_Ok_shape (l : list byte) (cc : charClass) (rem : string) :
  parseCharClass (string_of_list_byte (x5b :: l)) = Ok (cc, rem) ->
  exists body,
    x5b :: l = x5b :: (if invert cc then [x21] else []) ++ body
                      ++ x5d :: list_byte_of_string rem /\
    (x5d ∉ body) /\ (invert cc = false -> head body <> Some x21) /\
    class_loop (length body) 0 (len body)
               (string_of_list_byte (body ++ x5d :: list_byte_of_string rem))
               zero_chars = Ok (chars cc).
Proof.
  rewrite parseCharClass_bracket.
  destruct (len l =? 0) eqn:El; [discriminate|].
  assert (Hshape : forall l2 inv,
    (let end_ := IndexByte l2 x5d in
     if end_ <? 0 then Err (Errorf "expect %q somewhere, got: %q")
     else rbind (class_loop (Z.to_nat end_) 0 end_ (string_of_list_byte l2) zero_chars)
                (fun cs => Ok (mkCharClass cs inv,
                               string_of_list_byte (drop (Z.to_nat (end_ + 1)) l2))))
    = Ok (cc, rem) ->
    invert cc = inv /\
    exists body, l2 = body ++ x5d :: list_byte_of_string rem /\ (x5d ∉ body) /\
      class_loop (length body) 0 (len body)
                 (string_of_list_byte (body ++ x5d :: list_byte_of_string rem))
                 zero_chars = Ok (chars cc)).
  { intros l2 inv. cbv zeta.
    destruct (Z.ltb_spec (IndexByte l2 x5d) 0) as [|Hge]; [discriminate|].
    destruct (IndexByte_found l2 x5d Hge) as (body & tl & E2 & Hn & Hlen).
    rewrite <- Hlen.
    assert (Hdrop : drop (Z.to_nat (len body + 1)) l2 = tl).
    { rewrite E2. replace (Z.to_nat (len body + 1)) with (length body + 1)%nat
        by (unfold len; lia).
      rewrite drop_app_add. reflexivity. }
    rewrite Hdrop. unfold len at 1. rewrite Nat2Z.id.
    destruct (class_loop (length body) 0 (len body) (string_of_list_byte l2) zero_chars)
      as [cs|e|r] eqn:Ec; cbn [rbind]; try discriminate.
    intros H. injection H as <- <-. cbn [invert chars].
    split; [reflexivity|]. exists body.
    rewrite list_byte_of_string_of_list_byte. rewrite <- E2.
    split; [reflexivity|]. split; [exact Hn|exact Ec]. }
  destruct (Byte.eqb (nth 0 l x00) x21) eqn:Eb; intros H;
    apply Hshape in H as (Hinv & body & E2 & Hn & Hc); rewrite Hinv;
    exists body.
  - split; [|split; [exact Hn|split; [discriminate|exact Hc]]].
    apply byte_eqb_eq in Eb. destruct l as [|c l]; [discriminate El|].
    cbn [nth] in Eb. subst c. cbn [drop] in E2. rewrite drop_0 in E2.
    cbn [app]. now rewrite E2.
  - split; [cbn [app]; now rewrite <- E2|].
    split; [exact Hn|]. split; [|exact Hc].
    intros _ Hh. apply byte_eqb_neq in Eb. apply Eb.
    rewrite E2. destruct body as [|c body]; [discriminate Hh|].
    injection Hh as ->. reflexivity.
Qed.

(** X22. [parseCharClass] returns a class only for a well-formed class
    text: the input opens with a bracket (then [!] for an inverted class),
    the class ends at the first closing bracket after that, what is
    returned with the class is the text after this bracket, and no range
    of the body has its upper bound below its lower bound. In particular
    an input that does not open with a bracket or holds no closing bracket
    is an error. *)
Theorem parseCharClass_accepts_only_class_text
        (str : string) (cc : charClass) (rem : string) :
  parseCharClass str = Ok (cc, rem) ->
  exists body,
    str = class_text (invert cc) body (list_byte_of_string rem) /\
    (x5d ∉ body) /\ (invert cc = false -> head body <> Some x21) /\
    (forall j, ~ inverted_range body j).
Proof.
  intros H. destruct str as [|a str']; [discriminate H|].
  destruct (ascii_dec a "["%char) as [->|Hne];
    [|rewrite parseCharClass_not_bracket in H by exact Hne; discriminate H].
  assert (Es : String.String "["%char str'
               = string_of_list_byte (x5b :: list_byte_of_string str')).
  { change (string_of_list_byte (x5b :: list_byte_of_string str'))
      with (String.String "["%char (string_of_list_byte (list_byte_of_string str'))).
    now rewrite string_of_list_byte_of_string. }
  rewrite Es in H |- *.
  destruct (parseCharClass_Ok_shape _ _ _ H) as (body & E & Hn & Hh & Hc).
  exists body. split; [unfold class_text; now rewrite E|].
  split; [exact Hn|]. split; [exact Hh|].
  intros j Hj.
  assert (Hbad : class_loop (length body) (Z.of_nat 0) (len body)
                   (string_of_list_byte (body ++ x5d :: list_byte_of_string rem))
                   zero_chars
                 = Err (Errorf "invalid range %c-%c, %c<%c")).
  { apply class_loop_inverted; [lia|]. exists j. split; [lia|exact Hj]. }
  change (Z.of_nat 0) with 0 in Hbad. rewrite Hbad in Hc. discriminate Hc.
Qed.

Lemma parseCharClass_accepts_only_class_text_witness :
  exists body,
    "[!a-e]x"%string
    = class_text (invert (mkCharClass (set_char (fill_range 256 97 101 (set_char zero_chars 97)) 101) true))
                 body (list_byte_of_string "x") /\
    (x5d ∉ body) /\
    (invert (mkCharClass (set_char (fill_range 256 97 101 (set_char zero_chars 97)) 101) true) = false ->
     head body <> Some x21) /\
    (forall j, ~ inverted_range body j).
Proof.
  apply (parseCharClass_accepts_only_class_text "[!a-e]x"
           (mkCharClass (set_char (fill_range 256 97 101 (set_char zero_chars 97)) 101) true) "x").
  vm_compute. reflexivity.
Defined.

(** ** Printing and parsing a character class *)

Lemma byte_index_of_Z (k : nat) : (k < 256)%nat -> byte_index (byte_of_Z (Z.of_nat k)) = k.
Proof.
  intros Hk. unfold byte_index. rewrite byte_val_of_Z, Z.mod_small by lia. lia.
Qed.

Lemma byte_of_Z_index (b : byte) : byte_of_Z (Z.of_nat (byte_index b)) = b.
Proof.
  unfold byte_index. pose proof (byte_val_range b).
  rewrite Z2Nat.id by lia. apply byte_of_Z_val.
Qed.

Lemma members_from_spec (cs : list bool) (i : Z) (b : byte) :
  0 <= i ->
  (forall k, cs !! k = Some true -> i + Z.of_nat k < 128) ->
  (b ∈ members_from i cs <->
   exists k, cs !! k = Some true /\ b = byte_of_Z (i + Z.of_nat k)).
Proof.
  revert i. induction cs as [|ok cs IH]; intros i Hi Hascii; cbn [members_from].
  - split; [intros H; now apply elem_of_nil in H|]. intros (k & H & _). discriminate H.
  - assert (IH' := IH (i + 1) ltac:(lia)
                      (fun k H => ltac:(specialize (Hascii (S k) H); lia))).
    rewrite elem_of_app, IH'. split.
    + intros [H|(k & Hk & ->)].
      * destruct ok; [|now apply elem_of_nil in H].
        specialize (Hascii 0%nat eq_refl). unfold EncodeRune in H.
        replace ((0 <=? i) && (i <=? 127)) with true in H
          by (symmetry; apply andb_true_iff; split; [apply Z.leb_le|apply Z.leb_le]; lia).
        apply list_elem_of_singleton in H. exists 0%nat.
        split; [reflexivity|]. rewrite H. f_equal. lia.
      * exists (S k). split; [exact Hk|]. f_equal. lia.
    + intros ([|k] & Hk & ->).
      * cbn in Hk. injection Hk as ->. left.
        specialize (Hascii 0%nat eq_refl). unfold EncodeRune.
        replace ((0 <=? i) && (i <=? 127)) with true
          by (symmetry; apply andb_true_iff; split; [apply Z.leb_le|apply Z.leb_le]; lia).
        apply list_elem_of_singleton. f_equal. lia.
      * right. exists k. split; [exact Hk|]. f_equal. lia.
Qed.

Lemma plain_class_members (cc : charClass) (b : byte) :
  plain_class cc ->
  (b ∈ members_from 0 (chars cc) <-> chars cc !!! byte_index b = true).
Proof.
  intros [Hlen Hplain].
  assert (Hascii : forall k, chars cc !! k = Some true -> 0 + Z.of_nat k < 128).
  { intros k Hk. assert (Hlt : (k < 256)%nat)
      by (rewrite <- Hlen; eapply lookup_lt_Some; exact Hk).
    destruct (Hplain (byte_of_Z (Z.of_nat k))) as [H _].
    - rewrite byte_index_of_Z by exact Hlt. now apply list_lookup_total_correct.
    - rewrite byte_val_of_Z, Z.mod_small in H by lia. lia. }
  rewrite (members_from_spec (chars cc) 0 b ltac:(lia) Hascii). split.
  - intros (k & Hk & ->). rewrite Z.add_0_l.
    assert (Hlt : (k < 256)%nat)
      by (rewrite <- Hlen; eapply lookup_lt_Some; exact Hk).
    rewrite byte_index_of_Z by exact Hlt. now apply list_lookup_total_correct.
  - intros H. exists (byte_index b). split.
    + rewrite <- H. apply list_lookup_lookup_total_lt.
      rewrite Hlen. apply byte_index_lt.
    + rewrite Z.add_0_l. now rewrite byte_of_Z_index.
Qed.

Lemma hyphen_range_without_hyphen (body : list byte) (j : nat) :
  (x2d ∉ body) -> hyphen_range body j = None.
Proof.
  intros Hn. unfold hyphen_range. destruct (body !! j) as [c|] eqn:Ec; [|reflexivity].
  destruct (Byte.eqb c x2d) eqn:E; [|reflexivity].
  apply byte_eqb_eq in E. subst c. exfalso. apply Hn.
  eapply list_elem_of_lookup_2. exact Ec.
Qed.

Lemma class_member_without_hyphen (body : list byte) (b : byte) :
  (x2d ∉ body) -> (class_member body b <-> b ∈ body).
Proof.
  intros Hn. unfold class_member, position_covers. split.
  - intros (j & c & Hc & H). rewrite hyphen_range_without_hyphen in H by exact Hn.
    subst c. eapply list_elem_of_lookup_2. exact Hc.
  - intros H. apply list_elem_of_lookup_1 in H as (j & Hj). exists j, b.
    split; [exact Hj|]. now rewrite hyphen_range_without_hyphen by exact Hn.
Qed.

Lemma chars_ext (cs cs' : list bool) :
  length cs = 256%nat -> length cs' = 256%nat ->
  (forall b, cs !!! byte_index b = true <-> cs' !!! byte_index b = true) ->
  cs = cs'.
Proof.
  intros Hl Hl' H. apply list_eq. intros k.
  destruct (Nat.lt_ge_cases k 256) as [Hk|Hk].
  - rewrite (list_lookup_lookup_total_lt cs k) by lia.
    rewrite (list_lookup_lookup_total_lt cs' k) by lia.
    f_equal. specialize (H (byte_of_Z (Z.of_nat k))).
    rewrite byte_index_of_Z in H by exact Hk.
    destruct (cs !!! k), (cs' !!! k); try reflexivity.
    + symmetry. now apply H.
    + now apply H.
  - rewrite !lookup_ge_None_2 by lia. reflexivity.
Qed.

Lemma charClass_String_parse (cc : charClass) :
  plain_class cc -> parseCharClass (charClass_String cc) = Ok (cc, ""%string).
Proof.
  intros Hp. pose proof Hp as [Hlen Hplain].
  set (body := members_from 0 (chars cc)).
  assert (Hno : forall b, b ∈ body -> b <> x5d /\ b <> x2d /\ b <> x21).
  { intros b Hb. apply (plain_class_members cc b Hp) in Hb.
    now apply Hplain in Hb. }
  assert (H5d : x5d ∉ body) by (intros H; now apply Hno in H as (? & _ & _)).
  assert (H2d : x2d ∉ body) by (intros H; now apply Hno in H as (_ & ? & _)).
  assert (H21 : head body <> Some x21).
  { intros H. destruct body as [|c tl] eqn:Eb; [discriminate H|].
    injection H as ->. destruct (Hno x21) as (_ & _ & Hc); [left|]. now apply Hc. }
  destruct (parseCharClass_class_text_members (invert cc) body [] H5d (fun _ => H21))
    as (cc' & E & Hinv & Hlen' & Hm).
  { intros j (lo & hi & Hj & _).
    rewrite hyphen_range_without_hyphen in Hj by exact H2d. discriminate Hj. }
  change (charClass_String cc) with (class_text (invert cc) body []).
  rewrite E. do 2 f_equal. destruct cc as [cs inv], cc' as [cs' inv'].
  cbn [chars invert] in *. subst inv'. f_equal.
  apply chars_ext; [exact Hlen'|exact Hlen|]. intros b.
  destruct (Hm b) as [Hb _]. rewrite Hb, (class_member_without_hyphen body b H2d).
  apply (plain_class_members (mkCharClass cs inv) b Hp).
Qed.

(** X23. Printing a class and parsing the text gives the class back, with
    nothing left over, when the class holds only ASCII bytes other than
    the closing bracket, the hyphen and the exclamation mark. *)
Theorem charClass_String_parses_back (cc : charClass) :
  plain_class cc -> parseCharClass (charClass_String cc) = Ok (cc, ""%string).
Proof. apply charClass_String_parse. Qed.

Lemma charClass_String_parses_back_witness :
  parseCharClass (charClass_String (mkCharClass (set_char (set_char zero_chars 97) 99) true))
  = Ok (mkCharClass (set_char (set_char zero_chars 97) 99) true, ""%string).
Proof.
  apply (charClass_String_parses_back
           (mkCharClass (set_char (set_char zero_chars 97) 99) true)).
  split; [reflexivity|].
  intros b. destruct b; vm_compute; intros H; try discriminate H;
    (split; [reflexivity|repeat split; discriminate]).
Defined.
